(** * convert_hexchat_to_weechat: line classification and merge pipeline

    A shallow embedding of [convert_hexchat_to_weechat.py] and the
    properties of its line classifier, destination-line parser and
    merge/deduplication pass.

    Conventions of the embedding.
    - A Python [str] is a [list ascii]: characters are code points in the
      one-byte range, and the classes [\d], [\s] and [str.isspace] are
      Python's Unicode classes restricted to that range.
    - A Python function that may raise returns a [result]; [None] results
      are [option]s inside it.
    - Regular expressions are kept as syntax trees and run by a
      backtracking matcher that lists the successful matches in the order
      Python's engine tries them; [re.match] is the first of them.
    - The file system is a finite map from paths to decoded file texts,
      together with a log of the accesses made. *)

Set Warnings "-comment-terminator-in-string".

From Stdlib Require Import ZArith Ascii String List Lia Bool.
From stdpp Require Import base option list sorting gmap strings.

Abbreviation str := (list ascii).
Coercion list_ascii_of_string : string >-> list.

(** ** Characters *)

Module Chars.

Definition ord (c : ascii) : nat := nat_of_ascii c.

Definition TAB : ascii := "009"%char.
Definition LF : ascii := "010"%char.
Definition CR : ascii := "013"%char.
Definition SPACE : ascii := " "%char.
(** The colour introducer [\x03] and the formatting toggles
    [\x02 \x0f \x16 \x1d \x1f \x07]. *)
Definition X03 : ascii := "003"%char.
Definition X02 : ascii := "002"%char.
Definition X0F : ascii := "015"%char.
Definition X16 : ascii := "022"%char.
Definition X1D : ascii := "029"%char.
Definition X1F : ascii := "031"%char.
Definition X07 : ascii := "007"%char.

Definition is_char (a c : ascii) : bool := Ascii.eqb a c.

Definition member (cs : str) (c : ascii) : bool := existsb (Ascii.eqb c) cs.

(** [\d]: the decimal digits. *)
Definition is_digit (c : ascii) : bool :=
  (48 <=? ord c) && (ord c <=? 57).

Definition digit_value (c : ascii) : Z := Z.of_nat (ord c) - 48.

(** [\s] and [str.isspace]: tab, line feed, vertical tab, form feed,
    carriage return, the separators [\x1c]..[\x1f], space, [\x85] and
    [\xa0]. *)
Definition is_space (c : ascii) : bool :=
  let n := ord c in
  ((9 <=? n) && (n <=? 13)) || ((28 <=? n) && (n <=? 32))
  || (n =? 133) || (n =? 160).

(** The white space [int] ignores around a number: the ASCII white space
    (the separators [\x1c]..[\x1f] are not) and, read as spaces, [\x85]
    and [\xa0]. *)
Definition is_int_space (c : ascii) : bool :=
  let n := ord c in
  ((9 <=? n) && (n <=? 13)) || (n =? 32) || (n =? 133) || (n =? 160).

(** [.] without DOTALL: anything but a line feed. *)
Definition is_dot (c : ascii) : bool := negb (Ascii.eqb c LF).

End Chars.
Import Chars.

(** ** The result of a call that may raise *)

(** The exceptions raised here.  [OutOfRangeError] stands for what
    [datetime.fromtimestamp] raises outside the years 1..9999: ValueError
    ("year N is out of range"), OverflowError or OSError, depending on the
    magnitude and the platform; no caller catches any of them. *)
Inductive exn : Type :=
| ValueError
| FileNotFoundError
| OutOfRangeError.

Inductive result (A : Type) : Type :=
| Ok (a : A)
| Raise (e : exn).
Arguments Ok {A} a.
Arguments Raise {A} e.

Definition rbind {A B} (m : result A) (f : A -> result B) : result B :=
  match m with
  | Ok a => f a
  | Raise e => Raise e
  end.

(** ** Regular expressions *)

Module Re.

Inductive regex : Type :=
| RChar (p : ascii -> bool)      (* one character of a class; a literal *)
| ROpt (r : regex)               (* r?  greedy *)
| RStar (r : regex)              (* r*  greedy *)
| RGroup (i : nat) (r : regex)   (* capturing group number i *)
| RBol                           (* ^ *)
| REol                           (* $ *)
| REps                           (* the empty pattern *)
| RSeq (r1 r2 : regex).          (* r1 r2 *)

(** The concatenation of a list of patterns. *)
Definition rseq (rs : list regex) : regex := foldr RSeq REps rs.

Definition RLit (c : ascii) : regex := RChar (is_char c).
Definition RStr (s : str) : regex := rseq (map RLit s).
Definition RPlus (r : regex) : regex := RSeq r (RStar r).
(** r{1,2} *)
Definition ROneTwo (r : regex) : regex := RSeq r (ROpt r).

(** A matcher state: the number of characters before the cursor, the text
    after it, and the groups closed so far (latest first). *)
Record mstate : Type := MState {
  m_pos : nat;
  m_rest : str;
  m_caps : list (nat * str)
}.

Definition set_group (i : nat) (from to : mstate) : mstate :=
  MState (m_pos to) (m_rest to)
         ((i, take (m_pos to - m_pos from) (m_rest from)) :: m_caps to).

Definition step_char (p : ascii -> bool) (st : mstate) : list mstate :=
  match m_rest st with
  | c :: t => if p c then [MState (S (m_pos st)) t (m_caps st)] else []
  | [] => []
  end.

(** [$] matches at the end of the text and just before a final line feed. *)
Definition at_eol (st : mstate) : bool :=
  match m_rest st with
  | [] => true
  | [c] => Ascii.eqb c LF
  | _ => false
  end.

Definition shorter (a b : mstate) : bool :=
  length (m_rest a) <? length (m_rest b).

(** The iterations of a starred pattern: one more round of [step], as
    long as it consumes something, before stopping here. *)
Fixpoint star_loop (step : mstate -> list mstate) (fuel : nat) (st : mstate)
  : list mstate :=
  match fuel with
  | O => [st]
  | S fuel' =>
      flat_map (fun st' => if shorter st' st then star_loop step fuel' st' else [])
               (step st) ++ [st]
  end.

(** All the ways [r] matches at [st], in the order a backtracking engine
    explores them (greedy choices first). *)
Fixpoint rmatch (r : regex) (st : mstate) {struct r} : list mstate :=
  match r with
  | RChar p => step_char p st
  | ROpt r1 => rmatch r1 st ++ [st]
  | RStar r1 => star_loop (rmatch r1) (length (m_rest st)) st
  | RGroup i r1 => map (set_group i st) (rmatch r1 st)
  | RBol => if (m_pos st =? 0)%nat then [st] else []
  | REol => if at_eol st then [st] else []
  | REps => [st]
  | RSeq r1 r2 => flat_map (rmatch r2) (rmatch r1 st)
  end.

Definition start (text : str) : mstate := MState 0 text [].

(** [re.match(r, text)]: the first match at the start of the text. *)
Definition re_match (r : regex) (text : str) : option mstate :=
  head (rmatch r (start text)).

(** [m.group(i)] of a group that took part in the match. *)
Definition group (i : nat) (m : mstate) : str :=
  match find (fun kv => (fst kv =? i)%nat) (m_caps m) with
  | Some kv => snd kv
  | None => []
  end.

(** The length of the first match of [r] at a cursor. *)
Definition match_len (r : regex) (pos : nat) (s : str) : option nat :=
  match head (rmatch r (MState pos s [])) with
  | Some st' => Some (m_pos st' - pos)
  | None => None
  end.

(** [re.sub(r, '', s)] from position [pos] on, with [skip] characters of a
    match still to delete: leftmost matches, not overlapping, each
    replaced by the empty string.  (An empty match deletes nothing.) *)
Fixpoint re_sub_from (r : regex) (pos skip : nat) (s : str) : str :=
  match s with
  | [] => []
  | c :: t =>
      match skip with
      | S k => re_sub_from r (S pos) k t
      | O =>
          match match_len r pos s with
          | Some (S k) => re_sub_from r (S pos) k t
          | _ => c :: re_sub_from r (S pos) 0 t
          end
      end
  end.

Definition re_sub (r : regex) (s : str) : str := re_sub_from r 0 0 s.

End Re.
Import Re.

(** ** Python string methods *)

Module PyStr.

(** [s.startswith(p)] *)
Fixpoint startswith (p s : str) : bool :=
  match p, s with
  | [], _ => true
  | a :: p', b :: s' => Ascii.eqb a b && startswith p' s'
  | _ :: _, [] => false
  end.

(** [s.endswith(p)] *)
Definition endswith (p s : str) : bool := startswith (rev p) (rev s).

(** [s.rstrip(cs)]: drop every trailing character that is in [cs]. *)
Fixpoint rstrip (cs : str) (s : str) : str :=
  match s with
  | [] => []
  | c :: t =>
      match rstrip cs t with
      | [] => if member cs c then [] else [c]
      | t' => c :: t'
      end
  end.

(** The text without the white space that [int] ignores around it. *)
Fixpoint lstrip_int_space (s : str) : str :=
  match s with
  | c :: t => if is_int_space c then lstrip_int_space t else s
  | [] => []
  end.

Fixpoint rstrip_int_space (s : str) : str :=
  match s with
  | [] => []
  | c :: t =>
      match rstrip_int_space t with
      | [] => if is_int_space c then [] else [c]
      | t' => c :: t'
      end
  end.

Definition strip_int_space (s : str) : str :=
  rstrip_int_space (lstrip_int_space s).

(** The text before and after the first [sep], if there is one. *)
Fixpoint partition (sep : ascii) (s : str) : option (str * str) :=
  match s with
  | [] => None
  | c :: t =>
      if Ascii.eqb c sep then Some ([], t)
      else match partition sep t with
           | Some (a, b) => Some (c :: a, b)
           | None => None
           end
  end.

(** [s.split(sep, maxsplit)] for a one-character separator. *)
Fixpoint split (sep : ascii) (maxsplit : nat) (s : str) : list str :=
  match maxsplit with
  | O => [s]
  | S m =>
      match partition sep s with
      | Some (a, b) => a :: split sep m b
      | None => [s]
      end
  end.

(** The digits of [int(s)] after the sign: decimal digits, single
    underscores allowed between them. *)
Fixpoint int_digits (acc : Z) (after_digit : bool) (s : str) : option Z :=
  match s with
  | [] => if after_digit then Some acc else None
  | c :: t =>
      if is_digit c then int_digits (10 * acc + digit_value c) true t
      else if Ascii.eqb c "_" then
        (if after_digit then int_digits acc false t else None)
      else None
  end.

(** [int(s)]: white space around the number is ignored, a sign is
    accepted; anything else raises ValueError.  (The interpreter's cap on
    the number of digits, where there is one, also raises ValueError.) *)
Definition int (s : str) : result Z :=
  let t := strip_int_space s in
  let '(neg, body) :=
    match t with
    | c :: b =>
        if Ascii.eqb c "-" then (true, b)
        else if Ascii.eqb c "+" then (false, b)
        else (false, t)
    | [] => (false, t)
    end in
  match int_digits 0 false body with
  | Some n => Ok (if neg then - n else n)%Z
  | None => Raise ValueError
  end.

End PyStr.

(** ** datetime (proleptic Gregorian calendar, UTC) *)

Module DateTime.
Local Open Scope Z_scope.

Record datetime : Type := mk_datetime {
  year : Z; month : Z; day : Z; hour : Z; minute : Z; second : Z
}.

Definition MINYEAR : Z := 1.
Definition MAXYEAR : Z := 9999.

Definition is_leap (y : Z) : bool :=
  (y mod 4 =? 0) && (negb (y mod 100 =? 0) || (y mod 400 =? 0)).

(** Days before January 1st of year [y]. *)
Definition days_before_year (y : Z) : Z :=
  let p := y - 1 in
  p * 365 + p / 4 - p / 100 + p / 400.

Definition days_in_month (y m : Z) : Z :=
  if m =? 2 then (if is_leap y then 29 else 28)
  else if (m =? 4) || (m =? 6) || (m =? 9) || (m =? 11) then 30
  else 31.

(** Days of the year before the first day of month [m] of a common year. *)
Definition DAYS_BEFORE_MONTH (m : Z) : Z :=
  match m with
  | 1 => 0 | 2 => 31 | 3 => 59 | 4 => 90 | 5 => 120 | 6 => 151
  | 7 => 181 | 8 => 212 | 9 => 243 | 10 => 273 | 11 => 304 | 12 => 334
  | _ => 0
  end.

Definition days_before_month (y m : Z) : Z :=
  DAYS_BEFORE_MONTH m + (if (2 <? m) && is_leap y then 1 else 0).

(** The ordinal of a date, with 0001-01-01 as day 1. *)
Definition ymd2ord (y m d : Z) : Z :=
  days_before_year y + days_before_month y m + d.

Definition DI400Y : Z := 146097.
Definition DI100Y : Z := 36524.
Definition DI4Y : Z := 1461.

(** The month and the day of the month of day [n] of a year, counted
    from 0: an estimate of the month, corrected when it is too large. *)
Definition month_day (n : Z) (leapyear : bool) : Z * Z :=
  let m := Z.shiftr (n + 50) 5 in
  let preceding := DAYS_BEFORE_MONTH m + (if (2 <? m) && leapyear then 1 else 0) in
  if n <? preceding then
    let m' := m - 1 in
    let preceding' :=
      preceding - (days_in_month 1 m' + (if (m' =? 2) && leapyear then 1 else 0)) in
    (m', n - preceding' + 1)
  else (m, n - preceding + 1).

(** The date of an ordinal: 400-year, 100-year and 4-year cycles, then
    single years; the last day of a cycle belongs to its last year. *)
Definition ord2ymd (n : Z) : Z * Z * Z :=
  let n := n - 1 in
  let n400 := n / DI400Y in let n := n mod DI400Y in
  let n100 := n / DI100Y in let n := n mod DI100Y in
  let n4 := n / DI4Y in let n := n mod DI4Y in
  let n1 := n / 365 in let n := n mod 365 in
  let y := n400 * 400 + 1 + n100 * 100 + n4 * 4 + n1 in
  if (n1 =? 4) || (n100 =? 4) then (y - 1, 12, 31)
  else
    let leapyear := (n1 =? 3) && (negb (n4 =? 24) || (n100 =? 3)) in
    let '(m, d) := month_day n leapyear in
    (y, m, d).

Definition EPOCH_ORD : Z := 719163.   (* 1970-01-01 *)

(** The constructor's range checks. *)
Definition valid_datetime (dt : datetime) : bool :=
  (MINYEAR <=? year dt) && (year dt <=? MAXYEAR)
  && (1 <=? month dt) && (month dt <=? 12)
  && (1 <=? day dt) && (day dt <=? days_in_month (year dt) (month dt))
  && (0 <=? hour dt) && (hour dt <=? 23)
  && (0 <=? minute dt) && (minute dt <=? 59)
  && (0 <=? second dt) && (second dt <=? 59).

(** [datetime.fromtimestamp(ts, tz=timezone.utc)]: raises when the year
    falls outside [MINYEAR..MAXYEAR]. *)
Definition fromtimestamp (ts : Z) : result datetime :=
  let days := ts / 86400 in
  let secs := ts mod 86400 in
  let '(y, m, d) := ord2ymd (days + EPOCH_ORD) in
  if (MINYEAR <=? y) && (y <=? MAXYEAR)
  then Ok (mk_datetime y m d (secs / 3600) (secs mod 3600 / 60) (secs mod 60))
  else Raise OutOfRangeError.

(** [int(dt.replace(tzinfo=timezone.utc).timestamp())] *)
Definition timestamp (dt : datetime) : Z :=
  (ymd2ord (year dt) (month dt) (day dt) - EPOCH_ORD) * 86400
  + hour dt * 3600 + minute dt * 60 + second dt.

Definition digit_char (d : Z) : ascii := ascii_of_nat (Z.to_nat (48 + d)).

Definition zfill2 (v : Z) : str :=
  [digit_char (v / 10 mod 10); digit_char (v mod 10)].

Definition zfill4 (v : Z) : str :=
  [digit_char (v / 1000 mod 10); digit_char (v / 100 mod 10);
   digit_char (v / 10 mod 10); digit_char (v mod 10)].

(** [dt.strftime('%Y-%m-%d %H:%M:%S')], the year written with four
    digits. *)
Definition strftime (dt : datetime) : str :=
  zfill4 (year dt) ++ "-" ++ zfill2 (month dt) ++ "-" ++ zfill2 (day dt)
  ++ " " ++ zfill2 (hour dt) ++ ":" ++ zfill2 (minute dt) ++ ":"
  ++ zfill2 (second dt).

Definition num2 (a b : ascii) : Z := 10 * digit_value a + digit_value b.
Definition num4 (a b c d : ascii) : Z :=
  1000 * digit_value a + 100 * digit_value b + 10 * digit_value c
  + digit_value d.

(** [datetime.strptime(s, '%Y-%m-%d %H:%M:%S')] on a text of nineteen
    characters, every field at its full width (the only texts it is called
    with): ValueError unless the text reads dddd-dd-dd dd:dd:dd and the
    fields form a date and time the constructor accepts. *)
Definition strptime (s : str) : result datetime :=
  match s with
  | [y1; y2; y3; y4; a; m1; m2; b; d1; d2; c; H1; H2; d; M1; M2; e; S1; S2] =>
      let dt := mk_datetime (num4 y1 y2 y3 y4) (num2 m1 m2) (num2 d1 d2)
                            (num2 H1 H2) (num2 M1 M2) (num2 S1 S2) in
      if forallb is_digit [y1; y2; y3; y4; m1; m2; d1; d2; H1; H2; M1; M2; S1; S2]
         && is_char "-" a && is_char "-" b && is_char " " c
         && is_char ":" d && is_char ":" e
         && valid_datetime dt
      then Ok dt else Raise ValueError
  | _ => Raise ValueError
  end.

End DateTime.

(** ** The file system *)

Module FS.

Inductive event : Type :=
| EvExists (path : str)
| EvRead (path : str)
| EvWrite (path : str).

Record world : Type := World {
  files : gmap str str;     (* the decoded text of every file *)
  trace : list event        (* the accesses made, latest first *)
}.

Definition emit (e : event) (w : world) : world :=
  World (files w) (e :: trace w).

(** A computation on the file system that may raise. *)
Definition M (A : Type) : Type := world -> result A * world.

Definition ret {A} (a : A) : M A := fun w => (Ok a, w).

Definition bind {A B} (m : M A) (f : A -> M B) : M B :=
  fun w =>
    match m w with
    | (Ok a, w') => f a w'
    | (Raise e, w') => (Raise e, w')
    end.

Definition lift {A} (r : result A) : M A := fun w => (r, w).

(** [dir / name] *)
Definition join (dir name : str) : str := dir ++ "/" ++ name.

(** [path.exists()] *)
Definition path_exists (p : str) : M bool :=
  fun w => (Ok (bool_decide (is_Some (files w !! p))), emit (EvExists p) w).

(** The lines a text-mode file object yields: every line break ([\n],
    [\r\n] or [\r]) ends a line and is handed over as [\n]; a last line
    without a break is handed over as it is. *)
Fixpoint file_lines_from (cur : str) (s : str) : list str :=
  match s with
  | [] => match cur with [] => [] | _ => [cur] end
  | c :: t =>
      if Ascii.eqb c LF then (cur ++ [LF]) :: file_lines_from [] t
      else if Ascii.eqb c CR then
        match t with
        | c' :: t' =>
            if Ascii.eqb c' LF then (cur ++ [LF]) :: file_lines_from [] t'
            else (cur ++ [LF]) :: file_lines_from [] t
        | [] => (cur ++ [LF]) :: file_lines_from [] t
        end
      else file_lines_from (cur ++ [c]) t
  end.

Definition file_lines (text : str) : list str := file_lines_from [] text.

(** [with open(p, 'r', errors='replace') as f: for line in f] *)
Definition read_lines (p : str) : M (list str) :=
  fun w =>
    match files w !! p with
    | Some text => (Ok (file_lines text), emit (EvRead p) w)
    | None => (Raise FileNotFoundError, emit (EvRead p) w)
    end.

(** [with open(p, 'w') as f: f.write(...)]: the file is replaced. *)
Definition write_file (p : str) (text : str) : M unit :=
  fun w => (Ok tt, World (<[p := text]> (files w)) (EvWrite p :: trace w)).

End FS.

Notation "'do' x <- m ; k" := (FS.bind m (fun x => k))
  (at level 10, x name, m at level 100, k at level 200).

(** ** The program *)

Import PyStr DateTime FS.

Definition HEXCHAT_DIR : str := "/home/fred/project/conversion/hexchat_efnet".
Definition WEECHAT_DIR : str := "/home/fred/project/conversion/weechat_efnet".
Definition SUBDIRS : list str := ["1" : str; "2" : str; "3" : str; "4" : str].

(** "\x03(\d{1,2}(,\d{1,2})?)?" *)
Definition COLOR_RE : regex :=
  rseq [RLit X03;
        ROpt (rseq [ROneTwo (RChar is_digit);
                    ROpt (rseq [RLit ","; ROneTwo (RChar is_digit)])])].

(** "[\x02\x0f\x16\x1d\x1f\x07]" *)
Definition TOGGLES : str := [X02; X0F; X16; X1D; X1F; X07].
Definition TOGGLE_RE : regex := RChar (member TOGGLES).

Definition strip_mirc_colors (text : str) : str :=
  let text := re_sub COLOR_RE text in
  let text := re_sub TOGGLE_RE text in
  text.

Definition not_char (a c : ascii) : bool := negb (Ascii.eqb c a).
Definition not_space (c : ascii) : bool := negb (is_space c).

(** The tail "\t(.+)$" shared by the rules that need a payload; the
    payload is group [g]. *)
Definition TAB_PAYLOAD (g : nat) : list regex :=
  [RLit TAB; RGroup g (RPlus (RChar is_dot)); REol].

(** "^<([^>]+)>\t(.*)$" *)
Definition SPEAKER_RE : regex :=
  rseq [RBol; RLit "<"; RGroup 1 (RPlus (RChar (not_char ">"))); RLit ">";
        RLit TAB; RGroup 2 (RStar (RChar is_dot)); REol].
(** "^-->\t(.+)$", "^<--\t(.+)$", "^---\t(.+)$", "^\*\t(.+)$" and
    "^-\*status-\t(.+)$": a literal marker and a payload *)
Definition MARKER_RE (marker : str) : regex :=
  rseq ([RBol; RStr marker] ++ TAB_PAYLOAD 1).
(** "^-([^-]+)-\t(.+)$" *)
Definition NOTICE_RE : regex :=
  rseq ([RBol; RLit "-"; RGroup 1 (RPlus (RChar (not_char "-"))); RLit "-"]
        ++ TAB_PAYLOAD 2).
(** "^>([^<]+)<\t(.+)$" *)
Definition OUTGOING_RE : regex :=
  rseq ([RBol; RLit ">"; RGroup 1 (RPlus (RChar (not_char "<"))); RLit "<"]
        ++ TAB_PAYLOAD 2).
(** "^\s*(\S+)\s*>>\t(.+)$" *)
Definition QUERY_RE : regex :=
  rseq ([RBol; RStar (RChar is_space); RGroup 1 (RPlus (RChar not_space));
         RStar (RChar is_space); RStr ">>"] ++ TAB_PAYLOAD 2).

Definition classify_message (text : str) : str * str :=
  (* Channel/regular message: <nick>\tmessage *)
  match re_match SPEAKER_RE text with
  | Some m => ("<" ++ group 1 m ++ ">", group 2 m)
  | None =>
  (* Join *)
  match re_match (MARKER_RE "-->") text with
  | Some m => ("-->" : str, group 1 m)
  | None =>
  (* Part/quit *)
  match re_match (MARKER_RE "<--") text with
  | Some m => ("<--" : str, group 1 m)
  | None =>
  (* Status/system *)
  match re_match (MARKER_RE "---") text with
  | Some m => ("--" : str, group 1 m)
  | None =>
  (* Action *)
  match re_match (MARKER_RE "*") text with
  | Some m => (" *" : str, group 1 m)
  | None =>
  (* Notice from nick *)
  match re_match NOTICE_RE text with
  | Some m => ("--" : str, "-" ++ group 1 m ++ "- " ++ group 2 m)
  | None =>
  (* Status notice *)
  match re_match (MARKER_RE "-*status-") text with
  | Some m => ("--" : str, "-*status- " ++ group 1 m)
  | None =>
  (* Outgoing CTCP/message *)
  match re_match OUTGOING_RE text with
  | Some m => ("--" : str, ">" ++ group 1 m ++ "< " ++ group 2 m)
  | None =>
  (* Private message format *)
  match re_match QUERY_RE text with
  | Some m => ("<" ++ group 1 m ++ ">", group 2 m)
  | None =>
  (* Plugin/system output, then the fallback: both a system message *)
  if negb (member text TAB) then ("--" : str, text)
  else ("--" : str, text)
  end end end end end end end end end.

Definition ALLOWED_CONTROL : str :=
  [X03; X02; X0F; X16; X1D; X1F; X07; TAB; LF; CR].

Definition disallowed (c : ascii) : bool :=
  (ord c <? 32) && negb (member ALLOWED_CONTROL c).

(** A converted record: (timestamp, display_time, prefix, message). *)
Definition record : Type := Z * str * str * str.

Definition parse_hexchat_line (line : str) : result (option record) :=
  let line := rstrip [LF; CR] line in
  if negb (startswith "T " line) then Ok None
  else if existsb disallowed line then Ok None
  else
    let parts := split SPACE 2 line in
    if length parts <? 3 then Ok None
    else
      match int (nth 1 parts []) with
      | Raise ValueError => Ok None
      | Raise e => Raise e
      | Ok ts =>
          let raw := nth 2 parts [] in
          let clean := strip_mirc_colors raw in
          rbind (fromtimestamp ts) (fun dt =>
          let dt_str := strftime dt in
          (* classify_message always hands back a prefix, so the
             [prefix is None] exit is never taken *)
          let '(prefix, message) := classify_message clean in
          Ok (Some (ts, dt_str, prefix, message)))
      end.

Definition hexchat_to_weechat_filename (hexchat_name : str) : str :=
  let base := hexchat_name in
  let base := if endswith ".txt" base then take (length base - 4) base else base in
  base ++ ".log".

(** "^(\d{4}-\d{2}-\d{2} \d{2}:\d{2}:\d{2})\t" *)
Definition WEECHAT_RE : regex :=
  let d := RChar is_digit in
  rseq [RBol;
        RGroup 1 (rseq [d; d; d; d; RLit "-"; d; d; RLit "-"; d; d; RLit " ";
                        d; d; RLit ":"; d; d; RLit ":"; d; d]);
        RLit TAB].

(** An entry of the merge: (timestamp for sorting, destination line). *)
Definition entry : Type := Z * str.

Definition parse_weechat_line (line : str) : option entry :=
  let line := rstrip [LF; CR] line in
  match line with
  | [] => None
  | _ =>
      match re_match WEECHAT_RE line with
      | Some m =>
          let dt_str := group 1 m in
          match strptime dt_str with
          | Ok dt => Some (timestamp dt, line)
          | Raise _ => None
          end
      | None => None
      end
  end.

(** [f'{dt_str}\t{prefix}\t{message}'] *)
Definition format_entry (r : record) : entry :=
  let '(ts, dt_str, prefix, message) := r in
  (ts, dt_str ++ [TAB] ++ prefix ++ [TAB] ++ message).

(** The inner loop over the lines of one hexchat file. *)
Fixpoint convert_lines (lines : list str) : result (list entry) :=
  match lines with
  | [] => Ok []
  | line :: rest =>
      rbind (parse_hexchat_line line) (fun result =>
      rbind (convert_lines rest) (fun entries =>
      Ok (match result with
          | Some r => format_entry r :: entries
          | None => entries
          end)))
  end.

(** The loop over [SUBDIRS]: the entries of every file that exists. *)
Fixpoint read_hexchat (subdirs : list str) (hexchat_basename : str)
  : M (list entry) :=
  match subdirs with
  | [] => ret []
  | subdir :: rest =>
      let hexpath := join (join HEXCHAT_DIR subdir) hexchat_basename in
      do found <- path_exists hexpath;
      do here <- (if found
                  then do lines <- read_lines hexpath; lift (convert_lines lines)
                  else ret []);
      do there <- read_hexchat rest hexchat_basename;
      ret (here ++ there)
  end.

(** [entries.sort(key=lambda x: x[0])]: a stable sort on the timestamp;
    an entry goes in front of the first one that is not smaller. *)
Fixpoint insert_entry (e : entry) (l : list entry) : list entry :=
  match l with
  | [] => [e]
  | x :: t => if (fst e <=? fst x)%Z then e :: x :: t else x :: insert_entry e t
  end.

Definition sort_entries (l : list entry) : list entry :=
  foldr insert_entry [] l.

(** The deduplication loop, on (deduped, prev). *)
Definition dedup_step (st : list entry * option entry) (e : entry)
  : list entry * option entry :=
  let '(deduped, prev) := st in
  ((if bool_decide (Some e ≠ prev) then deduped ++ [e] else deduped), Some e).

Definition dedup (entries : list entry) : list entry :=
  fst (fold_left dedup_step entries ([], None)).

(** What is written: every line followed by a line feed. *)
Definition serialize (deduped : list entry) : str :=
  concat (map (fun e => snd e ++ [LF]) deduped).

(** The existing weechat log, if there is one. *)
Definition read_weechat (weechat_path : str) : M (list entry) :=
  do found <- path_exists weechat_path;
  if found
  then do lines <- read_lines weechat_path; ret (omap parse_weechat_line lines)
  else ret [].

(** [process_file]: (hex_count, weechat_count, len(deduped)); [hex_count]
    and [weechat_count] count the entries appended by each loop. *)
Definition process_file (hexchat_basename : str) : M (nat * nat * nat) :=
  let weechat_name := hexchat_to_weechat_filename hexchat_basename in
  let weechat_path := join WEECHAT_DIR weechat_name in
  do hex <- read_hexchat SUBDIRS hexchat_basename;
  let hex_count := length hex in
  if (hex_count =? 0)%nat then ret (0, 0, 0)%nat
  else
    do wee <- read_weechat weechat_path;
    let weechat_count := length wee in
    let entries := sort_entries (hex ++ wee) in
    let deduped := dedup entries in
    do _ <- write_file weechat_path (serialize deduped);
    ret (hex_count, weechat_count, length deduped).

(** ** Vocabulary of the statements *)

(** The fields of [s.split()]: the maximal runs without white space. *)
Fixpoint whitespace_fields_from (cur : str) (s : str) : list str :=
  match s with
  | [] => match cur with [] => [] | _ => [cur] end
  | c :: t =>
      if is_space c
      then match cur with
           | [] => whitespace_fields_from [] t
           | _ => cur :: whitespace_fields_from [] t
           end
      else whitespace_fields_from (cur ++ [c]) t
  end.

Definition whitespace_fields (s : str) : list str := whitespace_fields_from [] s.

(** A text without line breaks. *)
Definition no_break (s : str) : Prop := (LF ∉ s) ∧ (CR ∉ s).

(** The timestamp that the header of a destination line denotes. *)
Definition header_timestamp (line : str) : option Z :=
  match strptime (take 19 line) with
  | Ok dt => Some (timestamp dt)
  | Raise _ => None
  end.

(** An entry whose timestamp is the one its line shows. *)
Definition wf_entry (e : entry) : Prop := header_timestamp (snd e) = Some (fst e).

Definition ts_le (a b : entry) : Prop := (fst a ≤ fst b)%Z.
Definition has_ts (t : Z) (e : entry) : Prop := fst e = t.
Global Instance has_ts_dec t e : Decision (has_ts t e) := Z.eq_dec (fst e) t.

(** [a] stands before [b] in [l]. *)
Definition before (a b : entry) (l : list entry) : Prop :=
  ∃ l1 l2 l3, l = l1 ++ a :: l2 ++ b :: l3.

Definition event_path (ev : event) : str :=
  match ev with
  | EvExists p => p
  | EvRead p => p
  | EvWrite p => p
  end.

(** A computation that leaves every file as it is and whose accesses all
    satisfy [P]. *)
Definition quiet {A} (P : event → Prop) (m : M A) : Prop :=
  ∀ w, ∃ new,
    snd (m w) = World (files w) (new ++ trace w) ∧ Forall P new.

(** The words a pattern can consume (anchors consume nothing). *)
Inductive rlang : regex → str → Prop :=
| L_char p c : p c = true → rlang (RChar p) [c]
| L_opt_some r w : rlang r w → rlang (ROpt r) w
| L_opt_none r : rlang (ROpt r) []
| L_star_nil r : rlang (RStar r) []
| L_star_app r w1 w2 :
    rlang r w1 → rlang (RStar r) w2 → rlang (RStar r) (w1 ++ w2)
| L_group i r w : rlang r w → rlang (RGroup i r) w
| L_bol : rlang RBol []
| L_eol : rlang REol []
| L_eps : rlang REps []
| L_seq r1 r2 w1 w2 :
    rlang r1 w1 → rlang r2 w2 → rlang (RSeq r1 r2) (w1 ++ w2).

(** [st'] is [st] after consuming [w]. *)
Definition consumed (w : str) (st st' : mstate) : Prop :=
  m_rest st = w ++ m_rest st' ∧ m_pos st' = m_pos st + length w.

(** A text that a run of one-character patterns accepts. *)
Fixpoint classes_ok (ps : list (ascii → bool)) (s : str) : bool :=
  match ps, s with
  | [], _ => true
  | p :: ps', c :: t => p c && classes_ok ps' t
  | _ :: _, [] => false
  end.

Definition advance (n : nat) (st : mstate) : mstate :=
  MState (m_pos st + n) (drop n (m_rest st)) (m_caps st).

(** The one-character patterns of the destination header. *)
Definition HEADER_CLASSES : list (ascii → bool) :=
  [is_digit; is_digit; is_digit; is_digit; is_char "-"; is_digit; is_digit;
   is_char "-"; is_digit; is_digit; is_char " "; is_digit; is_digit;
   is_char ":"; is_digit; is_digit; is_char ":"; is_digit; is_digit].

(** What [month_day] owes for day [n] of a year. *)
Definition month_day_ok (leapyear : bool) (n : Z) : bool :=
  let '(m, d) := month_day n leapyear in
  ((1 <=? m) && (m <=? 12) && (1 <=? d)
   && (d <=? days_in_month (if leapyear then 4 else 1) m)
   && (DAYS_BEFORE_MONTH m + (if (2 <? m) && leapyear then 1 else 0) + d =? n + 1))%Z.

(** The characters a colour code may hold after its introducer. *)
Definition color_param (c : ascii) : bool := is_digit c || is_char "," c.

Definition is_toggle (c : ascii) : bool := member TOGGLES c.

(** A starred class followed by the end of the text or by a character
    outside the class. *)
Definition class_stops (p : ascii → bool) (tail : str) : Prop :=
  match tail with
  | c :: _ => p c = false
  | [] => True
  end.

(** A matcher state whose remaining text and captures are made of
    characters of [text]. *)
Definition chars_of (text : str) (st : mstate) : Prop :=
  (∀ c, c ∈ m_rest st → c ∈ text)
  ∧ (∀ kv c, kv ∈ m_caps st → c ∈ snd kv → c ∈ text).

(** The characters of the rules' own punctuation. *)
Definition RULE_CHARS : str := "<>-* status".

(** The first second of year 1 and the last second of year 9999. *)
Definition MIN_TIMESTAMP : Z := (-62135596800)%Z.
Definition MAX_TIMESTAMP : Z := 253402300799%Z.

(** An entry that the destination parser reads back from its own line,
    the line free of line breaks. *)
Definition rereadable (e : entry) : Prop :=
  no_break (snd e) ∧ parse_weechat_line (snd e ++ [LF]) = Some e.

(** The destination of a source file name. *)
Definition weechat_path_of (hexchat_basename : str) : str :=
  join WEECHAT_DIR (hexchat_to_weechat_filename hexchat_basename).

(** The lines of the source files that exist, in the order of the
    subdirectories. *)
Definition hexchat_lines (subdirs : list str) (hexchat_basename : str)
  (fs : gmap str str) : list str :=
  flat_map (λ subdir,
              match fs !! join (join HEXCHAT_DIR subdir) hexchat_basename with
              | Some text => file_lines text
              | None => []
              end) subdirs.

(** The entry of a source line that yields a record. *)
Definition hexchat_entry (line : str) : option entry :=
  match parse_hexchat_line line with
  | Ok (Some r) => Some (format_entry r)
  | _ => None
  end.

(** The entries of the destination file, if there is one. *)
Definition weechat_entries (weechat_path : str) (fs : gmap str str) : list entry :=
  match fs !! weechat_path with
  | Some text => omap parse_weechat_line (file_lines text)
  | None => []
  end.

(** The text that [process_file] writes to the destination, if it writes. *)
Definition merged_text (hexchat_basename : str) (fs : gmap str str) : option str :=
  match convert_lines (hexchat_lines SUBDIRS hexchat_basename fs) with
  | Ok hex =>
      if (length hex =? 0)%nat then None
      else Some (serialize (dedup (sort_entries
                   (hex ++ weechat_entries (weechat_path_of hexchat_basename) fs))))
  | Raise _ => None
  end.

(** The files after a write, if there was one. *)
Definition written (p : str) (text : option str) (fs : gmap str str) : gmap str str :=
  match text with
  | Some t => <[p := t]> fs
  | None => fs
  end.

(** ** Sample inputs *)

Definition CHAN_TXT : str := "#chan.txt".
Definition CHAN_HEXPATH : str := join (join HEXCHAT_DIR "1") CHAN_TXT.
Definition CHAN_LOG : str := join WEECHAT_DIR (hexchat_to_weechat_filename CHAN_TXT).

Definition ALICE_LINE : str :=
  "T 1700000000 <alice>" ++ [TAB] ++ "Hello" ++ [X03] ++ "(4world".

Definition BOB_LINE : str :=
  "2023-11-14 22:13:21" ++ [TAB] ++ "<bob>" ++ [TAB] ++ "Hi".

Definition TAB_SEPARATED_LINE : str :=
  "T 1700000000" ++ [TAB] ++ "<alice>" ++ [TAB] ++ "hello".

(** One source line, no destination file. *)
Definition ALICE_WORLD : world :=
  World {[ CHAN_HEXPATH := ALICE_LINE ++ [LF] ]} [].

(** The same source line twice, and a destination file. *)
Definition MERGE_WORLD : world :=
  World (<[ CHAN_HEXPATH := ALICE_LINE ++ [LF] ++ ALICE_LINE ++ [LF] ]>
           {[ CHAN_LOG := BOB_LINE ++ [LF] ]}) [].

(** A source file without any timestamped line, and a destination file. *)
Definition IDLE_WORLD : world :=
  World (<[ CHAN_HEXPATH := "**** BEGIN LOGGING" ++ [LF] ]>
           {[ CHAN_LOG := BOB_LINE ++ [LF] ]}) [].

Definition ALICE_ENTRY : entry :=
  (1700000000%Z,
   "2023-11-14 22:13:20" ++ [TAB] ++ "<alice>" ++ [TAB] ++ "Hello(4world").

Definition BOB_ENTRY : entry := (1700000001%Z, BOB_LINE).

Definition OTHER_TXT : str := "#other.txt".

(** Two source files of different names, and the destination of one. *)
Definition TWO_WORLD : world :=
  World (<[ join (join HEXCHAT_DIR "2") OTHER_TXT := ALICE_LINE ++ [LF] ]>
           (files MERGE_WORLD)) [].

(** * Properties *)

Arguments Ascii.eqb : simpl never.
Arguments nat_of_ascii : simpl never.

Ltac dlia := Z.div_mod_to_equations; lia.
Ltac decide_by_compute := apply (bool_decide_unpack _); vm_compute; exact I.

(** ** Lists *)

Lemma flat_map_nil {A B} (f : A → list B) l :
  (∀ x, x ∈ l → f x = []) → flat_map f l = [].
Proof.
  induction l as [|x l IH]; intros H; simpl; [done|].
  rewrite H by left. apply IH. intros y Hy. apply H. by right.
Qed.

Lemma flat_map_assoc {A B C} (f : A → list B) (g : B → list C) l :
  flat_map g (flat_map f l) = flat_map (λ x, flat_map g (f x)) l.
Proof.
  induction l as [|x l IH]; simpl; [done|]. by rewrite flat_map_app, IH.
Qed.

Lemma elem_of_flat_map {A B} (f : A → list B) l y :
  y ∈ flat_map f l ↔ ∃ x, x ∈ l ∧ y ∈ f x.
Proof.
  rewrite list_elem_of_In, in_flat_map.
  split; intros (x & H1 & H2); exists x; rewrite ?list_elem_of_In in *; done.
Qed.

Lemma existsb_elem {A} (p : A → bool) (l : list A) x :
  x ∈ l → p x = true → existsb p l = true.
Proof.
  intros Hin Hp. apply existsb_exists. exists x.
  split; [by apply list_elem_of_In|done].
Qed.

(** ** Strings *)

Lemma rstrip_nil_iff cs s : rstrip cs s = [] ↔ forallb (member cs) s = true.
Proof.
  induction s as [|c t IH]; simpl; [tauto|].
  destruct (rstrip cs t) eqn:E.
  - destruct (member cs c); simpl; [tauto|]. split; [done|]. done.
  - split; [done|]. intros [_ H]%andb_true_iff. apply IH in H. done.
Qed.

Lemma rstrip_prefix cs s : ∃ w, s = rstrip cs s ++ w ∧ forallb (member cs) w = true.
Proof.
  induction s as [|c t [w [Hw Hall]]]; simpl.
  - by exists [].
  - destruct (rstrip cs t) eqn:E.
    + destruct (member cs c) eqn:Hc.
      * exists (c :: t). split; [done|]. simpl. rewrite Hc. apply rstrip_nil_iff. done.
      * exists w. simpl in *. by rewrite Hw at 1.
    + exists w. simpl in *. by rewrite Hw at 1.
Qed.

Lemma rstrip_fixed cs s : (∀ c, last s = Some c → member cs c = false) → rstrip cs s = s.
Proof.
  induction s as [|c t IH]; simpl; [done|].
  intros H. destruct t as [|d t'].
  - simpl. rewrite H; done.
  - rewrite IH. 2:{ intros x Hx. apply H. simpl in *. done. } done.
Qed.

Lemma rstrip_app_strip cs s w : forallb (member cs) w = true → rstrip cs (s ++ w) = rstrip cs s.
Proof.
  intros Hw. induction s as [|c t IH]; simpl.
  - by apply rstrip_nil_iff.
  - by rewrite IH.
Qed.

Lemma rstrip_startswith_marker line :
  startswith "T " line = true → startswith "T " (rstrip [LF; CR] line) = true.
Proof.
  destruct line as [|a [|b t]]; simpl; try done.
  { rewrite andb_false_r. done. }
  rewrite andb_true_r.
  intros [Ha Hb]%andb_true_iff.
  apply Ascii.eqb_eq in Ha, Hb. subst a b.
  destruct (rstrip [LF; CR] t); done.
Qed.

Lemma disallowed_spec c :
  ord c < 32 → c ∉ [X03; X02; X0F; X16; X1D; X1F; X07; TAB; LF; CR] → disallowed c = true.
Proof.
  intros Hlt Hnot. unfold disallowed. apply andb_true_iff. split.
  - apply Nat.ltb_lt. done.
  - apply negb_true_iff. unfold member. apply not_true_iff_false. intros H.
    apply existsb_exists in H as [x [Hx He]]. apply Ascii.eqb_eq in He. subst x.
    apply Hnot. by apply list_elem_of_In.
Qed.

(** partition and split *)

Lemma partition_None sep s : partition sep s = None ↔ count_occ ascii_dec s sep = 0.
Proof.
  induction s as [|c t IH]; simpl; [done|].
  destruct (Ascii.eqb c sep) eqn:E.
  - apply Ascii.eqb_eq in E. subst. destruct (ascii_dec sep sep); [|done]. split; done.
  - apply Ascii.eqb_neq in E. destruct (ascii_dec c sep); [done|].
    destruct (partition sep t) as [[a b]|]; split; intros H; try done.
    + apply IH in H. done.
    + by apply IH.
Qed.

Lemma partition_Some sep s a b :
  partition sep s = Some (a, b) →
  s = a ++ sep :: b ∧ count_occ ascii_dec s sep = S (count_occ ascii_dec b sep).
Proof.
  revert a. induction s as [|c t IH]; simpl; intros a; [done|].
  destruct (Ascii.eqb c sep) eqn:E.
  - apply Ascii.eqb_eq in E. subst. intros [= <- <-]. destruct (ascii_dec sep sep); done.
  - apply Ascii.eqb_neq in E. destruct (partition sep t) as [[a' b']|]; [|done].
    intros [= <- <-]. destruct (IH a' eq_refl) as [-> Hc].
    destruct (ascii_dec c sep); [done|]. done.
Qed.

Lemma split_length sep n s :
  length (split sep n s) = S (Nat.min n (count_occ ascii_dec s sep)).
Proof.
  revert s. induction n as [|n IH]; intros s; simpl; [done|].
  destruct (partition sep s) as [[a b]|] eqn:E.
  - apply partition_Some in E as [_ ->]. simpl. by rewrite IH.
  - apply partition_None in E. rewrite E. done.
Qed.

Lemma no_break_snoc s c : no_break s → c ≠ LF → c ≠ CR → no_break (s ++ [c]).
Proof.
  intros [H1 H2] Hl Hr. split; intros [H|H]%elem_of_app; try done;
    apply list_elem_of_singleton in H; congruence.
Qed.

Lemma no_break_rstrip s : no_break s → rstrip [LF; CR] s = s.
Proof.
  intros [H1 H2]. apply rstrip_fixed. intros c Hc.
  assert (c ∈ s) as Hin.
  { apply last_Some in Hc as [l' ->]. apply elem_of_app. right. by apply list_elem_of_singleton. }
  unfold member. simpl. apply orb_false_iff. split; [|apply orb_false_iff; split; [|done]].
  - apply Ascii.eqb_neq. intros ->. done.
  - apply Ascii.eqb_neq. intros ->. done.
Qed.

(** Every line a file yields ends in one line feed after a text free of
    line breaks, but for a last line without any line break. *)

Lemma file_lines_from_shape s : ∀ cur line,
  no_break cur → line ∈ file_lines_from cur s →
  (∃ body, line = body ++ [LF] ∧ no_break body)
  ∨ (line ≠ [] ∧ no_break line ∧ last (file_lines_from cur s) = Some line).
Proof.
  induction s as [s IH] using (induction_ltof1 _ (@length ascii)). unfold ltof in IH.
  intros cur line Hcur. destruct s as [|c t]; simpl.
  - destruct cur as [|a cur']; [by intros ?%elem_of_nil|].
    intros ->%list_elem_of_singleton. right. done.
  - assert (∀ rest, length rest ≤ length t →
             line ∈ (cur ++ [LF]) :: file_lines_from [] rest →
             (∃ body, line = body ++ [LF] ∧ no_break body)
             ∨ (line ≠ [] ∧ no_break line
                ∧ last ((cur ++ [LF]) :: file_lines_from [] rest) = Some line)) as Hbreak.
    { intros rest Hlen [->|Hin]%elem_of_cons; [left; by exists cur|].
      destruct (IH rest ltac:(simpl; lia) [] line) as [H|(H1 & H2 & H3)]; [split; apply not_elem_of_nil|done|by left|].
      right. split; [done|]. split; [done|].
      destruct (file_lines_from [] rest); [done|]. done. }
    destruct (Ascii.eqb c LF) eqn:El; [apply Hbreak; lia|].
    destruct (Ascii.eqb c CR) eqn:Er.
    + destruct t as [|c' t']; [apply Hbreak; simpl; lia|].
      destruct (Ascii.eqb c' LF); apply Hbreak; simpl; lia.
    + apply Ascii.eqb_neq in El, Er. apply IH; [simpl; lia|]. by apply no_break_snoc.
Qed.

Lemma file_lines_shape text line :
  line ∈ file_lines text →
  (∃ body, line = body ++ [LF] ∧ no_break body)
  ∨ (line ≠ [] ∧ no_break line ∧ last (file_lines text) = Some line).
Proof. apply file_lines_from_shape. split; apply not_elem_of_nil. Qed.

Lemma rstrip_line_break body : no_break body → rstrip [LF; CR] (body ++ [LF]) = body.
Proof.
  intros H. rewrite rstrip_app_strip; [|done]. by apply no_break_rstrip.
Qed.

(** ** Dates *)

Section Dates.
Local Open Scope Z_scope.

Lemma month_day_table :
  forallb (month_day_ok false) (map Z.of_nat (seq 0 365)) = true
  ∧ forallb (month_day_ok true) (map Z.of_nat (seq 0 366)) = true.
Proof. vm_compute. done. Qed.

Lemma month_day_spec (n : Z) (leapyear : bool) :
  0 <= n < (if leapyear then 366 else 365) →
  month_day_ok leapyear n = true.
Proof.
  intros Hn. destruct month_day_table as [Hf Ht].
  assert (n = Z.of_nat (Z.to_nat n)) as -> by lia.
  destruct leapyear;
    [apply (proj1 (forallb_forall _ _) Ht)|apply (proj1 (forallb_forall _ _) Hf)];
    apply in_map, in_seq; lia.
Qed.

Lemma is_leap_cycle q c a b :
  0 <= c <= 3 → 0 <= a <= 24 → 0 <= b <= 3 →
  is_leap (q * 400 + 1 + c * 100 + a * 4 + b)
  = (b =? 3) && (negb (a =? 24) || (c =? 3)).
Proof.
  intros Hc Ha Hb. unfold is_leap.
  destruct (b =? 3) eqn:Eb, (a =? 24) eqn:Ea, (c =? 3) eqn:Ec; simpl;
    repeat match goal with
    | H : (_ =? _) = true |- _ => apply Z.eqb_eq in H
    | H : (_ =? _) = false |- _ => apply Z.eqb_neq in H
    end;
    repeat match goal with
    | |- context [?x mod ?k =? 0] =>
        let E := fresh "E" in
        destruct (x mod k =? 0) eqn:E;
        [apply Z.eqb_eq in E|apply Z.eqb_neq in E]
    end; simpl; try reflexivity; exfalso; dlia.
Qed.

Lemma days_before_year_cycle q c a b :
  0 <= c <= 3 → 0 <= a <= 24 → 0 <= b <= 3 →
  days_before_year (q * 400 + 1 + c * 100 + a * 4 + b)
  = q * 146097 + c * 36524 + a * 1461 + b * 365.
Proof. intros Hc Ha Hb. unfold days_before_year. dlia. Qed.

Lemma days_in_month_leap y y' m :
  is_leap y = is_leap y' → days_in_month y m = days_in_month y' m.
Proof. unfold days_in_month. by intros ->. Qed.

Lemma ord2ymd_spec n y m d :
  ord2ymd n = (y, m, d) →
  1 <= m <= 12 ∧ 1 <= d <= days_in_month y m ∧ ymd2ord y m d = n.
Proof.
  unfold ord2ymd, DI400Y, DI100Y, DI4Y.
  set (q := (n - 1) / 146097). set (r400 := (n - 1) mod 146097).
  set (c := r400 / 36524). set (r100 := r400 mod 36524).
  set (a := r100 / 1461). set (r4 := r100 mod 1461).
  set (b := r4 / 365). set (r1 := r4 mod 365).
  assert (n - 1 = q * 146097 + c * 36524 + a * 1461 + b * 365 + r1
          ∧ 0 <= c <= 4 ∧ 0 <= a <= 24 ∧ 0 <= b <= 4 ∧ 0 <= r1 < 365
          ∧ (c = 4 → a = 0 ∧ b = 0 ∧ r1 = 0)
          ∧ (b = 4 → r1 = 0 ∧ a <= 23)) as (Hn & Hc & Ha & Hb & Hr & Hc4 & Hb4).
  { subst q r400 c r100 a r4 b r1. dlia. }
  clearbody q c a b r1. clear r400 r100 r4.
  destruct ((b =? 4) || (c =? 4)) eqn:Hend.
  - intros [= <- <- <-]. split; [lia|]. split; [by vm_compute|].
    unfold ymd2ord, days_before_month.
    assert (∃ c' a', 0 <= c' <= 3 ∧ 0 <= a' <= 24 ∧ (a' ≠ 24 ∨ c' = 3)
              ∧ q * 400 + 1 + c * 100 + a * 4 + b - 1
                = q * 400 + 1 + c' * 100 + a' * 4 + 3
              ∧ n = q * 146097 + c' * 36524 + a' * 1461 + 3 * 365 + 366)
      as (c' & a' & Hc' & Ha' & Hleap & -> & ->).
    { apply orb_true_iff in Hend as [E|E]; apply Z.eqb_eq in E.
      - destruct (decide (c = 4)) as [E4|E4].
        + exists 3, 24. lia.
        + exists c, a. lia.
      - exists 3, 24. lia. }
    rewrite is_leap_cycle, days_before_year_cycle by lia.
    replace (3 =? 3) with true by done.
    replace (negb (a' =? 24) || (c' =? 3)) with true.
    { simpl. lia. }
    symmetry. apply orb_true_iff. destruct Hleap as [H|H].
    + left. apply negb_true_iff. by apply Z.eqb_neq.
    + right. by apply Z.eqb_eq.
  - apply orb_false_iff in Hend as [Eb Ec]. apply Z.eqb_neq in Eb, Ec.
    set (leapyear := (b =? 3) && (negb (a =? 24) || (c =? 3))).
    assert (is_leap (q * 400 + 1 + c * 100 + a * 4 + b) = leapyear) as Hleap.
    { apply is_leap_cycle; lia. }
    pose proof (month_day_spec r1 leapyear) as Hmd.
    destruct (month_day r1 leapyear) as [m' d'] eqn:Emd.
    intros [= <- <- <-].
    unfold month_day_ok in Hmd. rewrite Emd in Hmd.
    specialize (Hmd ltac:(destruct leapyear; lia)).
    repeat (apply andb_true_iff in Hmd as [Hmd ?]).
    repeat match goal with
    | H : (_ <=? _) = true |- _ => apply Z.leb_le in H
    | H : (_ =? _) = true |- _ => apply Z.eqb_eq in H
    end.
    split; [lia|]. split.
    + rewrite (days_in_month_leap _ (if leapyear then 4 else 1)); [lia|].
      rewrite Hleap. by destruct leapyear.
    + unfold ymd2ord, days_before_month. rewrite Hleap.
      rewrite days_before_year_cycle by lia. lia.
Qed.

Lemma digit_char_spec d :
  0 <= d <= 9 → is_digit (digit_char d) = true ∧ digit_value (digit_char d) = d.
Proof.
  intros H.
  assert (d = 0 ∨ d = 1 ∨ d = 2 ∨ d = 3 ∨ d = 4 ∨ d = 5 ∨ d = 6 ∨ d = 7
          ∨ d = 8 ∨ d = 9) as Hd by lia.
  repeat destruct Hd as [->|Hd]; try subst d; by vm_compute.
Qed.

Lemma zfill2_spec v :
  0 <= v <= 99 →
  ∃ a b, zfill2 v = [a; b] ∧ is_digit a = true ∧ is_digit b = true ∧ num2 a b = v.
Proof.
  intros Hv. unfold zfill2. eexists _, _. split; [done|].
  destruct (digit_char_spec (v / 10 mod 10)) as [-> Ea]; [dlia|].
  destruct (digit_char_spec (v mod 10)) as [-> Eb]; [dlia|].
  split; [done|]. split; [done|]. unfold num2. rewrite Ea, Eb. dlia.
Qed.

Lemma zfill4_spec v :
  0 <= v <= 9999 →
  ∃ a b c d, zfill4 v = [a; b; c; d]
    ∧ is_digit a = true ∧ is_digit b = true ∧ is_digit c = true ∧ is_digit d = true
    ∧ num4 a b c d = v.
Proof.
  intros Hv. unfold zfill4. eexists _, _, _, _. split; [done|].
  destruct (digit_char_spec (v / 1000 mod 10)) as [-> Ea]; [dlia|].
  destruct (digit_char_spec (v / 100 mod 10)) as [-> Eb]; [dlia|].
  destruct (digit_char_spec (v / 10 mod 10)) as [-> Ec]; [dlia|].
  destruct (digit_char_spec (v mod 10)) as [-> Ed]; [dlia|].
  repeat (split; [done|]). unfold num4. rewrite Ea, Eb, Ec, Ed. dlia.
Qed.

Lemma days_in_month_le y m : days_in_month y m <= 31.
Proof.
  unfold days_in_month.
  repeat match goal with |- context [if ?b then _ else _] => destruct b end; lia.
Qed.

Lemma strftime_length dt : length (strftime dt) = 19%nat.
Proof. done. Qed.

Lemma strptime_strftime dt :
  valid_datetime dt = true → strptime (strftime dt) = Ok dt.
Proof.
  intros Hv. pose proof Hv as Hv'. unfold valid_datetime in Hv'.
  repeat (apply andb_true_iff in Hv' as [Hv' ?]).
  repeat match goal with
  | H : (_ <=? _) = true |- _ => apply Z.leb_le in H
  end.
  pose proof (days_in_month_le (year dt) (month dt)).
  unfold MINYEAR, MAXYEAR in *.
  destruct (zfill4_spec (year dt)) as (y1 & y2 & y3 & y4 & Ey & ? & ? & ? & ? & Hy); [lia|].
  destruct (zfill2_spec (month dt)) as (m1 & m2 & Em & ? & ? & Hm); [lia|].
  destruct (zfill2_spec (day dt)) as (d1 & d2 & Ed & ? & ? & Hd); [lia|].
  destruct (zfill2_spec (hour dt)) as (h1 & h2 & EH & ? & ? & HH); [lia|].
  destruct (zfill2_spec (minute dt)) as (n1 & n2 & EM & ? & ? & HM); [lia|].
  destruct (zfill2_spec (second dt)) as (s1 & s2 & ES & ? & ? & HS); [lia|].
  unfold strftime. rewrite Ey, Em, Ed, EH, EM, ES. cbn [app list_ascii_of_string].
  unfold strptime. rewrite Hy, Hm, Hd, HH, HM, HS.
  replace (mk_datetime _ _ _ _ _ _) with dt by (by destruct dt).
  rewrite Hv. cbn [forallb].
  repeat match goal with H : is_digit _ = true |- _ => rewrite H; clear H end.
  done.
Qed.

Lemma fromtimestamp_spec ts dt :
  fromtimestamp ts = Ok dt → valid_datetime dt = true ∧ timestamp dt = ts.
Proof.
  unfold fromtimestamp.
  destruct (ord2ymd (ts / 86400 + EPOCH_ORD)) as [[y m] d] eqn:E.
  apply ord2ymd_spec in E as (Hm & Hd & Hord).
  destruct ((MINYEAR <=? y) && (y <=? MAXYEAR)) eqn:Hy; [|done].
  intros [= <-]. split.
  - unfold valid_datetime. cbn [year month day hour minute second].
    apply andb_true_iff in Hy as [Hy1 Hy2]. rewrite Hy1, Hy2. cbn [andb].
    repeat (apply andb_true_iff; split); apply Z.leb_le; try lia; dlia.
  - unfold timestamp. cbn [year month day hour minute second]. rewrite Hord. dlia.
Qed.

(** The timestamp a destination line's header denotes. *)

Lemma header_timestamp_strftime ts dt rest :
  fromtimestamp ts = Ok dt → header_timestamp (strftime dt ++ rest) = Some ts.
Proof.
  intros [Hv Hts]%fromtimestamp_spec. unfold header_timestamp.
  rewrite (take_app_length' (strftime dt) rest 19 (strftime_length dt)).
  by rewrite strptime_strftime, Hts.
Qed.

End Dates.

(** ** The matcher *)

Lemma rmatch_rseq_cons r rs st :
  rmatch (rseq (r :: rs)) st = flat_map (rmatch (rseq rs)) (rmatch r st).
Proof. done. Qed.

Lemma rmatch_rseq_app l1 l2 st :
  rmatch (rseq (l1 ++ l2)) st = flat_map (rmatch (rseq l2)) (rmatch (rseq l1) st).
Proof.
  revert st. induction l1 as [|r l1 IH]; intros st.
  - simpl. by rewrite app_nil_r.
  - rewrite <- app_comm_cons, !rmatch_rseq_cons, flat_map_assoc.
    apply flat_map_ext. intros s. apply IH.
Qed.

(** The words a pattern can consume (anchors consume nothing). *)

Lemma star_loop_sound r fuel :
  (∀ st st', st' ∈ rmatch r st → ∃ w, rlang r w ∧ consumed w st st') →
  ∀ st st', st' ∈ star_loop (rmatch r) fuel st →
  ∃ w, rlang (RStar r) w ∧ consumed w st st'.
Proof.
  intros Hr. induction fuel as [|fuel IH]; intros st st'; simpl.
  - intros ->%list_elem_of_singleton. exists []. split; [constructor|]. split; [done|]. simpl. lia.
  - intros [H| ->%list_elem_of_singleton]%elem_of_app.
    2:{ exists []. split; [constructor|]. split; [done|]. simpl. lia. }
    apply elem_of_flat_map in H as (s1 & H1 & H2).
    destruct (shorter s1 st); [|by apply elem_of_nil in H2].
    apply Hr in H1 as (w1 & L1 & E1 & P1). apply IH in H2 as (w2 & L2 & E2 & P2).
    exists (w1 ++ w2). split; [by constructor|]. split.
    + by rewrite E1, E2, app_assoc.
    + rewrite length_app. lia.
Qed.

Lemma rmatch_sound r : ∀ st st',
  st' ∈ rmatch r st → ∃ w, rlang r w ∧ consumed w st st'.
Proof.
  induction r as [p|r IH|r IH|i r IH| | | |r1 IH1 r2 IH2]; intros st st'; simpl.
  - unfold step_char. destruct (m_rest st) as [|c t] eqn:E; [by intros ?%elem_of_nil|].
    destruct (p c) eqn:Hp; [|by intros ?%elem_of_nil].
    intros ->%list_elem_of_singleton. exists [c]. split; [by constructor|].
    split; simpl; [done|lia].
  - intros [H| ->%list_elem_of_singleton]%elem_of_app.
    + apply IH in H as (w & L & C). exists w. split; [by apply L_opt_some|done].
    + exists []. split; [apply L_opt_none|]. split; simpl; [done|lia].
  - by apply star_loop_sound.
  - intros (s1 & -> & H)%list_elem_of_fmap. apply IH in H as (w & L & C).
    exists w. split; [by constructor|done].
  - destruct (m_pos st =? 0)%nat; [|by intros ?%elem_of_nil].
    intros ->%list_elem_of_singleton. exists []. split; [constructor|]. split; simpl; [done|lia].
  - destruct (at_eol st); [|by intros ?%elem_of_nil].
    intros ->%list_elem_of_singleton. exists []. split; [constructor|]. split; simpl; [done|lia].
  - intros ->%list_elem_of_singleton. exists []. split; [constructor|]. split; simpl; [done|lia].
  - intros (s1 & H1 & H2)%elem_of_flat_map.
    apply IH1 in H1 as (w1 & L1 & E1 & P1). apply IH2 in H2 as (w2 & L2 & E2 & P2).
    exists (w1 ++ w2). split; [by constructor|]. split.
    + by rewrite E1, E2, app_assoc.
    + rewrite length_app. lia.
Qed.

Lemma rmatch_suffix r st st' : st' ∈ rmatch r st → ∃ w, m_rest st = w ++ m_rest st'.
Proof. intros (w & _ & E & _)%rmatch_sound. by exists w. Qed.

Lemma rlang_star_class p w : rlang (RStar (RChar p)) w → Forall (λ c, p c = true) w.
Proof.
  remember (RStar (RChar p)) as r eqn:Er. induction 1 as [| | | |r0 w1 w2 H1 _ H2 IH| | | | |];
    try discriminate Er.
  - constructor.
  - injection Er as ->. inversion H1; subst. constructor; [done|]. by apply IH.
Qed.

Lemma rlang_plus_class p w :
  rlang (RPlus (RChar p)) w → w ≠ [] ∧ Forall (λ c, p c = true) w.
Proof.
  unfold RPlus. inversion 1 as [| | | | | | | | |? ? w1 w2 H1 H2]; subst.
  inversion H1; subst. apply rlang_star_class in H2. split; [done|]. by constructor.
Qed.

(** A run of one-character patterns. *)

Lemma advance_0 st : advance 0 st = st.
Proof. destruct st. unfold advance. simpl. by rewrite Nat.add_0_r. Qed.

Lemma advance_S n pos c t caps :
  advance n (MState (S pos) t caps) = advance (S n) (MState pos (c :: t) caps).
Proof. unfold advance. simpl. f_equal. lia. Qed.

Lemma rmatch_classes ps st :
  rmatch (rseq (map RChar ps)) st
  = if classes_ok ps (m_rest st) then [advance (length ps) st] else [].
Proof.
  revert st. induction ps as [|p ps IH]; intros [pos rest caps].
  - simpl. by rewrite advance_0.
  - cbn [map]. rewrite rmatch_rseq_cons. cbn [rmatch]. unfold step_char. cbn [m_rest m_pos m_caps].
    destruct rest as [|c t]; [done|]. cbn [classes_ok].
    destruct (p c); [|done]. cbn [flat_map andb]. rewrite app_nil_r, IH. cbn [m_rest].
    destruct (classes_ok ps t); [|done]. cbn [length]. by rewrite (advance_S _ _ c).
Qed.

(** The destination header pattern. *)

Lemma re_match_weechat line m :
  re_match WEECHAT_RE line = Some m → group 1 m = take 19 line.
Proof.
  unfold re_match, WEECHAT_RE. rewrite rmatch_rseq_cons. cbn [rmatch start m_pos Nat.eqb flat_map].
  rewrite app_nil_r, rmatch_rseq_cons. cbn [rmatch].
  change (rseq [RChar is_digit; RChar is_digit; RChar is_digit; RChar is_digit; RLit "-";
                RChar is_digit; RChar is_digit; RLit "-"; RChar is_digit; RChar is_digit;
                RLit " "; RChar is_digit; RChar is_digit; RLit ":"; RChar is_digit;
                RChar is_digit; RLit ":"; RChar is_digit; RChar is_digit])
    with (rseq (map RChar HEADER_CLASSES)).
  rewrite rmatch_classes. unfold start at 2. cbn [m_rest].
  destruct (classes_ok HEADER_CLASSES line) eqn:Hc; cbn [map flat_map]; [|done].
  rewrite app_nil_r.
  change (rmatch (rseq [RLit TAB])) with (λ st, flat_map (rmatch REps) (step_char (is_char TAB) st)).
  cbv beta. unfold step_char, start.
  cbn [advance set_group m_rest m_pos m_caps length HEADER_CLASSES Nat.add Nat.sub].
  destruct (drop 19 line) as [|c t]; [done|].
  destruct (is_char TAB c); cbn [flat_map rmatch app head]; [|done]. by intros [= <-].
Qed.

(** ** Sorting and deduplication *)

Lemma insert_entry_perm e l : insert_entry e l ≡ₚ e :: l.
Proof.
  induction l as [|x t IH]; simpl; [done|].
  destruct (fst e <=? fst x)%Z; [done|].
  rewrite IH. apply Permutation_swap.
Qed.

Lemma sort_entries_perm l : sort_entries l ≡ₚ l.
Proof.
  induction l as [|e l IH]; simpl; [done|].
  rewrite insert_entry_perm. by rewrite IH.
Qed.

Lemma insert_entry_sorted e l :
  StronglySorted ts_le l → StronglySorted ts_le (insert_entry e l).
Proof.
  induction 1 as [|x t Ht IH Hx]; simpl.
  - repeat constructor.
  - destruct (fst e <=? fst x)%Z eqn:E.
    + apply Z.leb_le in E. constructor; [by constructor|].
      constructor; [done|]. eapply Forall_impl; [exact Hx|].
      intros y Hy. unfold ts_le in *. lia.
    + apply Z.leb_gt in E. constructor; [done|].
      rewrite insert_entry_perm. constructor; [|done]. unfold ts_le. lia.
Qed.

Lemma sort_entries_sorted l : StronglySorted ts_le (sort_entries l).
Proof.
  induction l as [|e l IH]; simpl; [constructor|]. by apply insert_entry_sorted.
Qed.

Lemma insert_entry_filter t e l :
  filter (has_ts t) (insert_entry e l) = filter (has_ts t) (e :: l).
Proof.
  induction l as [|x l IH]; simpl; [done|].
  destruct (fst e <=? fst x)%Z eqn:E; [done|]. apply Z.leb_gt in E.
  rewrite (filter_cons _ x), IH, !filter_cons.
  destruct (decide (has_ts t x)) as [Hx|Hx], (decide (has_ts t e)) as [He|He];
    try done.
  unfold has_ts in *. lia.
Qed.

Lemma sort_entries_filter t l :
  filter (has_ts t) (sort_entries l) = filter (has_ts t) l.
Proof.
  induction l as [|e l IH]; simpl; [done|].
  by rewrite insert_entry_filter, !filter_cons, IH.
Qed.

(** [a] stands before [b] in [l]. *)

Lemma before_sublist a b l : [a; b] `sublist_of` l → before a b l.
Proof.
  intros (l1 & k & -> & H)%sublist_cons_l.
  apply sublist_cons_l in H as (l2 & l3 & -> & _). by exists l1, l2, l3.
Qed.

Lemma sublist_pair a b (l1 l2 : list entry) : a ∈ l1 → b ∈ l2 → [a; b] `sublist_of` l1 ++ l2.
Proof.
  intros Ha Hb. change [a; b] with ([a] ++ [b]).
  apply sublist_app; by apply singleton_sublist_l.
Qed.

(** A list sorted by timestamp is determined by its entries of each
    timestamp, taken in order: a stable sort has one possible result. *)

Lemma stable_sort_unique (l1 l2 : list entry) :
  StronglySorted ts_le l1 → StronglySorted ts_le l2 →
  (∀ t, filter (has_ts t) l1 = filter (has_ts t) l2) → l1 = l2.
Proof.
  intros H1. revert l2. induction H1 as [|x l1 Hs1 IH Hx]; intros l2 H2 Hf.
  - destruct l2 as [|y l2]; [done|].
    specialize (Hf (fst y)). rewrite filter_cons_True in Hf; done.
  - assert (∀ a l, StronglySorted ts_le (a :: l) → ∀ b k,
              filter (has_ts (fst a)) (a :: l) = filter (has_ts (fst a)) (b :: k) →
              StronglySorted ts_le (b :: k) → (fst b ≤ fst a)%Z) as Hhead.
    { intros a l Ha b k Hab Hb. rewrite filter_cons_True in Hab by done.
      assert (a ∈ filter (has_ts (fst a)) (b :: k)) as Hin by (rewrite <- Hab; left).
      apply list_elem_of_filter in Hin as [_ Hin].
      apply StronglySorted_inv in Hb as [_ Hb].
      apply elem_of_cons in Hin as [->|Hin]; [done|].
      rewrite Forall_forall in Hb. by apply Hb. }
    destruct l2 as [|y l2].
    { specialize (Hf (fst x)). rewrite filter_cons_True in Hf; done. }
    assert (fst y = fst x) as Hyx.
    { apply Z.le_antisymm.
      - eapply (Hhead x l1); [by constructor|apply Hf|done].
      - eapply (Hhead y l2); [done|symmetry; apply Hf|by constructor]. }
    pose proof (Hf (fst x)) as Hfx.
    rewrite !filter_cons_True in Hfx by done. injection Hfx as <- Hfx.
    f_equal. apply IH.
    + by apply StronglySorted_inv in H2 as [? _].
    + intros t. specialize (Hf t). rewrite !filter_cons in Hf.
      destruct (decide (has_ts t x)); [by injection Hf|done].
Qed.

Lemma dedup_state l :
  fold_left dedup_step l ([], None)
  = (dedup l, last l).
Proof.
  unfold dedup. induction l as [|e l IH] using rev_ind; [done|].
  rewrite fold_left_app. simpl. rewrite IH. simpl.
  rewrite last_snoc. done.
Qed.

Lemma dedup_snoc l e :
  dedup (l ++ [e]) = if bool_decide (Some e ≠ last l) then dedup l ++ [e] else dedup l.
Proof.
  unfold dedup at 1. rewrite fold_left_app, dedup_state. done.
Qed.

Lemma dedup_last l : last (dedup l) = last l.
Proof.
  induction l as [|e l IH] using rev_ind; [done|].
  rewrite dedup_snoc, !last_snoc. case_bool_decide as H; [by rewrite last_snoc|].
  rewrite IH. destruct (decide (Some e = last l)); [done|]. done.
Qed.

Lemma dedup_dropped_iff l e :
  dedup (l ++ [e]) = dedup l ↔ last (dedup l) = Some e.
Proof.
  rewrite dedup_snoc, dedup_last. case_bool_decide as H.
  - split.
    + intros Heq. apply (f_equal length) in Heq. rewrite length_app in Heq. simpl in Heq. lia.
    + intros Heq. by rewrite Heq in H.
  - split; [|done]. intros _. destruct (decide (Some e = last l)); [done|]. done.
Qed.

(** ** File system accesses *)

Section Quiet.
Context (P : event → Prop).

Lemma quiet_ret {A} (a : A) : quiet P (ret a).
Proof. intros [f t]. exists []. done. Qed.

Lemma quiet_lift {A} (r : result A) : quiet P (lift r).
Proof. intros [f t]. exists []. done. Qed.

Lemma quiet_bind {A B} (m : M A) (k : A → M B) :
  quiet P m → (∀ a, quiet P (k a)) → quiet P (bind m k).
Proof.
  intros Hm Hk w. unfold bind. destruct (Hm w) as (n1 & E1 & F1).
  destruct (m w) as [[a|e] w1]; simpl in E1; subst w1.
  - destruct (Hk a (World (files w) (n1 ++ trace w))) as (n2 & E2 & F2).
    exists (n2 ++ n1). rewrite E2. simpl. rewrite <- app_assoc.
    split; [done|]. by apply Forall_app.
  - by exists n1.
Qed.

Lemma quiet_path_exists p : P (EvExists p) → quiet P (path_exists p).
Proof. intros Hp w. exists [EvExists p]. split; [done|]. by constructor. Qed.

Lemma quiet_read_lines p : P (EvRead p) → quiet P (read_lines p).
Proof.
  intros Hp w. exists [EvRead p]. unfold read_lines.
  destruct (files w !! p); (split; [done|by constructor]).
Qed.

Lemma quiet_read_hexchat subdirs basename :
  (∀ subdir, subdir ∈ subdirs →
     let hexpath := join (join HEXCHAT_DIR subdir) basename in
     P (EvExists hexpath) ∧ P (EvRead hexpath)) →
  quiet P (read_hexchat subdirs basename).
Proof.
  induction subdirs as [|subdir rest IH]; intros HP; simpl.
  - apply quiet_ret.
  - destruct (HP subdir) as [He Hr]; [by left|].
    apply quiet_bind; [by apply quiet_path_exists|]. intros found.
    apply quiet_bind.
    { destruct found; [|apply quiet_ret].
      apply quiet_bind; [by apply quiet_read_lines|]. intros lines. apply quiet_lift. }
    intros here. apply quiet_bind; [|intros; apply quiet_ret].
    apply IH. intros s Hs. apply HP. by right.
Qed.
End Quiet.

Lemma hexchat_path_not_weechat subdir basename name :
  join (join HEXCHAT_DIR subdir) basename ≠ join WEECHAT_DIR name.
Proof. unfold join, HEXCHAT_DIR, WEECHAT_DIR. simpl. intros H. discriminate H. Qed.

(** ** Entries carry the timestamp of their line *)

Lemma parse_weechat_line_stored line e :
  parse_weechat_line line = Some e → snd e = rstrip [LF; CR] line.
Proof.
  unfold parse_weechat_line. destruct (rstrip [LF; CR] line) as [|a l]; [done|].
  destruct (re_match WEECHAT_RE (a :: l)); [|done].
  destruct (strptime _); [|done]. by intros [= <-].
Qed.

Lemma parse_weechat_line_wf line e : parse_weechat_line line = Some e → wf_entry e.
Proof.
  unfold parse_weechat_line. destruct (rstrip [LF; CR] line) as [|a l]; [done|].
  destruct (re_match WEECHAT_RE (a :: l)) as [m|] eqn:Hm; [|done].
  apply re_match_weechat in Hm. rewrite Hm.
  destruct (strptime (take 19 (a :: l))) as [dt|] eqn:Hdt; [|done].
  intros [= <-]. unfold wf_entry, header_timestamp. simpl fst. simpl snd. by rewrite Hdt.
Qed.

Lemma parse_hexchat_line_wf line r :
  parse_hexchat_line line = Ok (Some r) → wf_entry (format_entry r).
Proof.
  unfold parse_hexchat_line.
  destruct (negb _); [done|]. destruct (existsb _ _); [done|].
  destruct (_ <? 3)%nat; [done|].
  destruct (int _) as [ts|[]]; try done.
  destruct (fromtimestamp ts) as [dt|] eqn:Hdt; [|done]. cbn [rbind].
  destruct (classify_message _) as [p m]. intros [= <-].
  unfold wf_entry, format_entry. cbn [fst snd].
  by apply header_timestamp_strftime.
Qed.

Lemma convert_lines_wf lines entries :
  convert_lines lines = Ok entries → Forall wf_entry entries.
Proof.
  revert entries. induction lines as [|line rest IH]; intros entries; simpl.
  - by intros [= <-].
  - destruct (parse_hexchat_line line) as [r|] eqn:Hr; [|done]. cbn [rbind].
    destruct (convert_lines rest) as [es|]; [|done]. cbn [rbind].
    intros [= <-]. specialize (IH es eq_refl).
    destruct r as [r|]; [|done]. constructor; [|done].
    by apply parse_hexchat_line_wf in Hr.
Qed.

Lemma read_hexchat_wf subdirs basename w entries :
  fst (read_hexchat subdirs basename w) = Ok entries → Forall wf_entry entries.
Proof.
  revert w entries. induction subdirs as [|subdir rest IH]; intros w entries; simpl.
  - by intros [= <-].
  - unfold bind at 1. unfold path_exists at 1.
    set (w1 := emit _ w). clearbody w1.
    destruct (bool_decide _).
    + unfold bind at 1. unfold bind at 1. unfold read_lines.
      destruct (files w1 !! _) as [text|]; [|done].
      unfold lift. destruct (convert_lines (file_lines text)) as [here|] eqn:Hh; [|done].
      unfold bind at 1. specialize (IH (emit (EvRead (join (join HEXCHAT_DIR subdir) basename)) w1)).
      destruct (read_hexchat rest basename _) as [[there|] w2]; [|done].
      cbn. intros [= <-]. apply Forall_app. split; [by eapply convert_lines_wf|by apply IH].
    + unfold bind at 1. unfold ret at 1. unfold bind at 1.
      specialize (IH w1).
      destruct (read_hexchat rest basename w1) as [[there|] w2]; [|done].
      cbn. intros [= <-]. by apply IH.
Qed.

Lemma read_weechat_wf path w entries :
  fst (read_weechat path w) = Ok entries → Forall wf_entry entries.
Proof.
  unfold read_weechat, bind, path_exists. destruct (bool_decide _).
  - unfold read_lines. destruct (files _ !! path) as [text|]; [|done].
    cbn. intros [= <-]. apply Forall_forall. intros e He.
    apply list_elem_of_omap in He as (line & _ & He). by eapply parse_weechat_line_wf.
  - cbn. intros [= <-]. constructor.
Qed.

Lemma wf_entry_line_inj a b : wf_entry a → wf_entry b → snd a = snd b → a = b.
Proof.
  unfold wf_entry. destruct a as [ta la], b as [tb lb]. cbn [fst snd].
  intros Ha Hb ->. rewrite Ha in Hb. by injection Hb as ->.
Qed.

Lemma dedup_dropped_line_iff l e :
  Forall wf_entry (l ++ [e]) →
  dedup (l ++ [e]) = dedup l ↔ ∃ p, last (dedup l) = Some p ∧ snd p = snd e.
Proof.
  intros Hwf. rewrite dedup_dropped_iff. split.
  - intros H. exists e. split; [exact H|reflexivity].
  - intros (p & Hp & Hline). rewrite Hp. f_equal.
    apply Forall_app in Hwf as [Hl He]. rewrite Forall_singleton in He.
    apply wf_entry_line_inj; [|done|done].
    rewrite dedup_last in Hp. apply last_Some in Hp as [l' ->].
    apply Forall_app in Hl as [_ Hl]. by rewrite Forall_singleton in Hl.
Qed.

(** ** Substitution *)

Lemma match_len_char p pos c t :
  match_len (RChar p) pos (c :: t) = if p c then Some 1 else None.
Proof.
  unfold match_len. cbn [rmatch]. unfold step_char. cbn [m_rest m_pos m_caps].
  destruct (p c); [|done]. cbn [head m_pos]. f_equal. lia.
Qed.

Lemma re_sub_from_char p pos s :
  re_sub_from (RChar p) pos 0 s = List.filter (λ c, negb (p c)) s.
Proof.
  revert pos. induction s as [|c t IH]; intros pos; [done|].
  cbn [re_sub_from List.filter]. rewrite match_len_char.
  destruct (p c); cbn [negb]; by rewrite IH.
Qed.

Lemma rlang_color w :
  rlang COLOR_RE w → ∃ w', w = X03 :: w' ∧ forallb color_param w' = true.
Proof.
  unfold COLOR_RE, rseq, ROneTwo, RLit. cbn [foldr].
  intros H.
  repeat match goal with
  | H : rlang (RSeq _ _) _ |- _ => inversion H; subst; clear H
  | H : rlang (RChar _) _ |- _ => inversion H; subst; clear H
  | H : rlang REps _ |- _ => inversion H; subst; clear H
  | H : rlang (ROpt _) _ |- _ => inversion H; subst; clear H
  end;
  repeat match goal with
  | H : is_char _ _ = true |- _ => apply Ascii.eqb_eq in H; subst
  end;
  (eexists; split; [reflexivity|]); cbn [app forallb]; unfold color_param;
  repeat match goal with
  | H : is_digit _ = true |- _ => rewrite H; clear H
  end; reflexivity.
Qed.

Lemma color_no_match pos c t : c ≠ X03 → match_len COLOR_RE pos (c :: t) = None.
Proof.
  intros Hc. unfold match_len, COLOR_RE. rewrite rmatch_rseq_cons.
  cbn [rmatch RLit]. unfold step_char. cbn [m_rest].
  replace (is_char X03 c) with false; [done|].
  symmetry. apply Ascii.eqb_neq. congruence.
Qed.

Lemma flat_map_eps l : flat_map (rmatch REps) l = l.
Proof. induction l as [|x l IH]; [done|]. cbn [flat_map]. by rewrite IH. Qed.

Lemma color_match pos t :
  ∃ w' rest, match_len COLOR_RE pos (X03 :: t) = Some (S (length w'))
    ∧ t = w' ++ rest ∧ forallb color_param w' = true.
Proof.
  unfold match_len.
  destruct (head (rmatch COLOR_RE (MState pos (X03 :: t) []))) as [st'|] eqn:Hh.
  - assert (st' ∈ rmatch COLOR_RE (MState pos (X03 :: t) [])) as Hin.
    { destruct (rmatch COLOR_RE _) as [|x l]; [done|]. injection Hh as ->. left. }
    apply rmatch_sound in Hin as (w & Hl & Hrest & Hpos).
    apply rlang_color in Hl as (w' & -> & Hw). cbn [m_rest m_pos] in *.
    injection Hrest as Hrest. exists w', (m_rest st'). split; [|done].
    f_equal. cbn [length] in Hpos. lia.
  - exfalso. unfold COLOR_RE in Hh. rewrite rmatch_rseq_cons in Hh.
    cbn [rmatch RLit] in Hh. unfold step_char in Hh. cbn [m_rest m_pos m_caps] in Hh.
    replace (is_char X03 X03) with true in Hh by done.
    cbn [flat_map] in Hh. rewrite app_nil_r in Hh.
    rewrite rmatch_rseq_cons in Hh. cbn [rseq foldr] in Hh. rewrite flat_map_eps in Hh.
    cbn [rmatch] in Hh. destruct (flat_map _ _) in Hh; done.
Qed.

Lemma color_param_not_toggle c : color_param c = true → is_toggle c = false ∧ c ≠ X03.
Proof.
  unfold color_param, is_toggle, is_digit, is_char, member, TOGGLES. cbn [existsb].
  intros H. split.
  - repeat (apply orb_false_iff; split); try done; apply Ascii.eqb_neq; intros ->; by vm_compute in H.
  - intros ->. by vm_compute in H.
Qed.

Lemma re_sub_color_no_x03 s : ∀ pos skip, X03 ∉ re_sub_from COLOR_RE pos skip s.
Proof.
  induction s as [|c t IH]; intros pos skip; cbn [re_sub_from]; [apply not_elem_of_nil|].
  destruct skip as [|k]; [|apply IH].
  destruct (decide (c = X03)) as [->|Hc].
  - destruct (color_match pos t) as (w' & rest & -> & _). apply IH.
  - rewrite color_no_match by done. apply not_elem_of_cons. split; [congruence|apply IH].
Qed.

Lemma re_sub_color_toggles s : ∀ pos skip,
  forallb color_param (take skip s) = true →
  List.filter is_toggle (re_sub_from COLOR_RE pos skip s) = List.filter is_toggle s.
Proof.
  induction s as [|c t IH]; intros pos skip Hskip; cbn [re_sub_from]; [done|].
  destruct skip as [|k].
  - destruct (decide (c = X03)) as [->|Hc].
    + destruct (color_match pos t) as (w' & rest & -> & -> & Hw).
      rewrite IH by (by rewrite take_app_length). done.
    + rewrite color_no_match by done. cbn [List.filter].
      rewrite (IH _ 0) by done. done.
  - cbn [take forallb] in Hskip. apply andb_true_iff in Hskip as [Hc Hk].
    apply color_param_not_toggle in Hc as [Hc _].
    cbn [List.filter]. rewrite Hc. by apply IH.
Qed.

Lemma re_sub_color_id s : ∀ pos, X03 ∉ s → re_sub_from COLOR_RE pos 0 s = s.
Proof.
  induction s as [|c t IH]; intros pos Hs; cbn [re_sub_from]; [done|].
  apply not_elem_of_cons in Hs as [Hc Ht].
  rewrite color_no_match by congruence. by rewrite IH.
Qed.

Lemma filter_elem_of (p : ascii → bool) s c : c ∈ List.filter p s ↔ c ∈ s ∧ p c = true.
Proof. by rewrite !list_elem_of_In, filter_In. Qed.

Lemma filter_idem (p : ascii → bool) s : List.filter p (List.filter p s) = List.filter p s.
Proof.
  induction s as [|c t IH]; [done|]. cbn [List.filter].
  destruct (p c) eqn:E; [|done]. cbn [List.filter]. by rewrite E, IH.
Qed.

(** ** The classification patterns *)

Lemma last_tab_only (body w t : str) :
  TAB ∉ body → body ++ [TAB] = w ++ TAB :: t → t = [] ∧ w = body.
Proof.
  revert w. induction body as [|b body IH]; intros w Hb; simpl.
  - destruct w as [|c w]; simpl; [by intros [= <-]|].
    intros [= _ H]. by destruct w.
  - apply not_elem_of_cons in Hb as [Hb1 Hb2].
    destruct w as [|c w]; simpl; [by intros [= -> _]|].
    intros [= <- H]. destruct (IH w Hb2 H) as [-> ->]. done.
Qed.

Lemma tab_payload_none g st :
  (∀ t, m_rest st = TAB :: t → t = []) → rmatch (rseq (TAB_PAYLOAD g)) st = [].
Proof.
  intros Hst. unfold TAB_PAYLOAD. rewrite rmatch_rseq_cons.
  cbn [rmatch RLit]. unfold step_char.
  destruct (m_rest st) as [|c t] eqn:E; [done|].
  destruct (is_char TAB c) eqn:Hc; [|done].
  apply Ascii.eqb_eq in Hc. subst c. rewrite (Hst t eq_refl). done.
Qed.

Lemma tab_payload_fails pre g body :
  TAB ∉ body → re_match (rseq (pre ++ TAB_PAYLOAD g)) (body ++ [TAB]) = None.
Proof.
  intros Hb. unfold re_match. rewrite rmatch_rseq_app, flat_map_nil; [done|].
  intros s1 [w Hw]%rmatch_suffix. apply tab_payload_none. intros t Ht.
  cbn [start m_rest] in Hw. rewrite Ht in Hw.
  by destruct (last_tab_only _ _ _ Hb Hw).
Qed.

Lemma step_char_cons p pos c t caps :
  step_char p (MState pos (c :: t) caps)
  = if p c then [MState (S pos) t caps] else [].
Proof. done. Qed.

Lemma rmatch_plus_char p st :
  rmatch (RPlus (RChar p)) st
  = flat_map (λ s, star_loop (step_char p) (length (m_rest s)) s) (step_char p st).
Proof. done. Qed.

Lemma star_class_then p (K : mstate → list mstate) x : ∀ st fuel c rest,
  Forall (λ a, p a = true) x → p c = false →
  m_rest st = x ++ c :: rest → length (m_rest st) ≤ fuel →
  (∀ s a t, m_rest s = a :: t → p a = true → K s = []) →
  flat_map K (star_loop (step_char p) fuel st) = K (advance (length x) st).
Proof.
  induction x as [|a x IH]; intros [pos r caps] fuel c rest Hx Hc Hr Hf HK;
    cbn [m_rest] in Hr; subst r; cbn [m_rest length] in Hf.
  - destruct fuel as [|fuel]; [simpl in Hf; lia|].
    cbn [star_loop app]. rewrite step_char_cons, Hc.
    cbn [flat_map app length]. by rewrite app_nil_r, advance_0.
  - destruct fuel as [|fuel]; [simpl in Hf; lia|].
    apply Forall_cons in Hx as [Ha Hx].
    cbn [star_loop app]. rewrite step_char_cons, Ha.
    cbn [flat_map]. unfold shorter at 1. cbn [m_rest length].
    replace (length (x ++ c :: rest) <? S (length (x ++ c :: rest)))%nat with true
      by (symmetry; apply Nat.ltb_lt; lia).
    rewrite app_nil_r, flat_map_app. cbn [flat_map].
    rewrite (HK (MState pos (a :: x ++ c :: rest) caps) a (x ++ c :: rest) eq_refl Ha).
    rewrite !app_nil_r.
    rewrite (IH (MState (S pos) (x ++ c :: rest) caps) fuel c rest Hx Hc eq_refl);
      [|simpl in *; lia|done].
    cbn [length]. by rewrite (advance_S _ _ a).
Qed.

Lemma flat_map_map {A B C} (f : A → B) (g : B → list C) l :
  flat_map g (map f l) = flat_map (λ x, g (f x)) l.
Proof. induction l as [|x l IH]; [done|]. simpl. by rewrite IH. Qed.

Lemma group_plus_then i p c rs st x rest :
  x ≠ [] → Forall (λ a, p a = true) x → p c = false →
  m_rest st = x ++ c :: rest →
  rmatch (rseq (RGroup i (RPlus (RChar p)) :: RLit c :: rs)) st
  = rmatch (rseq rs) (MState (m_pos st + length x + 1) rest ((i, x) :: m_caps st)).
Proof.
  intros Hne Hx Hc Hr. destruct x as [|a x]; [done|]. clear Hne.
  apply Forall_cons in Hx as [Ha Hx]. destruct st as [pos r caps].
  cbn [m_rest m_pos m_caps] in *. subst r.
  rewrite rmatch_rseq_cons. cbn [rmatch]. rewrite rmatch_plus_char.
  cbn [app]. rewrite step_char_cons, Ha. cbn [flat_map]. rewrite app_nil_r.
  cbn [m_rest]. rewrite flat_map_map.
  rewrite (star_class_then p _ x (MState (S pos) (x ++ c :: rest) caps) _ c rest Hx Hc eq_refl);
    [|done|].
  - rewrite rmatch_rseq_cons. cbn [rmatch RLit]. unfold step_char.
    cbn [advance set_group m_rest m_pos m_caps].
    rewrite drop_app_length. replace (is_char c c) with true by (symmetry; apply Ascii.eqb_refl).
    cbn [flat_map]. rewrite app_nil_r. f_equal. f_equal; [cbn [length]; lia|].
    f_equal. f_equal.
    replace (S pos + length x - pos) with (length (a :: x)) by (cbn [length]; lia).
    apply (take_app_length (a :: x)).
  - intros s b t Hs Hb. rewrite rmatch_rseq_cons. cbn [rmatch RLit]. unfold step_char.
    cbn [set_group m_rest]. rewrite Hs.
    replace (is_char c b) with false; [done|].
    symmetry. apply Ascii.eqb_neq. intros ->. congruence.
Qed.

Lemma speaker_empty_payload nick :
  nick ≠ [] → ">"%char ∉ nick →
  ∃ m, re_match SPEAKER_RE ("<" ++ nick ++ ">" ++ [TAB]) = Some m
       ∧ group 1 m = nick ∧ group 2 m = [].
Proof.
  intros Hne Hgt. unfold re_match, SPEAKER_RE, start.
  rewrite rmatch_rseq_cons. cbn [rmatch m_pos Nat.eqb flat_map]. rewrite app_nil_r.
  rewrite rmatch_rseq_cons. cbn [rmatch RLit list_ascii_of_string app].
  rewrite step_char_cons. replace (is_char "<" "<") with true by done.
  cbn [flat_map]. rewrite app_nil_r.
  rewrite (group_plus_then 1 (not_char ">") ">" _ _ nick [TAB]); [|done| |done|done].
  - eexists. split; [reflexivity|]. split; [reflexivity|]. apply take_nil.
  - apply Forall_forall. intros a Ha. unfold not_char. apply negb_true_iff.
    apply Ascii.eqb_neq. intros ->. done.
Qed.

Lemma speaker_fails_query nick :
  TAB ∉ nick → re_match SPEAKER_RE (nick ++ " >>" ++ [TAB]) = None.
Proof.
  intros Htab. unfold re_match.
  change SPEAKER_RE
    with (rseq ([RBol; RLit "<"; RGroup 1 (RPlus (RChar (not_char ">"))); RLit ">"]
                ++ [RLit TAB; RGroup 2 (RStar (RChar is_dot)); REol])).
  rewrite rmatch_rseq_app, flat_map_nil; [done|].
  intros s1 (w & Hl & Hrest & _)%rmatch_sound.
  rewrite rmatch_rseq_cons. cbn [rmatch RLit]. unfold step_char.
  destruct (m_rest s1) as [|c t] eqn:E; [done|].
  destruct (is_char TAB c) eqn:Hc; [|done]. exfalso.
  apply Ascii.eqb_eq in Hc. subst c. cbn [start m_rest] in Hrest.
  assert (TAB ∉ nick ++ " >>") as Hbody.
  { intros [H|H]%elem_of_app; [done|]. by vm_compute in H; repeat (apply elem_of_cons in H as [H|H]; [done|]); apply elem_of_nil in H. }
  rewrite (assoc_L (++)) in Hrest.
  destruct (last_tab_only _ _ _ Hbody Hrest) as [_ ->].
  cbn [rseq foldr] in Hl.
  repeat match goal with
  | H : rlang (RSeq _ _) _ |- _ => inversion H; subst; clear H
  | H : rlang (RLit _) _ |- _ => inversion H; subst; clear H
  | H : rlang (RGroup _ _) _ |- _ => inversion H; subst; clear H
  | H : rlang REps _ |- _ => inversion H; subst; clear H
  | H : rlang RBol _ |- _ => inversion H; subst; clear H
  end.
  match goal with H : rlang (RPlus _) _ |- _ =>
    apply rlang_plus_class in H as [Hne Hall] end.
  match goal with H : _ = nick ++ _ |- _ => rename H into Heq end.
  destruct w2 as [|a x' _] using rev_ind; [done|].
  apply Forall_app in Hall as [_ Hall]. rewrite Forall_singleton in Hall.
  assert (a = ">"%char) as ->; [|done].
  cbn [app] in Heq.
  change (c0 :: (x' ++ [a]) ++ [c]) with ((c0 :: x' ++ [a]) ++ [c]) in Heq.
  change (nick ++ [" "%char; ">"%char; ">"%char])
    with (nick ++ ([" "%char; ">"%char] ++ [">"%char])) in Heq.
  rewrite (assoc_L (++)) in Heq. apply app_inj_tail in Heq as [Heq _].
  change (c0 :: x' ++ [a]) with ((c0 :: x') ++ [a]) in Heq.
  change (nick ++ [" "%char; ">"%char]) with (nick ++ ([" "%char] ++ [">"%char])) in Heq.
  rewrite (assoc_L (++)) in Heq. by apply app_inj_tail in Heq as [_ ->].
Qed.

Lemma classify_message_fallback body :
  TAB ∉ body → re_match SPEAKER_RE (body ++ [TAB]) = None →
  classify_message (body ++ [TAB]) = ("--" : str, body ++ [TAB]).
Proof.
  intros Hb Hs. unfold classify_message. rewrite Hs.
  unfold MARKER_RE, NOTICE_RE, OUTGOING_RE, QUERY_RE.
  rewrite !tab_payload_fails by done.
  by destruct (negb _).
Qed.

Lemma not_elem_of_lit (c : ascii) (s : str) : existsb (Ascii.eqb c) s = false → c ∉ s.
Proof.
  intros H Hin. apply not_true_iff_false in H. apply H.
  apply existsb_exists. exists c. split; [by apply list_elem_of_In|apply Ascii.eqb_refl].
Qed.

(** * The claims *)

Lemma int_raises_value_error s e : int s = Raise e → e = ValueError.
Proof.
  unfold int. destruct (match strip_int_space s with [] => _ | _ => _ end) as [neg body].
  destruct (int_digits 0 false body); [done|]. by intros [= <-].
Qed.


(** C1 (refuted by the code): [parse_hexchat_line] does not return for
    every line of the form "T <n> <rest>": when the integer [n] lies outside
    the years 1..9999 the timestamp conversion raises, and nothing catches
    it.  The first input is the first second of year 10000, the second an
    integer far outside the calendar range. *)
Theorem parse_hexchat_line_raises_on_out_of_range_timestamp :
  parse_hexchat_line "T 253402300800 x" = Raise OutOfRangeError
  ∧ parse_hexchat_line "T 99999999999999999999 x" = Raise OutOfRangeError.
Proof. split; by vm_compute. Qed.

(** C2: when no hexchat record is recovered from any subdirectory,
    [process_file] returns (0, 0, 0), leaves every file as it was, and none
    of its accesses (existence test, read or write) is on the weechat
    file. *)
Theorem process_file_zero_records_untouched (hexchat_basename : str) (w : world) :
  fst (read_hexchat SUBDIRS hexchat_basename w) = Ok [] →
  ∃ new,
    process_file hexchat_basename w
      = (Ok (0, 0, 0), World (files w) (new ++ trace w))
    ∧ Forall (λ ev, event_path ev
                    ≠ join WEECHAT_DIR (hexchat_to_weechat_filename hexchat_basename))
             new.
Proof.
  intros Hzero.
  destruct (quiet_read_hexchat
              (λ ev, event_path ev
                     ≠ join WEECHAT_DIR (hexchat_to_weechat_filename hexchat_basename))
              SUBDIRS hexchat_basename) with (w := w) as (new & Hw & Hnew).
  { intros subdir _. split; apply hexchat_path_not_weechat. }
  exists new. split; [|done].
  unfold process_file, bind.
  destruct (read_hexchat SUBDIRS hexchat_basename w) as [r w1].
  simpl in Hzero, Hw. subst r w1. done.
Qed.

Lemma process_file_zero_records_untouched_witness :
  ∃ new,
    process_file CHAN_TXT IDLE_WORLD
      = (Ok (0, 0, 0), World (files IDLE_WORLD) (new ++ trace IDLE_WORLD))
    ∧ Forall (λ ev, event_path ev ≠ CHAN_LOG) new.
Proof.
  apply (process_file_zero_records_untouched CHAN_TXT IDLE_WORLD).
  vm_compute. reflexivity.
Defined.

(** C3 (as stated, refuted): the source line
    "T 1700000000 <alice>\tHello\x03(4world" does not yield the line
    "2023-11-14 22:13:20\t<alice>\tHelloworld". *)
Lemma alice_scenario_not_helloworld :
  ∃ text,
    files (snd (process_file CHAN_TXT ALICE_WORLD)) !! CHAN_LOG = Some text
    ∧ map (rstrip [LF; CR]) (file_lines text)
      ≠ ["2023-11-14 22:13:20" ++ [TAB] ++ "<alice>" ++ [TAB] ++ "Helloworld"].
Proof.
  exists (snd ALICE_ENTRY ++ [LF]). split; [by vm_compute|].
  vm_compute. intros H. discriminate H.
Qed.

(** C3 (amended): that source line, with no destination file, yields a
    destination file of exactly one line,
    "2023-11-14 22:13:20\t<alice>\tHello(4world": only the introducer
    [\x03] goes, since "(" is not a digit. *)
Theorem alice_scenario_output :
  files ALICE_WORLD !! CHAN_LOG = None
  ∧ fst (process_file CHAN_TXT ALICE_WORLD) = Ok (1, 0, 1)
  ∧ files (snd (process_file CHAN_TXT ALICE_WORLD))
    = <[ CHAN_LOG := snd ALICE_ENTRY ++ [LF] ]> (files ALICE_WORLD)
  ∧ file_lines (snd ALICE_ENTRY ++ [LF]) = [snd ALICE_ENTRY ++ [LF]]
  ∧ strip_mirc_colors ("Hello" ++ [X03] ++ "(4world") = "Hello(4world".
Proof. repeat split; by vm_compute. Qed.

(** C4: over the sorted sequence of the entries that [process_file] has
    collected, the deduplication pass drops an entry exactly when its line
    equals the line of the last entry kept so far, and otherwise appends
    it; an entry equal to an earlier one that is not adjacent is kept, so
    A, A, B, A with distinct lines A and B yields A, B, A. *)
Theorem dedup_drops_exactly_repeated_lines
  (hexchat_basename : str) (w : world) (hex wee : list entry) :
  let weechat_path := join WEECHAT_DIR (hexchat_to_weechat_filename hexchat_basename) in
  let r1 := read_hexchat SUBDIRS hexchat_basename w in
  fst r1 = Ok hex →
  fst (read_weechat weechat_path (snd r1)) = Ok wee →
  let entries := sort_entries (hex ++ wee) in
  (∀ l e rest, entries = l ++ e :: rest →
     (dedup (l ++ [e]) = dedup l
      ↔ ∃ p, last (dedup l) = Some p ∧ snd p = snd e)
     ∧ (dedup (l ++ [e]) ≠ dedup l → dedup (l ++ [e]) = dedup l ++ [e]))
  ∧ (∀ A B : entry, snd A ≠ snd B → dedup [A; A; B; A] = [A; B; A]).
Proof.
  intros weechat_path r1 Hhex Hwee entries. split.
  - intros l e rest Hsplit.
    assert (Forall wf_entry (l ++ [e])) as Hwf.
    { assert (Forall wf_entry entries) as Hall.
      { unfold entries. rewrite sort_entries_perm. apply Forall_app.
        split; [by eapply read_hexchat_wf|by eapply read_weechat_wf]. }
      rewrite Hsplit, cons_middle, app_assoc in Hall.
      by apply Forall_app in Hall as [? _]. }
    split; [by apply dedup_dropped_line_iff|].
    rewrite dedup_snoc. by case_bool_decide.
  - intros A B Hne. unfold dedup. cbn [fold_left dedup_step].
    assert (A ≠ B) as HAB by (by intros ->).
    repeat case_bool_decide; try done; try congruence.
Qed.

Lemma dedup_drops_exactly_repeated_lines_witness :
  (dedup ([ALICE_ENTRY] ++ [ALICE_ENTRY]) = dedup [ALICE_ENTRY]
   ↔ ∃ p, last (dedup [ALICE_ENTRY]) = Some p ∧ snd p = snd ALICE_ENTRY)
  ∧ (dedup ([ALICE_ENTRY] ++ [ALICE_ENTRY]) ≠ dedup [ALICE_ENTRY] →
     dedup ([ALICE_ENTRY] ++ [ALICE_ENTRY]) = dedup [ALICE_ENTRY] ++ [ALICE_ENTRY]).
Proof.
  apply (proj1 (dedup_drops_exactly_repeated_lines CHAN_TXT MERGE_WORLD
                  [ALICE_ENTRY; ALICE_ENTRY] [BOB_ENTRY]
                  ltac:(vm_compute; reflexivity) ltac:(vm_compute; reflexivity))
               [ALICE_ENTRY] ALICE_ENTRY [BOB_ENTRY]).
  vm_compute. reflexivity.
Defined.

(** The second end-to-end scenario of the specification: the duplicate
    collapses and Alice's line comes before Bob's. *)
Example merge_scenario_output :
  fst (process_file CHAN_TXT MERGE_WORLD) = Ok (2, 1, 2)
  ∧ files (snd (process_file CHAN_TXT MERGE_WORLD)) !! CHAN_LOG
    = Some (serialize [ALICE_ENTRY; BOB_ENTRY]).
Proof. split; by vm_compute. Qed.

(** C5: the merge sorts the converted entries followed by the existing
    ones into a permutation that ascends by timestamp and keeps, for every
    timestamp, the entries bearing it in their order of arrival; so a
    converted entry stands before an existing entry of the same
    timestamp. *)
Theorem sort_entries_stable (hex wee : list entry) :
  let out := sort_entries (hex ++ wee) in
  out ≡ₚ hex ++ wee
  ∧ StronglySorted ts_le out
  ∧ (∀ t, filter (has_ts t) out = filter (has_ts t) hex ++ filter (has_ts t) wee)
  ∧ (∀ h w, h ∈ hex → w ∈ wee → fst h = fst w → before h w out).
Proof.
  intros out. subst out. split; [apply sort_entries_perm|].
  split; [apply sort_entries_sorted|].
  assert (∀ t, filter (has_ts t) (sort_entries (hex ++ wee))
               = filter (has_ts t) hex ++ filter (has_ts t) wee) as Hstable.
  { intros t. by rewrite sort_entries_filter, filter_app. }
  split; [done|].
  intros h w Hh Hw Heq. apply before_sublist.
  transitivity (filter (has_ts (fst h)) (sort_entries (hex ++ wee))).
  - rewrite Hstable. apply sublist_pair; apply list_elem_of_filter; done.
  - apply sublist_filter.
Qed.

Lemma sort_entries_stable_witness :
  before (5%Z, "new" : str) (5%Z, "old" : str)
         (sort_entries ([(7%Z, "late" : str); (5%Z, "new" : str)]
                        ++ [(5%Z, "old" : str); (3%Z, "early" : str)])).
Proof.
  apply (sort_entries_stable [(7%Z, "late" : str); (5%Z, "new" : str)]
                             [(5%Z, "old" : str); (3%Z, "early" : str)]).
  - decide_by_compute.
  - decide_by_compute.
  - reflexivity.
Defined.

(** C6: a line that begins with "T " and holds, once its trailing line
    breaks are removed, a character below 32 outside the allowed set is
    not classifiable, whatever else it holds. *)
Theorem control_byte_rejected (line : str) (c : ascii) :
  startswith "T " line = true →
  c ∈ rstrip [LF; CR] line →
  ord c < 32 →
  c ∉ [X02; X03; X07; X0F; X16; X1D; X1F; TAB; LF; CR] →
  parse_hexchat_line line = Ok None.
Proof.
  intros Hm Hin Hlt Hnot. unfold parse_hexchat_line.
  rewrite (rstrip_startswith_marker _ Hm). cbn [negb].
  rewrite (existsb_elem disallowed _ c Hin); [done|].
  apply disallowed_spec; [done|].
  intros H. apply Hnot. rewrite !elem_of_cons in H. rewrite !elem_of_cons.
  tauto.
Qed.

Lemma control_byte_rejected_witness :
  parse_hexchat_line
    ("T 1700000000 <alice>" ++ [TAB] ++ "he" ++ ["001"%char] ++ "llo" ++ [LF])
  = Ok None.
Proof.
  apply (control_byte_rejected _ "001"%char).
  - reflexivity.
  - decide_by_compute.
  - vm_compute. lia.
  - decide_by_compute.
Defined.

(** C7 (as stated, refuted): this line begins with the marker, passes the
    control check and has four fields separated by white space, yet
    [split(' ', 2)] finds two parts only and the line is dropped at the
    splitting step: a tab between timestamp and remainder separates
    nothing. *)
Lemma tab_separated_fields_rejected :
  startswith "T " TAB_SEPARATED_LINE = true
  ∧ existsb disallowed (rstrip [LF; CR] TAB_SEPARATED_LINE) = false
  ∧ whitespace_fields TAB_SEPARATED_LINE
    = ["T" : str; "1700000000" : str; "<alice>" : str; "hello" : str]
  ∧ length (split SPACE 2 (rstrip [LF; CR] TAB_SEPARATED_LINE)) = 2
  ∧ parse_hexchat_line TAB_SEPARATED_LINE = Ok None.
Proof. vm_compute. done. Qed.

(** C7 (amended): a line that begins with "T " and passes the control
    check is dropped at the splitting step exactly when, its trailing line
    breaks removed, it holds fewer than two space characters; with two or
    more it goes on to the timestamp: a field that [int] refuses drops it,
    and one that is a timestamp of the calendar range yields a record. *)
Theorem split_step_rejects_iff_fewer_than_two_spaces (line : str) :
  let l := rstrip [LF; CR] line in
  let parts := split SPACE 2 l in
  startswith "T " line = true →
  existsb disallowed l = false →
  (length parts < 3 ↔ count_occ ascii_dec l SPACE < 2)
  ∧ (length parts < 3 → parse_hexchat_line line = Ok None)
  ∧ (3 ≤ length parts →
       (int (nth 1 parts []) = Raise ValueError → parse_hexchat_line line = Ok None)
       ∧ (∀ ts dt, int (nth 1 parts []) = Ok ts → fromtimestamp ts = Ok dt →
            ∃ prefix message,
              parse_hexchat_line line = Ok (Some (ts, strftime dt, prefix, message)))).
Proof.
  intros l parts Hm Hc. subst parts l. split; [|split].
  - rewrite split_length. lia.
  - intros Hlen. unfold parse_hexchat_line.
    rewrite (rstrip_startswith_marker _ Hm), Hc. cbn [negb].
    apply Nat.ltb_lt in Hlen. rewrite Hlen. done.
  - intros Hlen. unfold parse_hexchat_line.
    rewrite (rstrip_startswith_marker _ Hm), Hc. cbn [negb].
    apply Nat.ltb_ge in Hlen. rewrite Hlen. split.
    + intros ->. done.
    + intros ts dt -> Hdt. rewrite Hdt. cbn [rbind].
      destruct (classify_message _) as [p m]. by exists p, m.
Qed.

Lemma split_step_rejects_iff_fewer_than_two_spaces_witness :
  (length (split SPACE 2 (rstrip [LF; CR] TAB_SEPARATED_LINE)) < 3
   ↔ count_occ ascii_dec (rstrip [LF; CR] TAB_SEPARATED_LINE) SPACE < 2)
  ∧ parse_hexchat_line TAB_SEPARATED_LINE = Ok None.
Proof.
  pose proof (split_step_rejects_iff_fewer_than_two_spaces TAB_SEPARATED_LINE
                ltac:(reflexivity) ltac:(reflexivity)) as (Hiff & Hnone & _).
  split; [exact Hiff|]. apply Hnone. vm_compute. lia.
Defined.

(** C8 (as stated, refuted): the last line of a file that does not end in
    a line break is accepted as it is read, and written back with a line
    feed that it did not have. *)
Lemma unterminated_line_gains_newline :
  file_lines BOB_LINE = [BOB_LINE]
  ∧ parse_weechat_line BOB_LINE = Some BOB_ENTRY
  ∧ serialize [BOB_ENTRY] = BOB_LINE ++ [LF]
  ∧ serialize [BOB_ENTRY] ≠ BOB_LINE.
Proof. vm_compute. repeat split; done. Qed.

(** C8 (amended): an accepted line is stored without its trailing line
    breaks; written back with a line feed, it is the line as the file
    yielded it whenever that line ends in a line break; an accepted line
    without one is the last of its file and is written with a line feed
    added. *)
Theorem weechat_line_round_trip (text line : str) (e : entry) :
  line ∈ file_lines text →
  parse_weechat_line line = Some e →
  snd e = rstrip [LF; CR] line
  ∧ ((∃ body, line = body ++ [LF]) → serialize [e] = line)
  ∧ ((∀ body, line ≠ body ++ [LF]) →
       last (file_lines text) = Some line ∧ serialize [e] = line ++ [LF]).
Proof.
  intros Hin Hp. pose proof (parse_weechat_line_stored _ _ Hp) as Hs.
  unfold serialize. simpl. rewrite app_nil_r, Hs.
  split; [done|].
  destruct (file_lines_shape _ _ Hin) as [(body & -> & Hb)|(Hne & Hb & Hlast)].
  - split.
    + intros _. by rewrite rstrip_line_break.
    + intros H. by destruct (H body).
  - split.
    + intros [body ->]. destruct Hb as [Hb _]. destruct Hb.
      apply elem_of_app. right. by apply list_elem_of_singleton.
    + intros _. by rewrite no_break_rstrip.
Qed.

Lemma weechat_line_round_trip_witness :
  serialize [BOB_ENTRY] = BOB_LINE ++ [LF].
Proof.
  apply (weechat_line_round_trip (BOB_LINE ++ [LF]) (BOB_LINE ++ [LF]) BOB_ENTRY).
  - decide_by_compute.
  - vm_compute. reflexivity.
  - by exists BOB_LINE.
Defined.

(** C9: [strip_mirc_colors] is idempotent.  Removing the colour sequences
    leaves no introducer and leaves the toggles as they were; removing the
    toggles removes them and nothing else; so the result holds neither an
    introducer nor a toggle, and neither pattern matches in it. *)
Theorem strip_mirc_colors_idempotent (s : str) :
  strip_mirc_colors (strip_mirc_colors s) = strip_mirc_colors s
  ∧ (X03 ∉ re_sub COLOR_RE s)
  ∧ List.filter is_toggle (re_sub COLOR_RE s) = List.filter is_toggle s
  ∧ (∀ t, re_sub TOGGLE_RE t = List.filter (λ c, negb (is_toggle c)) t)
  ∧ (∀ c, c ∈ strip_mirc_colors s → c ≠ X03 ∧ is_toggle c = false).
Proof.
  assert (∀ t, re_sub TOGGLE_RE t = List.filter (λ c, negb (is_toggle c)) t) as Htog.
  { intros t. apply re_sub_from_char. }
  assert (∀ c, c ∈ strip_mirc_colors s → c ≠ X03 ∧ is_toggle c = false) as Hout.
  { intros c. unfold strip_mirc_colors. rewrite Htog, filter_elem_of.
    intros [Hin Hc]. split; [|by apply negb_true_iff].
    intros ->. by apply (re_sub_color_no_x03 s 0 0). }
  split; [|split; [|split; [|split]]]; try done.
  - unfold strip_mirc_colors at 1. unfold re_sub at 2.
    rewrite re_sub_color_id.
    + unfold strip_mirc_colors. by rewrite !Htog, filter_idem.
    + intros Hin. by destruct (Hout _ Hin).
  - apply re_sub_color_no_x03.
  - by apply re_sub_color_toggles.
Qed.

(** C10: in [classify_message] the speaker rule takes an empty payload:
    "<nick>" and a tab give the prefix "<nick>" and an empty message.  Each
    other marker ("-->", "<--", "---", "*", "-nick-", "-*status-", ">nick<"
    and "nick >>", the nick free of tabs) followed by a tab and nothing
    else matches none of the rules, and the fallback gives the prefix "--"
    with the marker and its tab as the message. *)
Theorem classify_message_empty_payload :
  (∀ nick : str, nick ≠ [] → ">"%char ∉ nick →
     classify_message ("<" ++ nick ++ ">" ++ [TAB]) = ("<" ++ nick ++ ">", []))
  ∧ (∀ nick marker : str, TAB ∉ nick →
       marker ∈ ["-->" : str; "<--" : str; "---" : str; "*" : str;
                 "-" ++ nick ++ "-"; "-*status-" : str;
                 ">" ++ nick ++ "<"; nick ++ " >>"] →
       classify_message (marker ++ [TAB]) = ("--" : str, marker ++ [TAB])).
Proof.
  split.
  - intros nick Hne Hgt.
    destruct (speaker_empty_payload nick Hne Hgt) as (m & Hm & H1 & H2).
    unfold classify_message. by rewrite Hm, H1, H2.
  - intros nick marker Hnick Hin.
    assert (∀ a b : str, existsb (Ascii.eqb TAB) a = false →
              existsb (Ascii.eqb TAB) b = false → TAB ∉ a ++ nick ++ b) as Hbody.
    { intros a b Ha Hb [H|[H|H]%elem_of_app]%elem_of_app; [|done|].
      - by apply (not_elem_of_lit _ _ Ha).
      - by apply (not_elem_of_lit _ _ Hb). }
    repeat (apply elem_of_cons in Hin as [->|Hin]); try (by vm_compute).
    + apply classify_message_fallback; [by apply Hbody|done].
    + apply classify_message_fallback; [by apply Hbody|done].
    + apply classify_message_fallback.
      * apply (Hbody [] " >>"); done.
      * rewrite <- (assoc_L (++)). by apply speaker_fails_query.
    + by apply elem_of_nil in Hin.
Qed.

Lemma classify_message_empty_payload_witness :
  classify_message ("<alice>" ++ [TAB]) = ("<alice>" : str, [])
  ∧ classify_message ("-alice-" ++ [TAB]) = ("--" : str, "-alice-" ++ [TAB])
  ∧ classify_message ("alice >>" ++ [TAB]) = ("--" : str, "alice >>" ++ [TAB]).
Proof.
  split; [|split].
  - apply (proj1 classify_message_empty_payload "alice"); [done|decide_by_compute].
  - apply (proj2 classify_message_empty_payload "alice" "-alice-"); decide_by_compute.
  - apply (proj2 classify_message_empty_payload "alice" "alice >>"); decide_by_compute.
Defined.

(** * Further properties *)

(** ** The classification rules *)

Lemma star_class_tail p (K : mstate → list mstate) x : ∀ st fuel tail,
  Forall (λ a, p a = true) x → class_stops p tail →
  m_rest st = x ++ tail → length (m_rest st) ≤ fuel →
  (∀ s a t, m_rest s = a :: t → p a = true → K s = []) →
  flat_map K (star_loop (step_char p) fuel st) = K (advance (length x) st).
Proof.
  induction x as [|a x IH]; intros [pos r caps] fuel tail Hx Hc Hr Hf HK;
    cbn [m_rest] in Hr; subst r; cbn [m_rest length] in Hf.
  - cbn [app length]. rewrite advance_0. destruct fuel as [|fuel].
    + cbn [star_loop flat_map]. by rewrite app_nil_r.
    + cbn [star_loop]. destruct tail as [|c t].
      * cbn. by rewrite app_nil_r.
      * rewrite step_char_cons. cbn in Hc. rewrite Hc. cbn. by rewrite app_nil_r.
  - destruct fuel as [|fuel]; [simpl in Hf; lia|].
    apply Forall_cons in Hx as [Ha Hx].
    cbn [star_loop app]. rewrite step_char_cons, Ha.
    cbn [flat_map]. unfold shorter at 1. cbn [m_rest length].
    replace (length (x ++ tail) <? S (length (x ++ tail)))%nat with true
      by (symmetry; apply Nat.ltb_lt; lia).
    rewrite app_nil_r, flat_map_app. cbn [flat_map].
    rewrite (HK (MState pos (a :: x ++ tail) caps) a (x ++ tail) eq_refl Ha).
    rewrite !app_nil_r.
    rewrite (IH (MState (S pos) (x ++ tail) caps) fuel tail Hx Hc eq_refl);
      [|simpl in *; lia|done].
    cbn [length]. by rewrite (advance_S _ _ a).
Qed.

(** The first way a starred class matches is the longest one. *)
Lemma star_class_first p x : ∀ st fuel tail,
  Forall (λ a, p a = true) x → class_stops p tail →
  m_rest st = x ++ tail → length (m_rest st) ≤ fuel →
  ∃ others, star_loop (step_char p) fuel st = advance (length x) st :: others.
Proof.
  induction x as [|a x IH]; intros [pos r caps] fuel tail Hx Hc Hr Hf;
    cbn [m_rest] in Hr; subst r; cbn [m_rest length] in Hf.
  - cbn [app length]. rewrite advance_0. destruct fuel as [|fuel].
    + by exists [].
    + cbn [star_loop]. destruct tail as [|c t].
      * by exists [].
      * rewrite step_char_cons. cbn in Hc. rewrite Hc. by exists [].
  - destruct fuel as [|fuel]; [simpl in Hf; lia|].
    apply Forall_cons in Hx as [Ha Hx].
    cbn [star_loop app]. rewrite step_char_cons, Ha.
    cbn [flat_map]. unfold shorter at 1. cbn [m_rest length].
    replace (length (x ++ tail) <? S (length (x ++ tail)))%nat with true
      by (symmetry; apply Nat.ltb_lt; lia).
    rewrite app_nil_r.
    destruct (IH (MState (S pos) (x ++ tail) caps) fuel tail Hx Hc eq_refl)
      as [others ->]; [simpl in *; lia|].
    cbn [length]. rewrite (advance_S _ _ a). by eexists.
Qed.

Lemma head_flat_map {A B} (K : A → list B) x l y :
  head (K x) = Some y → head (flat_map K (x :: l)) = Some y.
Proof. cbn [flat_map]. destruct (K x); [done|]. done. Qed.

Lemma is_dot_forall (msg : str) : LF ∉ msg → Forall (λ a, is_dot a = true) msg.
Proof.
  intros H. apply Forall_forall. intros a Ha. unfold is_dot.
  apply negb_true_iff, Ascii.eqb_neq. by intros ->.
Qed.

(** The payload tail on a tab and a payload without line feed. *)
Lemma tab_payload_match g pos msg caps :
  msg ≠ [] → LF ∉ msg →
  rmatch (rseq (TAB_PAYLOAD g)) (MState pos (TAB :: msg) caps)
  = [MState (S pos + length msg) [] ((g, msg) :: caps)].
Proof.
  intros Hne Hlf. destruct msg as [|a msg]; [done|]. clear Hne.
  apply is_dot_forall in Hlf. apply Forall_cons in Hlf as [Ha Hmsg].
  unfold TAB_PAYLOAD. rewrite rmatch_rseq_cons. cbn [rmatch RLit].
  rewrite step_char_cons. replace (is_char TAB TAB) with true by done.
  cbn [flat_map]. rewrite app_nil_r.
  rewrite rmatch_rseq_cons. cbn [rmatch]. rewrite rmatch_plus_char.
  rewrite step_char_cons, Ha. cbn [flat_map]. rewrite app_nil_r. cbn [m_rest].
  rewrite flat_map_map.
  rewrite (star_class_tail is_dot _ msg (MState (S (S pos)) msg caps) _ []);
    [|done|done|by rewrite app_nil_r|done|].
  - cbn [rseq foldr rmatch]. unfold advance, set_group. cbn [m_pos m_rest m_caps].
    rewrite drop_all. cbn [at_eol m_rest flat_map app].
    f_equal. f_equal; [cbn [length]; lia|]. f_equal. f_equal.
    replace (S (S pos) + length msg - S pos) with (length (a :: msg)) by (cbn [length]; lia).
    apply firstn_all.
  - intros s b t Hs Hb. cbn [rseq foldr rmatch]. unfold at_eol, set_group. cbn [m_rest].
    rewrite Hs. destruct t; [|done].
    replace (Ascii.eqb b LF) with false; [done|].
    unfold is_dot in Hb. by apply negb_true_iff in Hb.
Qed.

(** No pattern that asks for a tab matches a text without one. *)
Lemma needs_tab_fails pre post text :
  TAB ∉ text → re_match (rseq (pre ++ RLit TAB :: post)) text = None.
Proof.
  intros Htab. unfold re_match. rewrite rmatch_rseq_app, flat_map_nil; [done|].
  intros s1 [w Hw]%rmatch_suffix. rewrite rmatch_rseq_cons. cbn [rmatch RLit].
  unfold step_char. destruct (m_rest s1) as [|c t] eqn:E; [done|].
  destruct (is_char TAB c) eqn:Hc; [|done]. exfalso.
  apply Ascii.eqb_eq in Hc. subst c. apply Htab. cbn [start m_rest] in Hw.
  rewrite Hw. apply elem_of_app. right. left.
Qed.

(** X1: a text without a tab matches none of the nine patterns (each asks
    for a tab) and is handed back whole as a system message, prefix "--". *)
Theorem classify_message_no_tab (text : str) :
  TAB ∉ text → classify_message text = ("--" : str, text).
Proof.
  intros Htab. unfold classify_message.
  change SPEAKER_RE
    with (rseq ([RBol; RLit "<"; RGroup 1 (RPlus (RChar (not_char ">"))); RLit ">"]
                ++ RLit TAB :: [RGroup 2 (RStar (RChar is_dot)); REol])).
  rewrite needs_tab_fails by done.
  unfold MARKER_RE, NOTICE_RE, OUTGOING_RE, QUERY_RE, TAB_PAYLOAD.
  rewrite !needs_tab_fails by done.
  by destruct (negb _).
Qed.

Lemma classify_message_no_tab_witness :
  classify_message "FiSHLiM plugin loaded" = ("--" : str, "FiSHLiM plugin loaded" : str).
Proof.
  apply (classify_message_no_tab "FiSHLiM plugin loaded"). decide_by_compute.
Defined.


Lemma star_loop_chars text r fuel :
  (∀ st st', st' ∈ rmatch r st → chars_of text st → chars_of text st') →
  ∀ st st', st' ∈ star_loop (rmatch r) fuel st → chars_of text st → chars_of text st'.
Proof.
  intros Hr. induction fuel as [|fuel IH]; intros st st'; simpl.
  - by intros ->%list_elem_of_singleton.
  - intros [H| ->%list_elem_of_singleton]%elem_of_app; [|done].
    apply elem_of_flat_map in H as (s1 & H1 & H2).
    destruct (shorter s1 st); [|by apply elem_of_nil in H2].
    intros Hst. eapply IH; [done|]. by eapply Hr.
Qed.

Lemma rmatch_chars text r : ∀ st st',
  st' ∈ rmatch r st → chars_of text st → chars_of text st'.
Proof.
  induction r as [p|r IH|r IH|i r IH| | | |r1 IH1 r2 IH2]; intros st st'; simpl.
  - unfold step_char. destruct (m_rest st) as [|c t] eqn:E; [by intros ?%elem_of_nil|].
    destruct (p c); [|by intros ?%elem_of_nil].
    intros ->%list_elem_of_singleton [Hr Hc]. split; [|done].
    cbn [m_rest]. intros a Ha. apply Hr. rewrite E. by right.
  - intros [H| ->%list_elem_of_singleton]%elem_of_app; [by apply IH|done].
  - by apply star_loop_chars.
  - intros (s1 & -> & H)%list_elem_of_fmap Hst.
    destruct (IH _ _ H Hst) as [Hr Hc]. split; [done|].
    cbn [set_group m_caps]. intros kv c [->|Hkv]%elem_of_cons; [|by apply Hc].
    cbn [snd]. intros Hin. apply Hst. by apply (subseteq_take _ _ _ Hin).
  - destruct (m_pos st =? 0)%nat; [|by intros ?%elem_of_nil].
    by intros ->%list_elem_of_singleton.
  - destruct (at_eol st); [|by intros ?%elem_of_nil].
    by intros ->%list_elem_of_singleton.
  - by intros ->%list_elem_of_singleton.
  - intros (s1 & H1 & H2)%elem_of_flat_map Hst. eapply IH2; [done|]. by eapply IH1.
Qed.

Lemma group_chars r text m i c :
  re_match r text = Some m → c ∈ group i m → c ∈ text.
Proof.
  unfold re_match. intros Hm.
  assert (m ∈ rmatch r (start text)) as Hin.
  { destruct (rmatch r (start text)) as [|x l]; [done|]. injection Hm as ->. left. }
  apply (rmatch_chars text) in Hin as [_ Hc].
  2:{ split; [done|]. cbn. by intros ? ? ?%elem_of_nil. }
  unfold group. destruct (find _ _) as [kv|] eqn:Hf; [|by intros ?%elem_of_nil].
  apply find_some in Hf as [Hkv _]. apply list_elem_of_In in Hkv.
  intros Hin. by eapply Hc.
Qed.


Ltac literal_chars H :=
  vm_compute in H;
  repeat (apply elem_of_cons in H as [->|H]; [right; decide_by_compute|]);
  by apply elem_of_nil in H.

Ltac split_or H :=
  lazymatch type of H with
  | _ ∨ _ => destruct H as [H|H]; split_or H
  | _ => idtac
  end.

Ltac classified_chars :=
  intros [= <- <-];
  let H := fresh "H" in
  intros H;
  repeat (rewrite elem_of_app in H || rewrite elem_of_cons in H);
  split_or H;
  first [ left; eapply group_chars; eassumption
        | left; exact H
        | subst; right; decide_by_compute
        | by apply elem_of_nil in H
        | literal_chars H ].

Lemma classified_from_text text prefix message c :
  classify_message text = (prefix, message) →
  c ∈ prefix ++ message → c ∈ text ∨ c ∈ RULE_CHARS.
Proof.
  unfold classify_message.
  destruct (re_match SPEAKER_RE text) eqn:H1; [classified_chars|].
  destruct (re_match (MARKER_RE "-->") text) eqn:H2; [classified_chars|].
  destruct (re_match (MARKER_RE "<--") text) eqn:H3; [classified_chars|].
  destruct (re_match (MARKER_RE "---") text) eqn:H4; [classified_chars|].
  destruct (re_match (MARKER_RE "*") text) eqn:H5; [classified_chars|].
  destruct (re_match NOTICE_RE text) eqn:H6; [classified_chars|].
  destruct (re_match (MARKER_RE "-*status-") text) eqn:H7; [classified_chars|].
  destruct (re_match OUTGOING_RE text) eqn:H8; [classified_chars|].
  destruct (re_match QUERY_RE text) eqn:H9; [classified_chars|].
  destruct (negb _); classified_chars.
Qed.

(** X2: whatever rule decides, every character of the prefix and of the
    message that [classify_message] hands back is a character of the text
    or one of the rules' own punctuation (the characters of "<>-* status"). *)
Theorem classify_message_chars (text prefix message : str) (c : ascii) :
  classify_message text = (prefix, message) →
  c ∈ prefix ++ message → c ∈ text ∨ c ∈ RULE_CHARS.
Proof. apply classified_from_text. Qed.

Lemma classify_message_chars_witness :
  "h"%char ∈ ("-alice-" ++ TAB :: "hi" : str) ∨ "h"%char ∈ RULE_CHARS.
Proof.
  apply (classify_message_chars ("-alice-" ++ TAB :: "hi") "--" "-alice- hi" "h").
  - vm_compute. reflexivity.
  - decide_by_compute.
Defined.

Lemma classes_ok_literal (m s : str) : classes_ok (map is_char m) s = startswith m s.
Proof.
  revert s. induction m as [|a m IH]; intros [|c s]; cbn; try done. by rewrite IH.
Qed.

Lemma startswith_app (m x : str) : startswith m (m ++ x) = true.
Proof. induction m as [|a m IH]; cbn; [done|]. by rewrite Ascii.eqb_refl, IH. Qed.

Lemma startswith_true (m s : str) : startswith m s = true → ∃ x, s = m ++ x.
Proof.
  revert s. induction m as [|a m IH]; intros s; cbn.
  - intros _. by exists s.
  - destruct s as [|c s]; [done|]. intros [Hc Hs]%andb_true_iff.
    apply Ascii.eqb_eq in Hc. subst c. destruct (IH s Hs) as [x ->]. by exists x.
Qed.

Lemma rmatch_str (m : str) st :
  rmatch (RStr m) st
  = if startswith m (m_rest st) then [advance (length m) st] else [].
Proof.
  unfold RStr. replace (map RLit m) with (map RChar (map is_char m)).
  - by rewrite rmatch_classes, classes_ok_literal, length_map.
  - rewrite map_map. done.
Qed.

Lemma rmatch_marker (marker : str) text :
  rmatch (MARKER_RE marker) (start text)
  = if startswith marker text
    then rmatch (rseq (TAB_PAYLOAD 1)) (advance (length marker) (start text))
    else [].
Proof.
  unfold MARKER_RE. cbn [app]. rewrite rmatch_rseq_cons.
  cbn [rmatch start m_pos Nat.eqb flat_map]. rewrite app_nil_r.
  rewrite rmatch_rseq_cons, rmatch_str. cbn [m_rest].
  change (m_rest (start text)) with text.
  destruct (startswith marker text); cbn [flat_map]; [|done]. by rewrite app_nil_r.
Qed.

(** A marker rule does not match a text that does not begin with the
    marker and a tab. *)
Lemma marker_needs_prefix (marker : str) text :
  startswith (marker ++ [TAB]) text = false → re_match (MARKER_RE marker) text = None.
Proof.
  intros Hp. unfold re_match. rewrite rmatch_marker.
  destruct (startswith marker text) eqn:Hm; [|done].
  apply startswith_true in Hm as [x ->].
  unfold advance, start. cbn [m_pos m_rest m_caps]. rewrite drop_app_length.
  rewrite tab_payload_none; [done|]. cbn [m_rest]. intros t ->.
  rewrite (cons_middle TAB marker t), (assoc_L (++) marker [TAB] t) in Hp.
  by rewrite startswith_app in Hp.
Qed.

Lemma marker_match (marker msg : str) :
  msg ≠ [] → LF ∉ msg →
  ∃ m, re_match (MARKER_RE marker) (marker ++ TAB :: msg) = Some m
       ∧ group 1 m = msg.
Proof.
  intros Hne Hlf. unfold re_match. rewrite rmatch_marker, startswith_app.
  unfold advance, start. cbn [m_pos m_rest m_caps]. rewrite drop_app_length.
  rewrite tab_payload_match by done. eexists. split; [done|]. done.
Qed.

(** The text after the speaker: a tab, any message, the end. *)
Lemma speaker_tail_match pos msg caps :
  LF ∉ msg →
  rmatch (rseq [RLit TAB; RGroup 2 (RStar (RChar is_dot)); REol])
         (MState pos (TAB :: msg) caps)
  = [MState (S pos + length msg) [] ((2, msg) :: caps)].
Proof.
  intros Hlf. apply is_dot_forall in Hlf.
  rewrite rmatch_rseq_cons. cbn [rmatch RLit].
  rewrite step_char_cons. replace (is_char TAB TAB) with true by done.
  cbn [flat_map]. rewrite app_nil_r.
  rewrite rmatch_rseq_cons. cbn [rmatch m_rest].
  change (rmatch (RChar is_dot)) with (step_char is_dot).
  rewrite flat_map_map.
  rewrite (star_class_tail is_dot _ msg (MState (S pos) msg caps) _ []);
    [|done|done|by rewrite app_nil_r|done|].
  - cbn [rseq foldr rmatch]. unfold advance, set_group. cbn [m_pos m_rest m_caps].
    rewrite drop_all. cbn [at_eol m_rest flat_map app].
    f_equal. f_equal. f_equal. f_equal.
    replace (S pos + length msg - S pos) with (length msg) by lia.
    apply firstn_all.
  - intros s b t Hs Hb. cbn [rseq foldr rmatch]. unfold at_eol, set_group. cbn [m_rest].
    rewrite Hs. destruct t; [|done].
    replace (Ascii.eqb b LF) with false; [done|].
    unfold is_dot in Hb. by apply negb_true_iff in Hb.
Qed.

Lemma not_char_forall (a : ascii) (s : str) :
  a ∉ s → Forall (λ c, not_char a c = true) s.
Proof.
  intros H. apply Forall_forall. intros c Hc. unfold not_char.
  apply negb_true_iff, Ascii.eqb_neq. by intros ->.
Qed.

Lemma speaker_match nick msg :
  nick ≠ [] → ">"%char ∉ nick → LF ∉ msg →
  ∃ m, re_match SPEAKER_RE ("<" ++ nick ++ ">" ++ TAB :: msg) = Some m
       ∧ group 1 m = nick ∧ group 2 m = msg.
Proof.
  intros Hne Hgt Hlf. unfold re_match, SPEAKER_RE, start.
  rewrite rmatch_rseq_cons. cbn [rmatch m_pos Nat.eqb flat_map]. rewrite app_nil_r.
  rewrite rmatch_rseq_cons. cbn [rmatch RLit list_ascii_of_string app].
  rewrite step_char_cons. replace (is_char "<" "<") with true by done.
  cbn [flat_map]. rewrite app_nil_r.
  rewrite (group_plus_then 1 (not_char ">") ">" _ _ nick (TAB :: msg));
    [|done|by apply not_char_forall|done|done].
  rewrite speaker_tail_match by done.
  eexists. split; [done|]. done.
Qed.

Lemma bracket_match (re : regex) (o c : ascii) nick msg :
  re = rseq ([RBol; RLit o; RGroup 1 (RPlus (RChar (not_char c))); RLit c]
             ++ TAB_PAYLOAD 2) →
  nick ≠ [] → c ∉ nick → msg ≠ [] → LF ∉ msg →
  ∃ m, re_match re (o :: nick ++ c :: TAB :: msg) = Some m
       ∧ group 1 m = nick ∧ group 2 m = msg.
Proof.
  intros -> Hne Hc Hmsg Hlf. unfold re_match, start. cbn [app].
  rewrite rmatch_rseq_cons. cbn [rmatch m_pos Nat.eqb flat_map]. rewrite app_nil_r.
  rewrite rmatch_rseq_cons. cbn [rmatch RLit].
  rewrite step_char_cons. replace (is_char o o) with true by (symmetry; apply Ascii.eqb_refl).
  cbn [flat_map]. rewrite app_nil_r.
  rewrite (group_plus_then 1 (not_char c) c _ _ nick (TAB :: msg));
    [|done|by apply not_char_forall| |done].
  - rewrite tab_payload_match by done. eexists. split; [done|]. done.
  - unfold not_char. by rewrite Ascii.eqb_refl.
Qed.

(** The speaker rule needs a text that begins with "<" and holds a ">". *)
Lemma speaker_needs_lt c text :
  c ≠ "<"%char → re_match SPEAKER_RE (c :: text) = None.
Proof.
  intros Hc. unfold re_match, SPEAKER_RE, start.
  rewrite rmatch_rseq_cons. cbn [rmatch m_pos Nat.eqb flat_map]. rewrite app_nil_r.
  rewrite rmatch_rseq_cons. cbn [rmatch RLit]. rewrite step_char_cons.
  replace (is_char "<" c) with false; [done|].
  symmetry. apply Ascii.eqb_neq. congruence.
Qed.

Lemma speaker_needs_gt text :
  ">"%char ∉ text → re_match SPEAKER_RE text = None.
Proof.
  intros Hgt. unfold re_match.
  change SPEAKER_RE
    with (rseq ([RBol; RLit "<"; RGroup 1 (RPlus (RChar (not_char ">"))); RLit ">"]
                ++ [RLit TAB; RGroup 2 (RStar (RChar is_dot)); REol])).
  rewrite rmatch_rseq_app.
  replace (rmatch (rseq [RBol; RLit "<"; RGroup 1 (RPlus (RChar (not_char ">"))); RLit ">"])
                  (start text)) with (@nil mstate); [done|].
  symmetry. destruct (rmatch _ _) as [|s1 l] eqn:E; [done|]. exfalso.
  assert (s1 ∈ rmatch (rseq [RBol; RLit "<"; RGroup 1 (RPlus (RChar (not_char ">")));
                             RLit ">"]) (start text)) as Hin by (rewrite E; left).
  apply rmatch_sound in Hin as (w & Hl & Hrest & _).
  cbn [rseq foldr] in Hl.
  repeat match goal with
  | H : rlang (RSeq _ _) _ |- _ => inversion H; subst; clear H
  | H : rlang (RLit _) _ |- _ => inversion H; subst; clear H
  | H : rlang (RGroup _ _) _ |- _ => inversion H; subst; clear H
  | H : rlang REps _ |- _ => inversion H; subst; clear H
  | H : rlang RBol _ |- _ => inversion H; subst; clear H
  end.
  match goal with H : is_char ">" ?c = true |- _ => apply Ascii.eqb_eq in H; subst c end.
  apply Hgt. cbn [start m_rest] in Hrest. rewrite Hrest.
  rewrite !elem_of_app, !elem_of_cons. tauto.
Qed.

Lemma bracket_needs_first (o c a : ascii) text g :
  a ≠ o →
  re_match (rseq ([RBol; RLit o; RGroup 1 (RPlus (RChar (not_char c))); RLit c]
                  ++ TAB_PAYLOAD g)) (a :: text) = None.
Proof.
  intros Ha. unfold re_match, start. cbn [app].
  rewrite rmatch_rseq_cons. cbn [rmatch m_pos Nat.eqb flat_map]. rewrite app_nil_r.
  rewrite rmatch_rseq_cons. cbn [rmatch RLit]. rewrite step_char_cons.
  replace (is_char o a) with false; [done|].
  symmetry. apply Ascii.eqb_neq. congruence.
Qed.

(** X3: the speaker rule.  "<nick>", a tab and a message without line
    feed, the nick not empty and free of ">", is a message of that speaker:
    the prefix is "<nick>" and the message is what follows the tab. *)
Theorem classify_speaker_payload (nick msg : str) :
  nick ≠ [] → ">"%char ∉ nick → LF ∉ msg →
  classify_message ("<" ++ nick ++ ">" ++ TAB :: msg) = ("<" ++ nick ++ ">", msg).
Proof.
  intros Hne Hgt Hlf.
  destruct (speaker_match nick msg Hne Hgt Hlf) as (m & Hm & H1 & H2).
  unfold classify_message. by rewrite Hm, H1, H2.
Qed.

Lemma classify_speaker_payload_witness :
  classify_message ("<" ++ "alice" ++ ">" ++ TAB :: "hello there")
  = ("<" ++ "alice" ++ ">", "hello there" : str).
Proof.
  apply (classify_speaker_payload "alice" "hello there").
  - done.
  - decide_by_compute.
  - decide_by_compute.
Defined.

Ltac marker_fails :=
  rewrite marker_needs_prefix by reflexivity.

(** X4: the literal markers.  With a payload that is not empty and holds
    no line feed, "-->" keeps its prefix, "---" becomes the prefix "--" and
    "*" the prefix " *", the payload being the message; so does "<--" when
    the payload holds no ">" (with one, the speaker rule, tried first, may
    take the line). *)
Theorem classify_marker_payload (msg : str) :
  msg ≠ [] → LF ∉ msg →
  classify_message ("-->" ++ TAB :: msg) = ("-->" : str, msg)
  ∧ classify_message ("---" ++ TAB :: msg) = ("--" : str, msg)
  ∧ classify_message ("*" ++ TAB :: msg) = (" *" : str, msg)
  ∧ (">"%char ∉ msg → classify_message ("<--" ++ TAB :: msg) = ("<--" : str, msg)).
Proof.
  intros Hne Hlf.
  destruct (marker_match "-->" msg Hne Hlf) as (m1 & Hm1 & Hg1).
  destruct (marker_match "---" msg Hne Hlf) as (m2 & Hm2 & Hg2).
  destruct (marker_match "*" msg Hne Hlf) as (m3 & Hm3 & Hg3).
  destruct (marker_match "<--" msg Hne Hlf) as (m4 & Hm4 & Hg4).
  unfold classify_message. cbn [list_ascii_of_string app] in *.
  repeat split.
  - rewrite speaker_needs_lt by done. by rewrite Hm1, Hg1.
  - rewrite speaker_needs_lt by done. repeat marker_fails. by rewrite Hm2, Hg2.
  - rewrite speaker_needs_lt by done. repeat marker_fails. by rewrite Hm3, Hg3.
  - intros Hgt. rewrite speaker_needs_gt.
    2:{ rewrite !elem_of_cons. intros [H|[H|[H|[H|H]]]]; done. }
    repeat marker_fails. by rewrite Hm4, Hg4.
Qed.

Lemma classify_marker_payload_witness :
  classify_message ("-->" ++ TAB :: "bob has joined") = ("-->" : str, "bob has joined" : str)
  ∧ classify_message ("---" ++ TAB :: "bob has joined") = ("--" : str, "bob has joined" : str)
  ∧ classify_message ("*" ++ TAB :: "bob has joined") = (" *" : str, "bob has joined" : str)
  ∧ (">"%char ∉ ("bob has joined" : str) →
     classify_message ("<--" ++ TAB :: "bob has joined")
     = ("<--" : str, "bob has joined" : str)).
Proof.
  apply (classify_marker_payload "bob has joined").
  - done.
  - decide_by_compute.
Defined.

Lemma startswith_second_differs (a b c : ascii) (m text : str) :
  c ≠ b → startswith (a :: b :: m) (a :: c :: text) = false.
Proof.
  intros H. cbn. rewrite Ascii.eqb_refl. cbn.
  replace (Ascii.eqb b c) with false; [done|].
  symmetry. apply Ascii.eqb_neq. congruence.
Qed.

Lemma startswith_first_differs (a c : ascii) (m text : str) :
  c ≠ a → startswith (a :: m) (c :: text) = false.
Proof.
  intros H. cbn. replace (Ascii.eqb a c) with false; [done|].
  symmetry. apply Ascii.eqb_neq. congruence.
Qed.

(** X5: the notice rule.  "-nick-", a tab and a payload, the nick not empty
    and free of "-", the payload not empty and free of line feeds, is a
    system message "-nick- payload" with the prefix "--". *)
Theorem classify_notice_payload (nick msg : str) :
  nick ≠ [] → "-"%char ∉ nick → msg ≠ [] → LF ∉ msg →
  classify_message ("-" ++ nick ++ "-" ++ TAB :: msg)
  = ("--" : str, "-" ++ nick ++ "- " ++ msg).
Proof.
  intros Hne Hd Hmsg Hlf.
  destruct (bracket_match NOTICE_RE "-" "-" nick msg eq_refl Hne Hd Hmsg Hlf)
    as (m & Hm & H1 & H2).
  unfold classify_message. cbn [list_ascii_of_string app] in *.
  rewrite speaker_needs_lt by done.
  destruct nick as [|a nick]; [done|]. apply not_elem_of_cons in Hd as [Ha _].
  cbn [app] in *.
  rewrite (marker_needs_prefix ["-"; "-"; ">"]%char)
    by (by apply startswith_second_differs).
  rewrite (marker_needs_prefix ["<"; "-"; "-"]%char) by reflexivity.
  rewrite (marker_needs_prefix ["-"; "-"; "-"]%char)
    by (by apply startswith_second_differs).
  rewrite (marker_needs_prefix ["*"]%char) by reflexivity.
  by rewrite Hm, H1, H2.
Qed.

Lemma classify_notice_payload_witness :
  classify_message ("-" ++ "NickServ" ++ "-" ++ TAB :: "You are now identified")
  = ("--" : str, "-" ++ "NickServ" ++ "- " ++ "You are now identified").
Proof.
  apply (classify_notice_payload "NickServ" "You are now identified").
  - done.
  - decide_by_compute.
  - done.
  - decide_by_compute.
Defined.

(** X6: the outgoing rule.  ">nick<", a tab and a payload, the nick not
    empty and free of "<", the payload not empty and free of line feeds, is
    a system message ">nick< payload" with the prefix "--". *)
Theorem classify_outgoing_payload (nick msg : str) :
  nick ≠ [] → "<"%char ∉ nick → msg ≠ [] → LF ∉ msg →
  classify_message (">" ++ nick ++ "<" ++ TAB :: msg)
  = ("--" : str, ">" ++ nick ++ "< " ++ msg).
Proof.
  intros Hne Hd Hmsg Hlf.
  destruct (bracket_match OUTGOING_RE ">" "<" nick msg eq_refl Hne Hd Hmsg Hlf)
    as (m & Hm & H1 & H2).
  unfold classify_message. cbn [list_ascii_of_string app] in *.
  rewrite speaker_needs_lt by done.
  repeat marker_fails.
  unfold NOTICE_RE. rewrite (bracket_needs_first "-" "-" ">") by done.
  by rewrite Hm, H1, H2.
Qed.

Lemma classify_outgoing_payload_witness :
  classify_message (">" ++ "bob" ++ "<" ++ TAB :: "CTCP VERSION")
  = ("--" : str, ">" ++ "bob" ++ "< " ++ "CTCP VERSION").
Proof.
  apply (classify_outgoing_payload "bob" "CTCP VERSION").
  - done.
  - decide_by_compute.
  - done.
  - decide_by_compute.
Defined.

Lemma not_space_forall (s : str) :
  Forall (λ c, is_space c = false) s → Forall (λ c, not_space c = true) s.
Proof.
  intros H. eapply Forall_impl; [exact H|].
  intros c Hc. unfold not_space. by rewrite Hc.
Qed.

Lemma step_char_rest p s b t :
  m_rest s = b :: t →
  step_char p s = if p b then [MState (S (m_pos s)) t (m_caps s)] else [].
Proof. intros H. unfold step_char. by rewrite H. Qed.

Lemma query_match (a : ascii) (nick msg : str) :
  Forall (λ c, is_space c = false) (a :: nick) → msg ≠ [] → LF ∉ msg →
  ∃ m, re_match QUERY_RE ((a :: nick) ++ " >>" ++ TAB :: msg) = Some m
       ∧ group 1 m = a :: nick ∧ group 2 m = msg.
Proof.
  intros Hns Hmsg Hlf. pose proof (not_space_forall _ Hns) as Hns'.
  apply Forall_cons in Hns as [Ha Hnick]. apply Forall_cons in Hns' as [Ha' Hnick'].
  unfold re_match, QUERY_RE, start. cbn [list_ascii_of_string app].
  rewrite rmatch_rseq_cons. cbn [rmatch m_pos Nat.eqb flat_map]. rewrite app_nil_r.
  (* the leading white space: none *)
  rewrite rmatch_rseq_cons. cbn [rmatch m_rest].
  change (rmatch (RChar is_space)) with (step_char is_space).
  rewrite (star_class_tail is_space _ [] _ _ (a :: nick ++ " "%char :: ">"%char :: ">"%char :: TAB :: msg));
    [|done|done|done|done|].
  2:{ intros s b t Hs Hb. rewrite rmatch_rseq_cons. cbn [rmatch]. rewrite rmatch_plus_char.
      rewrite (step_char_rest _ _ _ _ Hs). unfold not_space. by rewrite Hb. }
  rewrite advance_0.
  (* the nick: the longest run goes first *)
  rewrite rmatch_rseq_cons. cbn [rmatch]. rewrite rmatch_plus_char.
  rewrite step_char_cons, Ha'. cbn [flat_map]. rewrite app_nil_r. cbn [m_rest].
  destruct (star_class_first not_space nick
              (MState 1 (nick ++ " "%char :: ">"%char :: ">"%char :: TAB :: msg) [])
              (length (nick ++ " "%char :: ">"%char :: ">"%char :: TAB :: msg))
              (" "%char :: ">"%char :: ">"%char :: TAB :: msg))
    as [others ->]; [done|done|done|done|].
  cbn [map]. eexists. split.
  - apply head_flat_map.
    (* the white space before the marker *)
    unfold set_group, advance. cbn [m_rest m_pos m_caps]. rewrite drop_app_length.
    rewrite rmatch_rseq_cons. cbn [rmatch m_rest].
    change (rmatch (RChar is_space)) with (step_char is_space).
    rewrite (star_class_tail is_space _ [" "%char] _ _ (">"%char :: ">"%char :: TAB :: msg));
      [|apply Forall_cons_2; [reflexivity|apply Forall_nil_2]|done|done|done|].
    2:{ intros s b t Hs Hb. rewrite rmatch_rseq_cons, rmatch_str. rewrite Hs.
        cbn [list_ascii_of_string startswith].
        replace (Ascii.eqb ">" b) with false; [done|].
        symmetry. apply Ascii.eqb_neq. intros <-. done. }
    rewrite rmatch_rseq_cons, rmatch_str.
    cbn [advance length m_rest m_pos m_caps drop].
    replace (startswith [">"%char; ">"%char] (">"%char :: ">"%char :: TAB :: msg))
      with true by done.
    cbn [flat_map]. rewrite app_nil_r.
    unfold advance. cbn [m_rest m_pos m_caps drop].
    rewrite tab_payload_match by done. reflexivity.
  - split; [|done]. unfold group. cbn [m_caps find fst snd Nat.eqb].
    replace (1 + length nick - 0) with (length (a :: nick)) by (cbn [length]; lia).
    apply (take_app_length (a :: nick)).
Qed.

(** X7: the query rule.  A nick without white space that does not begin
    with "<", "-" or ">", then " >>", a tab and a payload that is not empty
    and free of line feeds, is a message of that nick: the prefix is
    "<nick>" and the message is the payload. *)
Theorem classify_query_payload (a : ascii) (nick msg : str) :
  Forall (λ c, is_space c = false) (a :: nick) →
  a ∉ ["<"; "-"; ">"]%char →
  msg ≠ [] → LF ∉ msg →
  classify_message ((a :: nick) ++ " >>" ++ TAB :: msg)
  = ("<" ++ (a :: nick) ++ ">", msg).
Proof.
  intros Hns Ha Hmsg Hlf.
  destruct (query_match a nick msg Hns Hmsg Hlf) as (m & Hm & H1 & H2).
  assert (a ≠ "<"%char ∧ a ≠ "-"%char ∧ a ≠ ">"%char) as (Hlt & Hd & Hgt).
  { rewrite !not_elem_of_cons in Ha. tauto. }
  unfold classify_message. cbn [list_ascii_of_string app] in *.
  rewrite speaker_needs_lt by done.
  rewrite (marker_needs_prefix ["-"; "-"; ">"]%char)
    by (by apply startswith_first_differs).
  rewrite (marker_needs_prefix ["<"; "-"; "-"]%char)
    by (by apply startswith_first_differs).
  rewrite (marker_needs_prefix ["-"; "-"; "-"]%char)
    by (by apply startswith_first_differs).
  rewrite (marker_needs_prefix ["*"]%char).
  2:{ destruct (decide (a = "*"%char)) as [->|Hs]; [|by apply startswith_first_differs].
      cbn [app]. destruct nick as [|b nick]; cbn [app].
      - by apply startswith_second_differs.
      - apply startswith_second_differs. intros ->.
        apply Forall_cons in Hns as [_ Hns]. by apply Forall_cons in Hns as [Hb _]. }
  unfold NOTICE_RE. rewrite (bracket_needs_first "-" "-" a) by done.
  rewrite (marker_needs_prefix ["-"; "*"; "s"; "t"; "a"; "t"; "u"; "s"; "-"]%char)
    by (by apply startswith_first_differs).
  unfold OUTGOING_RE. rewrite (bracket_needs_first ">" "<" a) by done.
  by rewrite Hm, H1, H2.
Qed.

Lemma classify_query_payload_witness :
  classify_message (("b"%char :: "ob") ++ " >>" ++ TAB :: "are you there?")
  = ("<" ++ ("b"%char :: "ob") ++ ">", "are you there?" : str).
Proof.
  apply (classify_query_payload "b" "ob" "are you there?").
  - decide_by_compute.
  - decide_by_compute.
  - done.
  - decide_by_compute.
Defined.

(** Every text is a run of a class and a rest at which the class stops. *)
Lemma class_run (p : ascii → bool) (s : str) :
  ∃ x tail, s = x ++ tail ∧ Forall (λ a, p a = true) x ∧ class_stops p tail.
Proof.
  induction s as [|c s (x & tail & -> & Hx & Ht)].
  - by exists [], [].
  - destruct (p c) eqn:Hc.
    + exists (c :: x), tail. split; [done|]. split; [by constructor|done].
    + by exists [], (c :: x ++ tail).
Qed.

(** The payload tail at any cursor: it needs a tab and a first character
    of the payload, takes the payload up to the first line feed, and
    accepts when that is the end of the text or its final line feed. *)
Lemma tab_payload_run g pos caps x tail :
  Forall (λ a, is_dot a = true) x → class_stops is_dot tail →
  rmatch (rseq (TAB_PAYLOAD g)) (MState pos (TAB :: x ++ tail) caps)
  = match x with
    | [] => []
    | _ => if at_eol (MState 0 tail [])
           then [MState (S pos + length x) tail ((g, x) :: caps)] else []
    end.
Proof.
  intros Hx Ht.
  unfold TAB_PAYLOAD. rewrite rmatch_rseq_cons. cbn [rmatch RLit].
  rewrite step_char_cons. replace (is_char TAB TAB) with true by done.
  cbn [flat_map]. rewrite app_nil_r.
  rewrite rmatch_rseq_cons. cbn [rmatch]. rewrite rmatch_plus_char.
  destruct x as [|a x].
  - cbn [app]. destruct tail as [|c t]; [done|].
    rewrite step_char_cons. cbn in Ht. by rewrite Ht.
  - apply Forall_cons in Hx as [Ha Hx]. cbn [app].
    rewrite step_char_cons, Ha. cbn [flat_map]. rewrite app_nil_r. cbn [m_rest].
    rewrite flat_map_map.
    rewrite (star_class_tail is_dot _ x (MState (S (S pos)) (x ++ tail) caps) _ tail);
      [|done|done|done|done|].
    + cbn [rseq foldr rmatch]. unfold advance, set_group. cbn [m_pos m_rest m_caps].
      rewrite drop_app_length. unfold at_eol. cbn [m_rest].
      replace (take (S (S pos) + length x - S pos) (a :: x ++ tail)) with (a :: x).
      2:{ replace (S (S pos) + length x - S pos) with (length (a :: x))
            by (cbn [length]; lia).
          symmetry. apply (take_app_length (a :: x)). }
      replace (S (S pos) + length x) with (S pos + length (a :: x)) by (cbn [length]; lia).
      destruct tail as [|c [|c' t]]; cbn [flat_map app]; try done.
      destruct (Ascii.eqb c LF); done.
    + intros s b t Hs Hb. cbn [rseq foldr rmatch]. unfold at_eol, set_group. cbn [m_rest].
      rewrite Hs. destruct t; [|done].
      replace (Ascii.eqb b LF) with false; [done|].
      unfold is_dot in Hb. by apply negb_true_iff in Hb.
Qed.

Lemma tab_payload_needs_tab g st :
  (∀ t, m_rest st ≠ TAB :: t) → rmatch (rseq (TAB_PAYLOAD g)) st = [].
Proof.
  intros Hst. apply tab_payload_none. intros t Ht. by destruct (Hst t).
Qed.

(** A bracketed nick ahead of the payload tail. *)
Lemma bracket_rmatch (o c : ascii) nick rest :
  nick ≠ [] → c ∉ nick →
  rmatch (rseq ([RBol; RLit o; RGroup 1 (RPlus (RChar (not_char c))); RLit c]
                ++ TAB_PAYLOAD 2)) (start (o :: nick ++ c :: rest))
  = rmatch (rseq (TAB_PAYLOAD 2)) (MState (1 + length nick + 1) rest [(1, nick)]).
Proof.
  intros Hne Hc. unfold start. cbn [app].
  rewrite rmatch_rseq_cons. cbn [rmatch m_pos Nat.eqb flat_map]. rewrite app_nil_r.
  rewrite rmatch_rseq_cons. cbn [rmatch RLit].
  rewrite step_char_cons. replace (is_char o o) with true by (symmetry; apply Ascii.eqb_refl).
  cbn [flat_map]. rewrite app_nil_r.
  rewrite (group_plus_then 1 (not_char c) c _ _ nick rest);
    [done|done|by apply not_char_forall| |done].
  unfold not_char. by rewrite Ascii.eqb_refl.
Qed.

(** The rule for "-*status-" never decides: a text that its pattern
    matches is matched by the notice pattern before it, with the nick
    "*status" and the same payload. *)
Lemma status_rule_shadowed_match text m :
  re_match (MARKER_RE "-*status-") text = Some m →
  startswith "-*status-" text = true
  ∧ ∃ m', re_match NOTICE_RE text = Some m'
          ∧ group 1 m' = "*status" ∧ group 2 m' = group 1 m.
Proof.
  unfold re_match. rewrite rmatch_marker.
  destruct (startswith "-*status-" text) eqn:Hs; [|done].
  apply startswith_true in Hs as [rest ->].
  intros Hm. unfold advance, start in Hm. cbn [m_pos m_rest m_caps] in Hm.
  rewrite drop_app_length in Hm. split; [done|].
  change (("-*status-" : str) ++ rest)
    with ("-"%char :: ("*status" : str) ++ "-"%char :: rest).
  unfold NOTICE_RE. rewrite (bracket_rmatch "-" "-" "*status" rest); [|done|].
  2:{ apply not_elem_of_lit. reflexivity. }
  destruct rest as [|c body].
  { rewrite tab_payload_needs_tab in Hm; [done|]. by intros t. }
  destruct (decide (c = TAB)) as [->|Hc].
  2:{ rewrite tab_payload_needs_tab in Hm; [done|]. intros t [= ?]. done. }
  destruct (class_run is_dot body) as (x & tail & -> & Hx & Ht).
  rewrite tab_payload_run in Hm |- * by done.
  destruct x as [|a x]; [done|].
  destruct (at_eol _); [|done]. injection Hm as <-.
  eexists. split; [reflexivity|]. done.
Qed.

(** X8: the rule for "-*status-" never decides.  Whenever its pattern
    matches, the notice pattern, tried before it, matches too, with the
    nick "*status" and the same payload; the line is classified by the
    notice rule, and the result is the one the status rule would give. *)
Theorem status_rule_shadowed (text : str) (m : mstate) :
  re_match (MARKER_RE "-*status-") text = Some m →
  ∃ m', re_match NOTICE_RE text = Some m'
        ∧ group 1 m' = "*status" ∧ group 2 m' = group 1 m
        ∧ classify_message text = ("--" : str, "-*status- " ++ group 1 m).
Proof.
  intros Hm. destruct (status_rule_shadowed_match _ _ Hm) as (Hs & m' & Hm' & H1 & H2).
  exists m'. split; [done|]. split; [done|]. split; [done|].
  apply startswith_true in Hs as [rest ->].
  unfold classify_message. cbn [list_ascii_of_string app] in *.
  rewrite speaker_needs_lt by done.
  rewrite (marker_needs_prefix ["-"; "-"; ">"]%char) by reflexivity.
  rewrite (marker_needs_prefix ["<"; "-"; "-"]%char) by reflexivity.
  rewrite (marker_needs_prefix ["-"; "-"; "-"]%char) by reflexivity.
  rewrite (marker_needs_prefix ["*"]%char) by reflexivity.
  by rewrite Hm', H1, H2.
Qed.

Lemma status_rule_shadowed_witness :
  ∃ m', re_match NOTICE_RE ("-*status-" ++ TAB :: "You are away") = Some m'
        ∧ group 1 m' = "*status" ∧ group 2 m' = "You are away"
        ∧ classify_message ("-*status-" ++ TAB :: "You are away")
          = ("--" : str, "-*status- You are away" : str).
Proof.
  apply (status_rule_shadowed ("-*status-" ++ TAB :: "You are away")
           (MState 22 [] [(1, "You are away" : str)])).
  vm_compute. reflexivity.
Defined.

(** ** Colour stripping *)

(** Substitution by the empty string only deletes. *)
Lemma re_sub_from_sublist r s : ∀ pos skip, re_sub_from r pos skip s `sublist_of` s.
Proof.
  induction s as [|c t IH]; intros pos skip; cbn [re_sub_from]; [done|].
  destruct skip as [|k]; [|by apply sublist_cons].
  destruct (match_len r pos (c :: t)) as [[|k]|].
  - by apply sublist_skip.
  - by apply sublist_cons.
  - by apply sublist_skip.
Qed.

Lemma filter_all (p : ascii → bool) s :
  (∀ c, c ∈ s → p c = true) → List.filter p s = s.
Proof.
  induction s as [|c t IH]; intros H; [done|]. cbn [List.filter].
  rewrite H by left. rewrite IH; [done|]. intros x Hx. apply H. by right.
Qed.

Lemma re_sub_toggle t :
  re_sub TOGGLE_RE t = List.filter (λ c, negb (is_toggle c)) t.
Proof. apply re_sub_from_char. Qed.

Lemma strip_mirc_colors_clean s c :
  c ∈ strip_mirc_colors s → c ≠ X03 ∧ is_toggle c = false.
Proof.
  unfold strip_mirc_colors. rewrite re_sub_toggle, filter_elem_of.
  intros [Hin Hc]. split; [|by apply negb_true_iff].
  intros ->. by apply (re_sub_color_no_x03 s 0 0).
Qed.

Lemma strip_mirc_colors_sublist s : strip_mirc_colors s `sublist_of` s.
Proof.
  unfold strip_mirc_colors, re_sub.
  transitivity (re_sub_from COLOR_RE 0 0 s); apply re_sub_from_sublist.
Qed.

(** X9: [strip_mirc_colors] only deletes: its result is the text with some
    characters left out, in their order; and a text without colour
    introducer and without toggle is handed back as it is. *)
Theorem strip_mirc_colors_only_deletes (s : str) :
  strip_mirc_colors s `sublist_of` s
  ∧ ((∀ c, c ∈ s → c ≠ X03 ∧ is_toggle c = false) → strip_mirc_colors s = s).
Proof.
  split; [apply strip_mirc_colors_sublist|].
  - intros H. unfold strip_mirc_colors. rewrite re_sub_toggle. unfold re_sub.
    rewrite re_sub_color_id by (intros Hin; by destruct (H _ Hin)).
    apply filter_all.
    intros c Hc. destruct (H c Hc) as [_ Ht]. by rewrite Ht.
Qed.

(** ** The range of timestamps *)

Section Range.
Local Open Scope Z_scope.


Lemma days_before_year_succ y :
  days_before_year (y + 1) = days_before_year y + 365 + (if is_leap y then 1 else 0).
Proof.
  unfold days_before_year, is_leap.
  destruct (y mod 4 =? 0) eqn:E4, (y mod 100 =? 0) eqn:E100, (y mod 400 =? 0) eqn:E400;
    cbn [andb orb negb];
    repeat match goal with
    | H : (_ =? _) = true |- _ => apply Z.eqb_eq in H
    | H : (_ =? _) = false |- _ => apply Z.eqb_neq in H
    end; dlia.
Qed.

Lemma days_before_year_mono y y' : y <= y' → days_before_year y <= days_before_year y'.
Proof. unfold days_before_year. intros H. dlia. Qed.

Lemma month_within_year y m :
  1 <= m <= 12 →
  days_before_month y m + days_in_month y m <= 365 + (if is_leap y then 1 else 0).
Proof.
  intros Hm. unfold days_before_month, days_in_month.
  assert (m = 1 ∨ m = 2 ∨ m = 3 ∨ m = 4 ∨ m = 5 ∨ m = 6 ∨ m = 7 ∨ m = 8 ∨ m = 9
          ∨ m = 10 ∨ m = 11 ∨ m = 12) as Hcases by lia.
  destruct (is_leap y);
    repeat destruct Hcases as [->|Hcases]; try subst m; by vm_compute.
Qed.

Lemma ord2ymd_year n y m d :
  ord2ymd n = (y, m, d) → (MINYEAR <= y <= MAXYEAR ↔ 1 <= n <= 3652059).
Proof.
  intros (Hm & Hd & Hord)%ord2ymd_spec. unfold ymd2ord in Hord.
  pose proof (month_within_year y m Hm) as Hw.
  pose proof (days_before_year_succ y) as Hs.
  assert (0 <= days_before_month y m) as Hdbm.
  { unfold days_before_month.
    assert (0 <= DAYS_BEFORE_MONTH m).
    { assert (m = 1 ∨ m = 2 ∨ m = 3 ∨ m = 4 ∨ m = 5 ∨ m = 6 ∨ m = 7 ∨ m = 8 ∨ m = 9
              ∨ m = 10 ∨ m = 11 ∨ m = 12) as Hcases by lia.
      repeat destruct Hcases as [->|Hcases]; try subst m; by vm_compute. }
    destruct (_ && _); lia. }
  unfold MINYEAR, MAXYEAR.
  change 3652059 with (days_before_year 10000).
  assert (days_before_year 1 = 0) as H1 by done.
  split.
  - intros [Hlo Hhi].
    pose proof (days_before_year_mono 1 y Hlo).
    pose proof (days_before_year_mono (y + 1) 10000 ltac:(lia)). lia.
  - intros [Hlo Hhi].
    destruct (decide (1 <= y)) as [?|Hy].
    + split; [done|]. destruct (decide (y <= 9999)) as [?|Hy']; [done|].
      pose proof (days_before_year_mono 10000 y ltac:(lia)). lia.
    + pose proof (days_before_year_mono (y + 1) 1 ltac:(lia)). lia.
Qed.

Lemma fromtimestamp_range ts :
  (∃ dt, fromtimestamp ts = Ok dt) ↔ MIN_TIMESTAMP <= ts <= MAX_TIMESTAMP.
Proof.
  unfold fromtimestamp, MIN_TIMESTAMP, MAX_TIMESTAMP.
  destruct (ord2ymd (ts / 86400 + EPOCH_ORD)) as [[y m] d] eqn:E.
  apply ord2ymd_year in E. unfold EPOCH_ORD in E.
  destruct ((MINYEAR <=? y) && (y <=? MAXYEAR)) eqn:Hy.
  - apply andb_true_iff in Hy as [H1%Z.leb_le H2%Z.leb_le].
    split; [|by eexists]. intros _. apply proj1 in E. specialize (E (conj H1 H2)). dlia.
  - split; [by intros [dt ?]|]. intros Hr. exfalso.
    apply proj2 in E. destruct E as [H1 H2]; [dlia|].
    apply Z.leb_le in H1, H2. by rewrite H1, H2 in Hy.
Qed.

End Range.

(** ** Source lines *)

Lemma split_chars sep n s :
  Forall (λ p, ∀ c, c ∈ p → c ∈ s) (split sep n s).
Proof.
  revert s. induction n as [|n IH]; intros s; cbn [split].
  - by repeat constructor.
  - destruct (partition sep s) as [[a b]|] eqn:E; [|by repeat constructor].
    apply partition_Some in E as [-> _]. constructor.
    + intros c Hc. apply elem_of_app. by left.
    + eapply Forall_impl; [apply IH|]. intros p Hp c Hc.
      apply elem_of_app. right. right. by apply Hp.
Qed.

Lemma split_nth_chars sep n s i c :
  c ∈ nth i (split sep n s) [] → c ∈ s.
Proof.
  intros Hc. pose proof (split_chars sep n s) as Hall.
  rewrite Forall_forall in Hall.
  destruct (nth_in_or_default i (split sep n s) []) as [Hin|Hd].
  - apply list_elem_of_In in Hin. by eapply Hall.
  - rewrite Hd in Hc. by apply elem_of_nil in Hc.
Qed.

Lemma rstrip_chars cs s c : c ∈ rstrip cs s → c ∈ s.
Proof.
  intros Hc. destruct (rstrip_prefix cs s) as (w & Hw & _).
  rewrite Hw. apply elem_of_app. by left.
Qed.

Lemma allowed_control_cases c :
  disallowed c = false → 32 ≤ ord c ∨ c ∈ ALLOWED_CONTROL.
Proof.
  unfold disallowed. intros [H|H]%andb_false_iff.
  - left. apply Nat.ltb_ge in H. lia.
  - right. apply negb_false_iff in H. unfold member in H.
    apply existsb_exists in H as (x & Hx & He). apply Ascii.eqb_eq in He. subst x.
    by apply list_elem_of_In.
Qed.

(** The stages of [parse_hexchat_line] that a record or an exception has
    gone through. *)
Lemma parse_hexchat_line_stages line :
  let l := rstrip [LF; CR] line in
  let parts := split SPACE 2 l in
  (∀ r, parse_hexchat_line line = Ok (Some r) →
     startswith "T " l = true ∧ existsb disallowed l = false ∧ 3 ≤ length parts
     ∧ ∃ dt, int (nth 1 parts []) = Ok (fst (fst (fst r)))
             ∧ fromtimestamp (fst (fst (fst r))) = Ok dt
             ∧ r = (fst (fst (fst r)), strftime dt,
                    fst (classify_message (strip_mirc_colors (nth 2 parts []))),
                    snd (classify_message (strip_mirc_colors (nth 2 parts [])))))
  ∧ (∀ e, parse_hexchat_line line = Raise e ↔
       e = OutOfRangeError ∧ startswith "T " l = true ∧ existsb disallowed l = false
       ∧ 3 ≤ length parts
       ∧ ∃ ts, int (nth 1 parts []) = Ok ts
               ∧ (ts < MIN_TIMESTAMP ∨ MAX_TIMESTAMP < ts)%Z).
Proof.
  intros l parts. unfold parse_hexchat_line. fold l. fold parts.
  destruct (startswith "T " l); cbn [negb].
  2:{ split; [done|]. intros e. split; [done|]. by intros (_ & ? & _). }
  destruct (existsb disallowed l).
  { split; [done|]. intros e. split; [done|]. by intros (_ & _ & ? & _). }
  destruct (length parts <? 3)%nat eqn:Hlen.
  { apply Nat.ltb_lt in Hlen. split; [done|]. intros e. split; [done|].
    intros (_ & _ & _ & ? & _). lia. }
  apply Nat.ltb_ge in Hlen.
  destruct (int (nth 1 parts [])) as [ts|e'] eqn:Hint.
  2:{ apply int_raises_value_error in Hint as ->. split; [done|].
      intros e. split; [done|]. by intros (_ & _ & _ & _ & ts & ? & _). }
  pose proof (fromtimestamp_range ts) as Hrange.
  destruct (fromtimestamp ts) as [dt|e'] eqn:Hdt; cbn [rbind].
  - destruct (classify_message _) as [p m] eqn:Hcl. split.
    + intros r [= <-]. cbn [fst snd]. repeat split; try done. exists dt. by rewrite Hdt.
    + intros e. split; [done|]. intros (_ & _ & _ & _ & ts' & [= <-] & Hout).
      apply proj1 in Hrange. specialize (Hrange ltac:(by eexists)). lia.
  - split; [done|]. intros e. split.
    + intros [= <-]. unfold fromtimestamp in Hdt.
      destruct (ord2ymd _) as [[y m] d]. destruct (_ && _); [done|].
      injection Hdt as <-. repeat split; try done. exists ts. split; [done|].
      destruct (decide (MIN_TIMESTAMP ≤ ts ≤ MAX_TIMESTAMP)%Z) as [Hin|Hout]; [|lia].
      apply Hrange in Hin as [dt' ?]. done.
    + intros (-> & _ & _ & _ & ts' & [= <-] & Hout). f_equal.
      unfold fromtimestamp in Hdt.
      destruct (ord2ymd _) as [[y m] d]. destruct (_ && _); [done|]. by injection Hdt.
Qed.


Lemma rule_chars_printable c : c ∈ RULE_CHARS → 32 ≤ ord c.
Proof.
  intros H. vm_compute in H.
  repeat (apply elem_of_cons in H as [->|H]; [vm_compute; lia|]).
  by apply elem_of_nil in H.
Qed.

Lemma parse_hexchat_line_chars (line : str) (ts : Z) (dt_str prefix message : str) :
  parse_hexchat_line line = Ok (Some (ts, dt_str, prefix, message)) →
  (MIN_TIMESTAMP ≤ ts ≤ MAX_TIMESTAMP)%Z
  ∧ length dt_str = 19
  ∧ header_timestamp (snd (format_entry (ts, dt_str, prefix, message))) = Some ts
  ∧ (∀ c, c ∈ prefix ++ message →
       32 ≤ ord c ∨ c = TAB ∨ ((c = LF ∨ c = CR) ∧ c ∈ rstrip [LF; CR] line)).
Proof.
  intros Hp.
  destruct (proj1 (parse_hexchat_line_stages line) _ Hp)
    as (Hm & Hctl & Hlen & dt & Hint & Hdt & Hr).
  change (fst (fst (fst (ts, dt_str, prefix, message)))) with ts in *.
  set (raw := nth 2 (split SPACE 2 (rstrip [LF; CR] line)) []) in *.
  destruct (classify_message (strip_mirc_colors raw)) as [p m] eqn:Hcl.
  change (fst (p, m)) with p in Hr. change (snd (p, m)) with m in Hr.
  assert (dt_str = strftime dt ∧ prefix = p ∧ message = m) as (-> & -> & ->).
  { by injection Hr. }
  clear Hr.
  split; [apply fromtimestamp_range; by eexists|].
  split; [apply strftime_length|].
  split; [cbn [format_entry snd]; by apply header_timestamp_strftime|].
  intros c Hc.
  destruct (classified_from_text _ _ _ c Hcl Hc) as [Hclean|Hrule].
  2:{ left. by apply rule_chars_printable. }
  destruct (strip_mirc_colors_clean _ _ Hclean) as [Hx Ht].
  assert (c ∈ rstrip [LF; CR] line) as Hl.
  { apply (split_nth_chars SPACE 2 _ 2). fold raw.
    by apply (sublist_subseteq _ _ (strip_mirc_colors_sublist raw)). }
  assert (disallowed c = false) as Hd.
  { apply not_true_iff_false. intros Hd. apply not_true_iff_false in Hctl.
    apply Hctl. by eapply existsb_elem. }
  destruct (allowed_control_cases c Hd) as [?|Hin]; [by left|].
  right. unfold ALLOWED_CONTROL in Hin.
  unfold is_toggle, member, TOGGLES in Ht. cbn [existsb] in Ht.
  repeat (apply orb_false_iff in Ht as [? Ht]).
  repeat match goal with H : Ascii.eqb _ _ = false |- _ => apply Ascii.eqb_neq in H end.
  repeat (apply elem_of_cons in Hin as [->|Hin]); try done.
  - by left.
  - right. split; [by left|done].
  - right. split; [by right|done].
  - by apply elem_of_nil in Hin.
Qed.



(** ** Deduplication *)

Lemma dedup_sublist l : dedup l `sublist_of` l.
Proof.
  induction l as [|e l IH] using rev_ind; [done|].
  rewrite dedup_snoc. case_bool_decide.
  - by apply sublist_app.
  - by apply sublist_inserts_r.
Qed.

Lemma dedup_keeps_all l e : e ∈ l → e ∈ dedup l.
Proof.
  induction l as [|x l IH] using rev_ind; [done|].
  rewrite dedup_snoc. intros [Hin|Heq%list_elem_of_singleton]%elem_of_app; [|subst x].
  - case_bool_decide; [apply elem_of_app; left|]; by apply IH.
  - case_bool_decide as H; [apply elem_of_app; right; left|].
    apply IH. destruct (decide (Some e = last l)) as [Hl|]; [|done].
    symmetry in Hl. apply last_Some in Hl as [l' ->].
    apply elem_of_app. right. left.
Qed.

Lemma dedup_no_repeat l : ∀ l1 a b l2, dedup l = l1 ++ a :: b :: l2 → a ≠ b.
Proof.
  induction l as [|e l IH] using rev_ind; intros l1 a b l2.
  - by destruct l1.
  - rewrite dedup_snoc. case_bool_decide as Hne; [|apply IH].
    destruct l2 as [|c l2 _] using rev_ind.
    + change (l1 ++ [a; b]) with (l1 ++ [a] ++ [b]). rewrite (assoc_L (++)).
      intros [Hd ->]%app_inj_tail Heq. subst b. apply Hne.
      by rewrite <- dedup_last, Hd, last_snoc.
    + change (l1 ++ a :: b :: l2 ++ [c]) with (l1 ++ (a :: b :: l2) ++ [c]).
      rewrite (assoc_L (++)). intros [Hd _]%app_inj_tail. by eapply IH.
Qed.

Lemma dedup_fixed l :
  (∀ l1 a b l2, l = l1 ++ a :: b :: l2 → a ≠ b) → dedup l = l.
Proof.
  induction l as [|e l IH] using rev_ind; intros H; [done|].
  rewrite dedup_snoc, IH.
  - case_bool_decide as Hne; [done|]. exfalso.
    destruct (decide (Some e = last l)) as [Hl|]; [|done].
    symmetry in Hl. apply last_Some in Hl as [l' ->].
    apply (H l' e e []); [|done]. by rewrite <- (assoc_L (++)).
  - intros l1 a b l2 ->. apply (H l1 a b (l2 ++ [e])).
    by rewrite <- !(assoc_L (++)).
Qed.

Lemma StronglySorted_sublist {A} (R : A → A → Prop) (l1 l2 : list A) :
  l1 `sublist_of` l2 → StronglySorted R l2 → StronglySorted R l1.
Proof.
  induction 1 as [|x l1 l2 Hs IH|x l1 l2 Hs IH]; intros Hl2.
  - constructor.
  - apply StronglySorted_inv in Hl2 as [Hl Hx]. constructor; [by apply IH|].
    rewrite Forall_forall in *. intros y Hy. apply Hx.
    by apply (sublist_subseteq _ _ Hs).
  - apply StronglySorted_inv in Hl2 as [Hl _]. by apply IH.
Qed.

(** X12: the deduplication loop only deletes, keeps at least one copy of
    every entry, leaves no two equal neighbours, changes nothing when run
    again, and keeps a sorted list sorted. *)
Theorem dedup_properties (l : list entry) :
  dedup l `sublist_of` l
  ∧ (∀ e, e ∈ l ↔ e ∈ dedup l)
  ∧ (∀ l1 a b l2, dedup l = l1 ++ a :: b :: l2 → a ≠ b)
  ∧ dedup (dedup l) = dedup l
  ∧ (StronglySorted ts_le l → StronglySorted ts_le (dedup l)).
Proof.
  split; [apply dedup_sublist|]. split; [|split; [|split]].
  - intros e. split; [apply dedup_keeps_all|].
    apply (sublist_subseteq _ _ (dedup_sublist l)).
  - apply dedup_no_repeat.
  - apply dedup_fixed, dedup_no_repeat.
  - apply StronglySorted_sublist, dedup_sublist.
Qed.

(** ** Destination lines *)

Lemma strptime_shape s dt rest :
  strptime s = Ok dt →
  length s = 19 ∧ classes_ok HEADER_CLASSES (s ++ rest) = true
  ∧ Forall (λ c, 32 ≤ ord c) s.
Proof.
  unfold strptime.
  do 19 (destruct s as [|? s]; [done|]). destruct s; [|done].
  destruct (_ && _) eqn:Hc; [|done]. intros _.
  cbn [forallb] in Hc.
  repeat match goal with
  | H : _ && _ = true |- _ => apply andb_true_iff in H as [? ?]
  end.
  split; [done|]. split.
  - cbn [app classes_ok HEADER_CLASSES].
    repeat match goal with H : _ = true |- _ => rewrite H; clear H end. done.
  - repeat match goal with
    | H : is_char _ _ = true |- _ => apply Ascii.eqb_eq in H; subst
    end.
    assert (∀ c, is_digit c = true → 32 ≤ ord c) as Hd.
    { intros c [H1%Nat.leb_le _]%andb_true_iff. lia. }
    repeat (constructor; [first [by apply Hd|vm_compute; lia]|]). constructor.
Qed.

Lemma re_match_weechat_ok line rest :
  classes_ok HEADER_CLASSES line = true → drop 19 line = TAB :: rest →
  ∃ m, re_match WEECHAT_RE line = Some m ∧ group 1 m = take 19 line.
Proof.
  intros Hc Hd. unfold re_match, WEECHAT_RE.
  rewrite rmatch_rseq_cons. cbn [rmatch start m_pos Nat.eqb flat_map].
  rewrite app_nil_r, rmatch_rseq_cons. cbn [rmatch].
  change (rseq [RChar is_digit; RChar is_digit; RChar is_digit; RChar is_digit; RLit "-";
                RChar is_digit; RChar is_digit; RLit "-"; RChar is_digit; RChar is_digit;
                RLit " "; RChar is_digit; RChar is_digit; RLit ":"; RChar is_digit;
                RChar is_digit; RLit ":"; RChar is_digit; RChar is_digit])
    with (rseq (map RChar HEADER_CLASSES)).
  rewrite rmatch_classes. unfold start at 2. cbn [m_rest]. rewrite Hc.
  cbn [map flat_map]. rewrite app_nil_r.
  change (rmatch (rseq [RLit TAB])) with (λ st, flat_map (rmatch REps) (step_char (is_char TAB) st)).
  cbv beta. unfold step_char, start.
  cbn [advance set_group m_rest m_pos m_caps length HEADER_CLASSES Nat.add Nat.sub].
  rewrite Hd. replace (is_char TAB TAB) with true by done.
  cbn [flat_map rmatch app head]. by eexists.
Qed.

Lemma re_match_weechat_tab line m :
  re_match WEECHAT_RE line = Some m →
  classes_ok HEADER_CLASSES line = true ∧ ∃ rest, drop 19 line = TAB :: rest.
Proof.
  unfold re_match, WEECHAT_RE. rewrite rmatch_rseq_cons. cbn [rmatch start m_pos Nat.eqb flat_map].
  rewrite app_nil_r, rmatch_rseq_cons. cbn [rmatch].
  change (rseq [RChar is_digit; RChar is_digit; RChar is_digit; RChar is_digit; RLit "-";
                RChar is_digit; RChar is_digit; RLit "-"; RChar is_digit; RChar is_digit;
                RLit " "; RChar is_digit; RChar is_digit; RLit ":"; RChar is_digit;
                RChar is_digit; RLit ":"; RChar is_digit; RChar is_digit])
    with (rseq (map RChar HEADER_CLASSES)).
  rewrite rmatch_classes. unfold start at 2. cbn [m_rest].
  destruct (classes_ok HEADER_CLASSES line) eqn:Hc; cbn [map flat_map]; [|done].
  rewrite app_nil_r.
  change (rmatch (rseq [RLit TAB])) with (λ st, flat_map (rmatch REps) (step_char (is_char TAB) st)).
  cbv beta. unfold step_char, start.
  cbn [advance set_group m_rest m_pos m_caps length HEADER_CLASSES Nat.add Nat.sub].
  destruct (drop 19 line) as [|c t]; [done|].
  destruct (is_char TAB c) eqn:Ht; cbn [flat_map rmatch app head]; [|done].
  apply Ascii.eqb_eq in Ht. subst c. intros _. split; [done|]. by exists t.
Qed.

(** The lines [parse_weechat_line] accepts, and what it makes of them. *)
Lemma parse_weechat_line_accepts line e :
  parse_weechat_line line = Some e ↔
  ∃ header rest dt,
    rstrip [LF; CR] line = header ++ TAB :: rest
    ∧ strptime header = Ok dt
    ∧ e = (timestamp dt, rstrip [LF; CR] line).
Proof.
  unfold parse_weechat_line. set (l := rstrip [LF; CR] line). split.
  - destruct l as [|a l'] eqn:El; [done|]. rewrite <- El.
    destruct (re_match WEECHAT_RE l) as [m|] eqn:Hm; [|done].
    pose proof (re_match_weechat _ _ Hm) as Hg.
    apply re_match_weechat_tab in Hm as [_ [rest Hd]]. rewrite Hg.
    destruct (strptime (take 19 l)) as [dt|] eqn:Hdt; [|done].
    intros [= <-]. exists (take 19 l), rest, dt.
    by rewrite <- Hd, take_drop.
  - intros (header & rest & dt & Hl & Hdt & ->).
    destruct (strptime_shape header dt (TAB :: rest) Hdt) as (Hlen & Hc & _).
    rewrite <- Hl in Hc.
    destruct (re_match_weechat_ok l rest Hc) as (m & Hm & Hg).
    { rewrite Hl, <- Hlen. by rewrite drop_app_length. }
    destruct l as [|a l'] eqn:El; [by destruct header|]. rewrite <- El in *.
    rewrite Hm, Hg, Hl, <- Hlen, take_app_length, Hdt. done.
Qed.

Lemma rstrip_last cs s c : last (rstrip cs s) = Some c → member cs c = false.
Proof.
  induction s as [|a t IH]; cbn [rstrip]; [done|].
  destruct (rstrip cs t) as [|b r] eqn:E.
  - destruct (member cs a) eqn:Ha; [done|]. by intros [= <-].
  - intros H. apply IH. by destruct r.
Qed.

Lemma rstrip_idemp cs s : rstrip cs (rstrip cs s) = rstrip cs s.
Proof. apply rstrip_fixed. intros c. apply rstrip_last. Qed.

Lemma parse_weechat_line_rstrip l1 l2 :
  rstrip [LF; CR] l1 = rstrip [LF; CR] l2 → parse_weechat_line l1 = parse_weechat_line l2.
Proof. unfold parse_weechat_line. by intros ->. Qed.

Lemma parse_weechat_line_again line e :
  parse_weechat_line line = Some e → parse_weechat_line (snd e ++ [LF]) = Some e.
Proof.
  intros H. rewrite <- H. apply parse_weechat_line_rstrip.
  rewrite (parse_weechat_line_stored _ _ H).
  rewrite rstrip_app_strip by done. apply rstrip_idemp.
Qed.


(** X14: an entry that [parse_weechat_line] has returned is returned
    again for its own line followed by a line feed, as the merge writes
    it. *)
Theorem parse_weechat_line_reread (line : str) (e : entry) :
  parse_weechat_line line = Some e → parse_weechat_line (snd e ++ [LF]) = Some e.
Proof. apply parse_weechat_line_again. Qed.

Lemma parse_weechat_line_reread_witness :
  parse_weechat_line (snd BOB_ENTRY ++ [LF]) = Some BOB_ENTRY.
Proof.
  apply (parse_weechat_line_reread (BOB_LINE ++ [CR; LF]) BOB_ENTRY).
  vm_compute. reflexivity.
Defined.


Lemma no_break_app a b : no_break a → no_break b → no_break (a ++ b).
Proof.
  intros [H1 H2] [H3 H4]. split; intros [?|?]%elem_of_app; done.
Qed.

Lemma no_break_printable s : Forall (λ c, 32 ≤ ord c) s → no_break s.
Proof.
  intros H. rewrite Forall_forall in H.
  split; intros Hin; apply H in Hin; vm_compute in Hin; lia.
Qed.

Lemma parse_weechat_line_rereadable text line e :
  line ∈ file_lines text → parse_weechat_line line = Some e → rereadable e.
Proof.
  intros Hin Hp. split; [|by eapply parse_weechat_line_again].
  rewrite (parse_weechat_line_stored _ _ Hp).
  destruct (file_lines_shape _ _ Hin) as [(body & -> & Hb)|(_ & Hb & _)].
  - by rewrite rstrip_line_break.
  - by rewrite no_break_rstrip.
Qed.

Lemma parse_hexchat_line_rereadable text line r :
  line ∈ file_lines text → parse_hexchat_line line = Ok (Some r) →
  rereadable (format_entry r).
Proof.
  intros Hin Hp. destruct r as [[[ts d] p] m].
  assert (no_break (rstrip [LF; CR] line)) as Hl.
  { destruct (file_lines_shape _ _ Hin) as [(body & -> & Hb)|(_ & Hb & _)].
    - by rewrite rstrip_line_break.
    - by rewrite no_break_rstrip. }
  destruct (proj1 (parse_hexchat_line_stages line) _ Hp)
    as (_ & _ & _ & dt & _ & Hdt & Hr).
  change (fst (fst (fst (ts, d, p, m)))) with ts in *.
  assert (d = strftime dt) as -> by (by injection Hr). clear Hr.
  destruct (fromtimestamp_spec _ _ Hdt) as [Hv Hts].
  pose proof (strptime_strftime dt Hv) as Hsp.
  destruct (strptime_shape _ _ [] Hsp) as (_ & _ & Hprint).
  assert (no_break (strftime dt ++ [TAB] ++ p ++ [TAB] ++ m)) as Hnb.
  { assert (no_break [TAB]) as Htab.
    { split; intros H; by apply list_elem_of_singleton in H. }
    assert (no_break (p ++ m)) as [Hpm1 Hpm2].
    { destruct (parse_hexchat_line_chars _ _ _ _ _ Hp) as (_ & _ & _ & Hc).
      destruct Hl as [Hl1 Hl2].
      split; intros H; destruct (Hc _ H) as [Hord|[?|[_ ?]]]; try done.
      all: vm_compute in Hord; lia. }
    apply no_break_app; [by apply no_break_printable|].
    apply no_break_app; [done|].
    apply no_break_app.
    { split; intros H; [apply Hpm1|apply Hpm2]; apply elem_of_app; by left. }
    apply no_break_app; [done|].
    split; intros H; [apply Hpm1|apply Hpm2]; apply elem_of_app; by right. }
  split; [done|]. cbn [format_entry snd] in *.
  apply parse_weechat_line_accepts.
  exists (strftime dt), (p ++ [TAB] ++ m), dt.
  rewrite rstrip_line_break by done. by rewrite Hts.
Qed.



(** ** File names *)

Lemma endswith_app (p x : str) : endswith p (x ++ p) = true.
Proof. unfold endswith. rewrite rev_app_distr. apply startswith_app. Qed.

Lemma endswith_true (p s : str) : endswith p s = true → ∃ x, s = x ++ p.
Proof.
  unfold endswith. intros [x Hx]%startswith_true. exists (rev x).
  rewrite <- (rev_involutive s), Hx, rev_app_distr. by rewrite rev_involutive.
Qed.

Lemma filename_txt (base : str) :
  hexchat_to_weechat_filename (base ++ ".txt") = base ++ ".log".
Proof.
  unfold hexchat_to_weechat_filename. rewrite endswith_app.
  rewrite length_app. cbn [length list_ascii_of_string].
  replace (length base + 4 - 4) with (length base) by lia.
  by rewrite take_app_length.
Qed.

Lemma filename_other (name : str) :
  endswith ".txt" name = false → hexchat_to_weechat_filename name = name ++ ".log".
Proof. unfold hexchat_to_weechat_filename. by intros ->. Qed.

(** X16: [hexchat_to_weechat_filename] replaces a final ".txt" by ".log"
    and appends ".log" to any other name; the result ends in ".log"; on the
    names that end in ".txt" it is injective, and so is the destination
    path; a name without ".txt" shares its destination with the name that
    has ".txt" appended. *)
Theorem hexchat_to_weechat_filename_suffix :
  (∀ base : str, hexchat_to_weechat_filename (base ++ ".txt") = base ++ ".log")
  ∧ (∀ name : str, endswith ".txt" name = false →
       hexchat_to_weechat_filename name = name ++ ".log")
  ∧ (∀ name : str, endswith ".log" (hexchat_to_weechat_filename name) = true)
  ∧ (∀ a b : str, endswith ".txt" a = true → endswith ".txt" b = true →
       hexchat_to_weechat_filename a = hexchat_to_weechat_filename b → a = b)
  ∧ (∀ a b : str, endswith ".txt" a = true → endswith ".txt" b = true → a ≠ b →
       weechat_path_of a ≠ weechat_path_of b)
  ∧ (∀ name : str, endswith ".txt" name = false →
       hexchat_to_weechat_filename (name ++ ".txt") = hexchat_to_weechat_filename name).
Proof.
  assert (∀ a b : str, endswith ".txt" a = true → endswith ".txt" b = true →
            hexchat_to_weechat_filename a = hexchat_to_weechat_filename b → a = b) as Hinj.
  { intros a b [x ->]%endswith_true [y ->]%endswith_true.
    rewrite !filename_txt. intros H. apply app_inv_tail in H. by subst. }
  split; [apply filename_txt|]. split; [apply filename_other|]. split; [|split; [done|split]].
  - intros name. unfold hexchat_to_weechat_filename. cbv zeta. apply endswith_app.
  - intros a b Ha Hb Hne Heq. apply Hne, Hinj; [done|done|].
    unfold weechat_path_of, join in Heq. by do 2 apply app_inv_head in Heq.
  - intros name Hn. by rewrite filename_txt, filename_other.
Qed.

(** ** The run over the files *)

Lemma convert_lines_app l1 l2 :
  convert_lines (l1 ++ l2)
  = rbind (convert_lines l1) (λ a, rbind (convert_lines l2) (λ b, Ok (a ++ b))).
Proof.
  induction l1 as [|line rest IH]; cbn [app convert_lines].
  - cbn [rbind]. by destruct (convert_lines l2).
  - destruct (parse_hexchat_line line) as [r|e]; [|done]. cbn [rbind].
    rewrite IH. destruct (convert_lines rest) as [a|e]; [|done]. cbn [rbind].
    destruct (convert_lines l2) as [b|e]; [|done]. cbn [rbind].
    by destruct r.
Qed.

Lemma convert_lines_ok lines es :
  convert_lines lines = Ok es → es = omap hexchat_entry lines.
Proof.
  revert es. induction lines as [|line rest IH]; intros es; cbn [convert_lines].
  - by intros [= <-].
  - change (omap hexchat_entry (line :: rest))
      with (match hexchat_entry line with
            | Some e => e :: omap hexchat_entry rest
            | None => omap hexchat_entry rest
            end).
    unfold hexchat_entry at 1.
    destruct (parse_hexchat_line line) as [r|e]; [|done]. cbn [rbind].
    destruct (convert_lines rest) as [a|e]; [|done]. cbn [rbind].
    intros [= <-]. rewrite (IH a eq_refl). by destruct r.
Qed.


Lemma read_hexchat_files subdirs b w :
  ∃ new, snd (read_hexchat subdirs b w) = World (files w) (new ++ trace w)
         ∧ Forall (λ ev, ∃ subdir, subdir ∈ subdirs
                          ∧ (ev = EvExists (join (join HEXCHAT_DIR subdir) b)
                             ∨ ev = EvRead (join (join HEXCHAT_DIR subdir) b))) new.
Proof.
  revert w. induction subdirs as [|subdir rest IH]; intros w; cbn [read_hexchat].
  - exists []. split; [by destruct w|constructor].
  - unfold bind at 1. unfold path_exists at 1.
    set (p := join (join HEXCHAT_DIR subdir) b).
    assert (∀ w1 evs here,
              files w1 = files w → trace w1 = evs ++ trace w →
              Forall (λ ev, ev = EvExists p ∨ ev = EvRead p) evs →
              ∃ new, snd (bind (read_hexchat rest b) (λ there, ret (here ++ there)) w1)
                     = World (files w) (new ++ trace w)
                ∧ Forall (λ ev, ∃ s, s ∈ subdir :: rest
                            ∧ (ev = EvExists (join (join HEXCHAT_DIR s) b)
                               ∨ ev = EvRead (join (join HEXCHAT_DIR s) b))) new) as Hrest.
    { intros w1 evs here Hf Ht Hev. destruct (IH w1) as (new & Hw & Hnew).
      exists (new ++ evs). unfold bind.
      destruct (read_hexchat rest b w1) as [[there|e] w2]; cbn [snd ret] in *;
        subst w2; rewrite Hf, Ht, (assoc_L (++)); (split; [done|]);
        (apply Forall_app; split;
         [eapply Forall_impl; [exact Hnew|]; intros ev (s & Hs & H); exists s; split; [by right|done]
         |eapply Forall_impl; [exact Hev|]; intros ev H; exists subdir; split; [by left|done]]). }
    assert (∀ ev, ev = EvExists p ∨ ev = EvRead p →
              ∃ s, s ∈ subdir :: rest
                   ∧ (ev = EvExists (join (join HEXCHAT_DIR s) b)
                      ∨ ev = EvRead (join (join HEXCHAT_DIR s) b))) as Hhere.
    { intros ev H. exists subdir. split; [by left|done]. }
    assert (Forall (λ ev, ev = EvExists p ∨ ev = EvRead p) [EvRead p; EvExists p]) as H2.
    { apply Forall_cons; split; [by right|]. apply Forall_singleton. by left. }
    destruct (bool_decide _).
    + unfold bind at 1. unfold bind at 1. unfold read_lines.
      cbn [files emit]. destruct (files w !! p) as [text|].
      * unfold lift. destruct (convert_lines (file_lines text)) as [here|e].
        -- by apply (Hrest _ [EvRead p; EvExists p]).
        -- exists [EvRead p; EvExists p]. split; [done|].
           eapply Forall_impl; [exact H2|exact Hhere].
      * exists [EvRead p; EvExists p]. split; [done|].
        eapply Forall_impl; [exact H2|exact Hhere].
    + unfold bind at 1. unfold ret at 1.
      apply (Hrest _ [EvExists p]); [done|done|]. apply Forall_singleton. by left.
Qed.

Lemma read_hexchat_convert subdirs b : ∀ w,
  fst (read_hexchat subdirs b w) = convert_lines (hexchat_lines subdirs b (files w)).
Proof.
  induction subdirs as [|subdir rest IH]; intros w; cbn [read_hexchat hexchat_lines flat_map].
  - done.
  - rewrite convert_lines_app. fold (hexchat_lines rest b (files w)).
    unfold bind at 1. unfold path_exists at 1.
    set (p := join (join HEXCHAT_DIR subdir) b).
    destruct (files w !! p) as [text|] eqn:Hp.
    + rewrite bool_decide_true by done.
      unfold bind at 1. unfold bind at 1. unfold read_lines. cbn [files emit]. rewrite Hp.
      unfold lift. destruct (convert_lines (file_lines text)) as [here|e]; [|done].
      cbn [rbind]. unfold bind.
      pose proof (IH (emit (EvRead p) (emit (EvExists p) w))) as Hr. cbn [files emit] in Hr.
      destruct (read_hexchat rest b _) as [[there|e] w2]; cbn [fst] in Hr; by rewrite <- Hr.
    + rewrite bool_decide_false by (by intros [? ?]).
      unfold bind at 1. unfold ret at 1. cbn [convert_lines rbind].
      unfold bind.
      pose proof (IH (emit (EvExists p) w)) as Hr. cbn [files emit] in Hr.
      destruct (read_hexchat rest b _) as [[there|e] w2]; cbn [fst] in Hr; by rewrite <- Hr.
Qed.

Lemma read_weechat_spec p w :
  read_weechat p w
  = (Ok (weechat_entries p (files w)),
     World (files w)
       ((if bool_decide (is_Some (files w !! p)) then [EvRead p; EvExists p] else [EvExists p])
        ++ trace w)).
Proof.
  unfold read_weechat, weechat_entries, bind, path_exists.
  destruct (files w !! p) as [text|] eqn:Hp.
  - rewrite bool_decide_true by done. unfold read_lines. cbn [files emit]. by rewrite Hp.
  - rewrite bool_decide_false by (by intros [? ?]). done.
Qed.

(** X17: the loop over the subdirectories is the conversion of the lines
    of the source files that exist, taken in the order of the
    subdirectories and, within a file, in the order of the lines; the
    entries are those of the lines that yield a record; no file changes,
    and the only accesses are existence tests and reads of source files. *)
Theorem read_hexchat_in_subdir_order
  (subdirs : list str) (hexchat_basename : str) (w : world) :
  fst (read_hexchat subdirs hexchat_basename w)
  = convert_lines (hexchat_lines subdirs hexchat_basename (files w))
  ∧ (∀ hex, fst (read_hexchat subdirs hexchat_basename w) = Ok hex →
       hex = omap hexchat_entry (hexchat_lines subdirs hexchat_basename (files w)))
  ∧ (∀ s1 s2, hexchat_lines (s1 ++ s2) hexchat_basename (files w)
              = hexchat_lines s1 hexchat_basename (files w)
                ++ hexchat_lines s2 hexchat_basename (files w))
  ∧ ∃ new,
      snd (read_hexchat subdirs hexchat_basename w) = World (files w) (new ++ trace w)
      ∧ Forall (λ ev, ∃ subdir, subdir ∈ subdirs
                  ∧ (ev = EvExists (join (join HEXCHAT_DIR subdir) hexchat_basename)
                     ∨ ev = EvRead (join (join HEXCHAT_DIR subdir) hexchat_basename)))
               new.
Proof.
  split; [apply read_hexchat_convert|]. split; [|split].
  - intros hex. rewrite read_hexchat_convert. apply convert_lines_ok.
  - intros s1 s2. unfold hexchat_lines. apply flat_map_app.
  - apply read_hexchat_files.
Qed.

Lemma file_lines_from_line body : ∀ cur rest,
  no_break body →
  file_lines_from cur (body ++ LF :: rest) = (cur ++ body ++ [LF]) :: file_lines_from [] rest.
Proof.
  induction body as [|c body IH]; intros cur rest [Hl Hr]; cbn [app file_lines_from].
  - by rewrite Ascii.eqb_refl.
  - assert (c ≠ LF) as H1 by (intros ->; apply Hl; by left).
    assert (c ≠ CR) as H2 by (intros ->; apply Hr; by left).
    apply Ascii.eqb_neq in H1, H2. rewrite H1, H2.
    rewrite IH, <- (assoc_L (++)); [done|].
    split; [intros H; apply Hl|intros H; apply Hr]; by right.
Qed.

Lemma file_lines_serialize es :
  Forall (λ e, no_break (snd e)) es →
  file_lines (serialize es) = map (λ e, snd e ++ [LF]) es.
Proof.
  unfold file_lines, serialize. induction 1 as [|e es He _ IH]; [done|].
  cbn [map concat]. rewrite <- (assoc_L (++)). cbn [app].
  by rewrite file_lines_from_line, IH.
Qed.


Lemma hexchat_lines_file subdirs b fs line :
  line ∈ hexchat_lines subdirs b fs →
  ∃ subdir text, subdir ∈ subdirs
    ∧ fs !! join (join HEXCHAT_DIR subdir) b = Some text ∧ line ∈ file_lines text.
Proof.
  unfold hexchat_lines. intros (subdir & Hs & Hl)%elem_of_flat_map.
  destruct (fs !! _) as [text|] eqn:Hp; [|by apply elem_of_nil in Hl].
  by exists subdir, text.
Qed.

Lemma hexchat_entries_rereadable subdirs b fs :
  Forall rereadable (omap hexchat_entry (hexchat_lines subdirs b fs)).
Proof.
  apply Forall_forall. intros e (line & Hin & He)%list_elem_of_omap.
  apply hexchat_lines_file in Hin as (subdir & text & _ & _ & Hin).
  unfold hexchat_entry in He.
  destruct (parse_hexchat_line line) as [[r|]|] eqn:Hp; try done.
  injection He as <-. by eapply parse_hexchat_line_rereadable.
Qed.

Lemma weechat_entries_rereadable p fs : Forall rereadable (weechat_entries p fs).
Proof.
  unfold weechat_entries. destruct (fs !! p) as [text|]; [|constructor].
  apply Forall_forall. intros e (line & Hin & He)%list_elem_of_omap.
  by eapply parse_weechat_line_rereadable.
Qed.


(** [process_file] as a function of the files. *)
Lemma process_file_cases b w :
  ∃ new,
    Forall (λ ev, ∃ subdir, subdir ∈ SUBDIRS
                   ∧ (ev = EvExists (join (join HEXCHAT_DIR subdir) b)
                      ∨ ev = EvRead (join (join HEXCHAT_DIR subdir) b))) new
    ∧ match convert_lines (hexchat_lines SUBDIRS b (files w)) with
      | Raise e => process_file b w = (Raise e, World (files w) (new ++ trace w))
      | Ok hex =>
          if (length hex =? 0)%nat
          then process_file b w = (Ok (0, 0, 0), World (files w) (new ++ trace w))
          else
            let wp := weechat_path_of b in
            let wee := weechat_entries wp (files w) in
            let deduped := dedup (sort_entries (hex ++ wee)) in
            process_file b w
            = (Ok (length hex, length wee, length deduped),
               World (<[wp := serialize deduped]> (files w))
                 (EvWrite wp
                  :: (if bool_decide (is_Some (files w !! wp))
                      then [EvRead wp; EvExists wp] else [EvExists wp])
                  ++ new ++ trace w))
      end.
Proof.
  destruct (read_hexchat_files SUBDIRS b w) as (new & Hw & Hnew).
  exists new. split; [done|].
  pose proof (read_hexchat_convert SUBDIRS b w) as Hr.
  rewrite <- Hr.
  assert (read_hexchat SUBDIRS b w
          = (fst (read_hexchat SUBDIRS b w), World (files w) (new ++ trace w))) as Hrun.
  { rewrite <- Hw. by destruct (read_hexchat SUBDIRS b w). }
  clear Hw Hr.
  destruct (fst (read_hexchat SUBDIRS b w)) as [hex|e].
  - destruct (length hex =? 0)%nat eqn:Hlen.
    + unfold process_file, bind. by rewrite Hrun, Hlen.
    + cbv zeta. unfold process_file. cbv zeta. fold (weechat_path_of b).
      unfold bind at 1. rewrite Hrun, Hlen. unfold bind at 1.
      rewrite read_weechat_spec. reflexivity.
  - unfold process_file, bind. by rewrite Hrun.
Qed.


Lemma process_file_ok b w h c n :
  fst (process_file b w) = Ok (h, c, n) → h ≠ 0 →
  let hex := omap hexchat_entry (hexchat_lines SUBDIRS b (files w)) in
  let wee := weechat_entries (weechat_path_of b) (files w) in
  let deduped := dedup (sort_entries (hex ++ wee)) in
  h = length hex ∧ c = length wee ∧ n = length deduped
  ∧ files (snd (process_file b w)) = <[weechat_path_of b := serialize deduped]> (files w).
Proof.
  intros Hok Hh. destruct (process_file_cases b w) as (new & _ & Hcase).
  destruct (convert_lines _) as [hex|e] eqn:Hc.
  2:{ rewrite Hcase in Hok. done. }
  apply convert_lines_ok in Hc. subst hex.
  destruct (length _ =? 0)%nat.
  { rewrite Hcase in Hok. injection Hok as <- _ _. done. }
  cbv zeta in Hcase |- *. rewrite Hcase in Hok |- *. cbn [fst snd files] in *.
  by injection Hok as <- <- <-.
Qed.

Lemma merged_rereadable b fs :
  let hex := omap hexchat_entry (hexchat_lines SUBDIRS b fs) in
  let wee := weechat_entries (weechat_path_of b) fs in
  Forall rereadable (dedup (sort_entries (hex ++ wee))).
Proof.
  intros hex wee. apply Forall_forall. intros e He.
  apply (sublist_subseteq _ _ (dedup_sublist _)) in He.
  rewrite sort_entries_perm in He.
  revert e He. apply Forall_forall, Forall_app. split.
  - apply hexchat_entries_rereadable.
  - apply weechat_entries_rereadable.
Qed.


(** X19: whatever its outcome, [process_file] changes no file but the
    destination of its argument: every other path, the source files among
    them, holds what it held; a destination that existed still exists; and
    the trace of accesses only grows. *)
Theorem process_file_frame (hexchat_basename : str) (w : world) :
  let w' := snd (process_file hexchat_basename w) in
  (∀ p, p ≠ weechat_path_of hexchat_basename → files w' !! p = files w !! p)
  ∧ (∀ subdir name,
       files w' !! join (join HEXCHAT_DIR subdir) name
       = files w !! join (join HEXCHAT_DIR subdir) name)
  ∧ (is_Some (files w !! weechat_path_of hexchat_basename) →
     is_Some (files w' !! weechat_path_of hexchat_basename))
  ∧ ∃ new, trace w' = new ++ trace w.
Proof.
  intros w'.
  assert (∀ p, p ≠ weechat_path_of hexchat_basename → files w' !! p = files w !! p) as Hframe.
  { intros p Hp. subst w'.
    destruct (process_file_cases hexchat_basename w) as (new & _ & Hcase).
    destruct (convert_lines _) as [hex|e]; [|by rewrite Hcase].
    destruct (length hex =? 0)%nat; cbv zeta in Hcase; rewrite Hcase; [done|].
    cbn [snd files]. by rewrite lookup_insert_ne. }
  split; [done|]. split; [|split].
  - intros subdir name. apply Hframe. apply hexchat_path_not_weechat.
  - subst w'.
    destruct (process_file_cases hexchat_basename w) as (new & _ & Hcase).
    destruct (convert_lines _) as [hex|e]; [|by rewrite Hcase].
    destruct (length hex =? 0)%nat; cbv zeta in Hcase; rewrite Hcase; [done|].
    cbn [snd files]. intros _. rewrite lookup_insert_eq. by eexists.
  - subst w'.
    destruct (process_file_cases hexchat_basename w) as (new & _ & Hcase).
    destruct (convert_lines _) as [hex|e]; [|rewrite Hcase; by exists new].
    destruct (length hex =? 0)%nat; cbv zeta in Hcase; rewrite Hcase; [by exists new|].
    cbn [snd trace].
    match goal with
    | |- ∃ n, ?a :: ?evs ++ new ++ _ = _ => exists (a :: evs ++ new)
    end.
    cbn [app]. by rewrite <- (assoc_L (++)).
Qed.



(** X21: after a run that converted at least one line, [hex_count] is the
    number of source lines that yield a record, [weechat_count] the number
    of lines of the old destination that [parse_weechat_line] accepts, and
    the lines of the new destination are exactly the lines of these
    entries: nothing accepted is lost and nothing else is written. *)
Theorem process_file_merges_both
  (hexchat_basename : str) (w : world) (hex_count weechat_count final : nat) :
  fst (process_file hexchat_basename w) = Ok (hex_count, weechat_count, final) →
  hex_count ≠ 0 →
  let weechat_path := weechat_path_of hexchat_basename in
  hex_count = length (omap hexchat_entry (hexchat_lines SUBDIRS hexchat_basename (files w)))
  ∧ weechat_count = length (weechat_entries weechat_path (files w))
  ∧ ∃ text,
      files (snd (process_file hexchat_basename w)) !! weechat_path = Some text
      ∧ ∀ out, out ∈ file_lines text ↔
          (∃ line e, line ∈ hexchat_lines SUBDIRS hexchat_basename (files w)
                     ∧ hexchat_entry line = Some e ∧ out = snd e ++ [LF])
          ∨ (∃ old line e, files w !! weechat_path = Some old
                           ∧ line ∈ file_lines old
                           ∧ parse_weechat_line line = Some e ∧ out = snd e ++ [LF]).
Proof.
  intros Hok Hh weechat_path. subst weechat_path.
  destruct (process_file_ok _ _ _ _ _ Hok Hh) as (Hhex & Hwee & Hn & Hfiles).
  pose proof (merged_rereadable hexchat_basename (files w)) as Hre. cbv zeta in Hre.
  set (hex := omap hexchat_entry (hexchat_lines SUBDIRS hexchat_basename (files w))) in *.
  set (wee := weechat_entries (weechat_path_of hexchat_basename) (files w)) in *.
  set (deduped := dedup (sort_entries (hex ++ wee))) in *.
  split; [done|]. split; [done|].
  exists (serialize deduped). split; [by rewrite Hfiles, lookup_insert_eq|].
  intros out. rewrite file_lines_serialize.
  2:{ eapply Forall_impl; [exact Hre|]. by intros e [? _]. }
  rewrite list_elem_of_fmap.
  assert (∀ e, e ∈ deduped ↔ e ∈ hex ∨ e ∈ wee) as Hmem.
  { intros e. subst deduped. split.
    - intros He. apply (sublist_subseteq _ _ (dedup_sublist _)) in He.
      rewrite sort_entries_perm in He. by apply elem_of_app in He.
    - intros He. apply dedup_keeps_all. rewrite sort_entries_perm. by apply elem_of_app. }
  split.
  - intros (e & -> & [He|He]%Hmem).
    + left. apply list_elem_of_omap in He as (line & Hin & He). by exists line, e.
    + right. unfold wee, weechat_entries in He.
      destruct (files w !! weechat_path_of hexchat_basename) as [old|] eqn:Hold;
        [|by apply elem_of_nil in He].
      apply list_elem_of_omap in He as (line & Hin & He). by exists old, line, e.
  - intros [(line & e & Hin & He & ->)|(old & line & e & Hold & Hin & He & ->)].
    + exists e. split; [done|]. apply Hmem. left. apply list_elem_of_omap. by exists line.
    + exists e. split; [done|]. apply Hmem. right. unfold wee, weechat_entries.
      rewrite Hold. apply list_elem_of_omap. by exists line.
Qed.

Lemma process_file_merges_both_witness :
  2 = length (omap hexchat_entry (hexchat_lines SUBDIRS CHAN_TXT (files MERGE_WORLD)))
  ∧ 1 = length (weechat_entries (weechat_path_of CHAN_TXT) (files MERGE_WORLD))
  ∧ ∃ text,
      files (snd (process_file CHAN_TXT MERGE_WORLD)) !! weechat_path_of CHAN_TXT = Some text
      ∧ ∀ out, out ∈ file_lines text ↔
          (∃ line e, line ∈ hexchat_lines SUBDIRS CHAN_TXT (files MERGE_WORLD)
                     ∧ hexchat_entry line = Some e ∧ out = snd e ++ [LF])
          ∨ (∃ old line e, files MERGE_WORLD !! weechat_path_of CHAN_TXT = Some old
                           ∧ line ∈ file_lines old
                           ∧ parse_weechat_line line = Some e ∧ out = snd e ++ [LF]).
Proof.
  apply (process_file_merges_both CHAN_TXT MERGE_WORLD 2 1 2).
  - vm_compute. reflexivity.
  - lia.
Defined.

Lemma process_file_files b w :
  files (snd (process_file b w)) = written (weechat_path_of b) (merged_text b (files w)) (files w).
Proof.
  destruct (process_file_cases b w) as (new & _ & Hcase). unfold merged_text.
  destruct (convert_lines _) as [hex|e]; [|by rewrite Hcase].
  destruct (length hex =? 0)%nat; cbv zeta in Hcase; by rewrite Hcase.
Qed.

Lemma process_file_result b w1 w2 :
  hexchat_lines SUBDIRS b (files w1) = hexchat_lines SUBDIRS b (files w2) →
  files w1 !! weechat_path_of b = files w2 !! weechat_path_of b →
  fst (process_file b w1) = fst (process_file b w2)
  ∧ merged_text b (files w1) = merged_text b (files w2).
Proof.
  intros Hh Hw.
  destruct (process_file_cases b w1) as (new1 & _ & Hc1).
  destruct (process_file_cases b w2) as (new2 & _ & Hc2).
  unfold merged_text, weechat_entries in *. rewrite <- Hh, <- Hw in *.
  destruct (convert_lines _) as [hex|e]; [|by rewrite Hc1, Hc2].
  destruct (length hex =? 0)%nat; cbv zeta in Hc1, Hc2; by rewrite Hc1, Hc2.
Qed.

Lemma hexchat_lines_frame subdirs b p t fs :
  (∀ subdir, p ≠ join (join HEXCHAT_DIR subdir) b) →
  hexchat_lines subdirs b (<[p := t]> fs) = hexchat_lines subdirs b fs.
Proof.
  intros Hp. unfold hexchat_lines. induction subdirs as [|s rest IH]; [done|].
  cbn [flat_map]. rewrite IH. by rewrite lookup_insert_ne by apply Hp.
Qed.

Lemma process_file_after a b w :
  weechat_path_of a ≠ weechat_path_of b →
  fst (process_file b (snd (process_file a w))) = fst (process_file b w)
  ∧ merged_text b (files (snd (process_file a w))) = merged_text b (files w).
Proof.
  intros Hne. apply process_file_result; rewrite process_file_files.
  - destruct (merged_text a (files w)) as [t|]; [|done]. cbn [written].
    apply hexchat_lines_frame. intros subdir H. symmetry in H.
    by apply hexchat_path_not_weechat in H.
  - destruct (merged_text a (files w)) as [t|]; [|done]. cbn [written].
    by rewrite lookup_insert_ne.
Qed.

(** X22: two runs of [process_file] on names with different destinations
    do not interfere: each returns what it returns when run alone, and the
    files after both runs do not depend on their order. *)
Theorem process_file_commutes (a b : str) (w : world) :
  weechat_path_of a ≠ weechat_path_of b →
  fst (process_file b (snd (process_file a w))) = fst (process_file b w)
  ∧ fst (process_file a (snd (process_file b w))) = fst (process_file a w)
  ∧ files (snd (process_file b (snd (process_file a w))))
    = files (snd (process_file a (snd (process_file b w)))).
Proof.
  intros Hne.
  destruct (process_file_after a b w Hne) as [Hb Hmb].
  destruct (process_file_after b a w (not_eq_sym Hne)) as [Ha Hma].
  split; [done|]. split; [done|].
  rewrite (process_file_files b), (process_file_files a (snd (process_file b w))).
  rewrite Hmb, Hma, !process_file_files.
  destruct (merged_text a (files w)) as [ta|], (merged_text b (files w)) as [tb|];
    cbn [written]; try done.
  by apply insert_insert_ne.
Qed.

Lemma process_file_commutes_witness :
  fst (process_file OTHER_TXT (snd (process_file CHAN_TXT TWO_WORLD)))
  = fst (process_file OTHER_TXT TWO_WORLD)
  ∧ fst (process_file CHAN_TXT (snd (process_file OTHER_TXT TWO_WORLD)))
    = fst (process_file CHAN_TXT TWO_WORLD)
  ∧ files (snd (process_file OTHER_TXT (snd (process_file CHAN_TXT TWO_WORLD))))
    = files (snd (process_file CHAN_TXT (snd (process_file OTHER_TXT TWO_WORLD)))).
Proof.
  apply (process_file_commutes CHAN_TXT OTHER_TXT TWO_WORLD).
  decide_by_compute.
Defined.

(** Both runs of that scenario write their destination. *)
Example two_world_runs :
  fst (process_file CHAN_TXT TWO_WORLD) = Ok (2, 1, 2)
  ∧ fst (process_file OTHER_TXT TWO_WORLD) = Ok (1, 0, 1).
Proof. split; by vm_compute. Qed.
